(** * focusmusic: the scheduling, modulation and lifecycle core

    A shallow embedding of [src/clock.ts], [src/modulation.ts],
    [src/diagnostics.ts] and of the scheduling and teardown code of the four
    layers ([layers/beat.ts], [layers/arp.ts], [layers/texture.ts],
    [layers/pad.ts]), with the tables and selections of [kits.ts] and
    [utils/scales.ts], the track length of [index.tsx] and the counter and
    progress bar of [ui/Player.tsx].

    Conventions of the embedding.
    - A JavaScript [number] that holds a time, a tempo or a level is an
      exact rational ([Q]); a number that holds a count, a tick index or a
      MIDI note is an integer ([Z]).  Rounding, infinities and NaN are
      modelled where a property turns on them: the argument of [setBpm]
      ([Clock.Number]), the sums of the node tracker
      ([Diagnostics.toDouble]) and the arithmetic of the track length
      ([Double.round]).
    - Objects compared by reference (clock listeners) are natural-number
      identities; what a listener does is looked up in a table.
    - Mutable objects are records threaded through the functions that
      mutate them; a callback trace records what an observer would see.
    - [setTimeout(cb, ms)] registers a timer whose deadline is the time of
      the call plus [ms / 1000] seconds on the same time line as the audio
      clock; a timer cannot fire before its deadline. *)

From Stdlib Require Import ZArith QArith Qround Qminmax Qabs Lqa Lia List Bool Sorted.
From Stdlib Require String.
Import ListNotations.

Local Open Scope Z_scope.

(* ===================================================================== *)
(** ** src/clock.ts                                                       *)
(* ===================================================================== *)

Module Clock.

(** [type ClockEvent = 'tick' | 'beat' | 'bar' | 'phrase'] *)
Inductive ClockEvent : Type := tick | beat | bar | phrase.

(** A listener object, by identity. *)
Definition listener : Type := nat.

(** What a callback can do to the clock that is calling it.  (The layers
    of the repository do none of this in their callbacks; a callback that
    calls [start] or [stop] is not modelled.) *)
Inductive Op : Type :=
| Subscribe (l : listener)
| Unsubscribe (l : listener)
| SetBpm (x : Q).

(** [interface ClockListener]: four optional methods.  A method receives
    the counter and the time and returns the clock operations it performs. *)
Record ClockListener : Type := mkListener {
  onTick : option (Z -> Q -> list Op);
  onBeat : option (Z -> Q -> list Op);
  onBar : option (Z -> Q -> list Op);
  onPhrase : option (Z -> Q -> list Op)
}.

Definition handler (L : ClockListener) (e : ClockEvent)
  : option (Z -> Q -> list Op) :=
  match e with
  | tick => onTick L
  | beat => onBeat L
  | bar => onBar L
  | phrase => onPhrase L
  end.

(** One observed callback invocation. *)
Record Call : Type := mkCall {
  who : listener;
  what : ClockEvent;
  value : Z;
  time : Q
}.

(** [class Clock].  [lastScheduledTick] is the variable captured by the
    [schedule] closure of the running session; [intervalId] is kept as the
    fact that an interval is installed. *)
Record t : Type := mk {
  bpm : Q;
  currentTick : Z;
  currentBeat : Z;
  currentBar : Z;
  currentPhrase : Z;
  listeners : list listener;
  intervalId : bool;
  startTime : Q;
  lastScheduledTick : Z
}.

Definition ticksPerBeat : Z := 4.
Definition beatsPerBar : Z := 4.
Definition barsPerPhrase : Z := 4.
Definition scheduleAhead : Q := 1 # 10.

(** [constructor(bpm, getTime)]: the tempo is stored as given. *)
Definition new (bpm0 : Q) : t :=
  mk bpm0 0 0 0 0 [] false 0%Q (-1).

Definition tickDuration (c : t) : Q := (60 / bpm c / inject_Z ticksPerBeat)%Q.
Definition beatDuration (c : t) : Q := (60 / bpm c)%Q.
Definition barDuration (c : t) : Q := (beatDuration c * inject_Z beatsPerBar)%Q.

Definition with_listeners (ls : list listener) (c : t) : t :=
  mk (bpm c) (currentTick c) (currentBeat c) (currentBar c) (currentPhrase c)
     ls (intervalId c) (startTime c) (lastScheduledTick c).

(** [Array.prototype.indexOf] on identities. *)
Fixpoint indexOf (l : listener) (ls : list listener) : option nat :=
  match ls with
  | [] => None
  | x :: r => if Nat.eqb x l then Some O else option_map S (indexOf l r)
  end.

(** [splice(idx, 1)]. *)
Fixpoint splice1 (idx : nat) (ls : list listener) : list listener :=
  match ls, idx with
  | [], _ => []
  | _ :: r, O => r
  | x :: r, S i => x :: splice1 i r
  end.

Definition subscribe (l : listener) (c : t) : t :=
  with_listeners (listeners c ++ [l]) c.

Definition unsubscribe (l : listener) (c : t) : t :=
  match indexOf l (listeners c) with
  | Some idx => with_listeners (splice1 idx (listeners c)) c
  | None => c
  end.

(** [setBpm(bpm)] for a [bpm] that is a finite number:
    [Math.max(60, Math.min(140, bpm))].  [setBpmNumber] below takes any
    number. *)
Definition setBpm (x : Q) (c : t) : t :=
  mk (Qmax 60 (Qmin 140 x)) (currentTick c) (currentBeat c) (currentBar c)
     (currentPhrase c) (listeners c) (intervalId c) (startTime c)
     (lastScheduledTick c).

Definition getBpm (c : t) : Q := bpm c.

(** A JavaScript number as [setBpm] can receive it. *)
Inductive Number : Type :=
| Finite (q : Q)
| PlusInfinity
| MinusInfinity
| NaN.

(** [Math.min(a, x)] and [Math.max(a, x)] for a finite [a]. *)
Definition Math_min (a : Q) (x : Number) : Number :=
  match x with
  | Finite q => Finite (Qmin a q)
  | PlusInfinity => Finite a
  | MinusInfinity => MinusInfinity
  | NaN => NaN
  end.

Definition Math_max (a : Q) (x : Number) : Number :=
  match x with
  | Finite q => Finite (Qmax a q)
  | PlusInfinity => PlusInfinity
  | MinusInfinity => Finite a
  | NaN => NaN
  end.

(** What [setBpm(bpm)] stores in [this.bpm]. *)
Definition clamped (x : Number) : Number := Math_max 60 (Math_min 140 x).

(** [setBpm(bpm)] for any number.  The tempo of a [t] is a rational: where
    the source stores a value that is none, the result is [None]. *)
Definition setBpmNumber (x : Number) (c : t) : option t :=
  match clamped x with
  | Finite q =>
    Some (mk q (currentTick c) (currentBeat c) (currentBar c)
             (currentPhrase c) (listeners c) (intervalId c) (startTime c)
             (lastScheduledTick c))
  | _ => None
  end.

(** Whether a stored tempo is a number of the interval [60, 140]. *)
Definition in_range (x : Number) : Prop :=
  match x with
  | Finite q => (60 <= q <= 140)%Q
  | _ => False
  end.

Definition getPosition (c : t) : Z * Z * Z * Z :=
  (currentTick c, currentBeat c, currentBar c, currentPhrase c).

Definition apply_op (o : Op) (c : t) : t :=
  match o with
  | Subscribe l => subscribe l c
  | Unsubscribe l => unsubscribe l c
  | SetBpm x => setBpm x c
  end.

Definition apply_ops (os : list Op) (c : t) : t :=
  fold_left (fun c o => apply_op o c) os c.

Section WithListeners.

(** The listener objects behind the identities. *)
Variable impl : listener -> ClockListener.

(** [l.onX?.(v, time)]: nothing happens when the method is absent. *)
Definition invoke (l : listener) (e : ClockEvent) (v : Z) (tm : Q) (c : t)
  : t * list Call :=
  match handler (impl l) e with
  | None => (c, [])
  | Some h => (apply_ops (h v tm) c, [mkCall l e v tm])
  end.

(** The body of the arrow function given to [forEach] (lines 102-114). *)
Definition serve (tk : Z) (tickStartTime : Q) (l : listener) (c : t)
  : t * list Call :=
  let tickInBeat := Z.rem tk ticksPerBeat in
  let beat_ := tk / ticksPerBeat in
  let beatInBar := Z.rem beat_ beatsPerBar in
  let bar_ := beat_ / beatsPerBar in
  let barInPhrase := Z.rem bar_ barsPerPhrase in
  let phrase_ := bar_ / barsPerPhrase in
  let '(c1, t1) := invoke l tick tk tickStartTime c in
  let '(c2, t2) :=
    if tickInBeat =? 0 then invoke l beat beat_ tickStartTime c1
    else (c1, []) in
  let '(c3, t3) :=
    if (tickInBeat =? 0) && (beatInBar =? 0)
    then invoke l bar bar_ tickStartTime c2 else (c2, []) in
  let '(c4, t4) :=
    if (tickInBeat =? 0) && (beatInBar =? 0) && (barInPhrase =? 0)
    then invoke l phrase phrase_ tickStartTime c3 else (c3, []) in
  (c4, t1 ++ t2 ++ t3 ++ t4).

(** [this.listeners.forEach(...)]: the length is read once, the index [k]
    runs up to it, and each step looks [k] up in the array as it is at that
    moment; an index that is no longer present is passed over. *)
Fixpoint forEach_from (n k : nat) (tk : Z) (tm : Q) (c : t)
  : t * list Call :=
  match n with
  | O => (c, [])
  | S n' =>
    match nth_error (listeners c) k with
    | None => forEach_from n' (S k) tk tm c
    | Some l =>
      let '(c1, t1) := serve tk tm l c in
      let '(c2, t2) := forEach_from n' (S k) tk tm c1 in
      (c2, t1 ++ t2)
    end
  end.

Definition forEach (tk : Z) (tm : Q) (c : t) : t * list Call :=
  forEach_from (length (listeners c)) 0 tk tm c.

(** One iteration of the [for] loop of [schedule] (lines 91-119). *)
Definition fire (tickTime : Q) (tk : Z) (c : t) : t * list Call :=
  let tickStartTime := (startTime c + inject_Z tk * tickTime)%Q in
  let beat_ := tk / ticksPerBeat in
  let bar_ := beat_ / beatsPerBar in
  let phrase_ := bar_ / barsPerPhrase in
  let '(c1, tr) := forEach tk tickStartTime c in
  (mk (bpm c1) tk beat_ bar_ phrase_ (listeners c1) (intervalId c1)
      (startTime c1) (lastScheduledTick c1), tr).

(** [for (let tick = from; tick <= targetTick; tick++)], [n] iterations. *)
Fixpoint fire_from (n : nat) (tickTime : Q) (tk : Z) (c : t)
  : t * list Call :=
  match n with
  | O => (c, [])
  | S n' =>
    let '(c1, t1) := fire tickTime tk c in
    let '(c2, t2) := fire_from n' tickTime (tk + 1) c1 in
    (c2, t1 ++ t2)
  end.

Definition targetTick (now : Q) (c : t) : Z :=
  let elapsed := (now - startTime c)%Q in
  let tickTime := tickDuration c in
  let currentTickFloat := (elapsed / tickTime)%Q in
  Qfloor (currentTickFloat + scheduleAhead / tickTime)%Q.

(** The [schedule] closure (lines 80-123); [now] is what [getTime()]
    returns in this pass. *)
Definition schedule (now : Q) (c : t) : t * list Call :=
  let tickTime := tickDuration c in
  let target := targetTick now c in
  let '(c1, tr) :=
    fire_from (Z.to_nat (target - lastScheduledTick c)) tickTime
              (lastScheduledTick c + 1) c in
  (mk (bpm c1) (currentTick c1) (currentBeat c1) (currentBar c1)
      (currentPhrase c1) (listeners c1) (intervalId c1) (startTime c1)
      target, tr).

(** [start()]: [t0] is the reading stored in [startTime], [now] the reading
    of the pass that runs at once. *)
Definition start (t0 now : Q) (c : t) : t * list Call :=
  schedule now (mk (bpm c) 0 0 0 0 (listeners c) true t0 (-1)).

Definition stop (c : t) : t :=
  mk (bpm c) (currentTick c) (currentBeat c) (currentBar c) (currentPhrase c)
     (listeners c) false (startTime c) (lastScheduledTick c).

(** What happens to a clock between [start()] and [stop()]. *)
Inductive Step : Type :=
| Pass (now : Q)
| DoSetBpm (x : Q)
| DoSubscribe (l : listener)
| DoUnsubscribe (l : listener)
| DoStop.

Definition step (s : Step) (c : t) : t * list Call :=
  match s with
  | Pass now => if intervalId c then schedule now c else (c, [])
  | DoSetBpm x => (setBpm x c, [])
  | DoSubscribe l => (subscribe l c, [])
  | DoUnsubscribe l => (unsubscribe l c, [])
  | DoStop => (stop c, [])
  end.

Fixpoint run (ss : list Step) (c : t) : t * list Call :=
  match ss with
  | [] => (c, [])
  | s :: r =>
    let '(c1, t1) := step s c in
    let '(c2, t2) := run r c1 in
    (c2, t1 ++ t2)
  end.

(** A session: [start()] and what follows. *)
Definition session (t0 now : Q) (ss : list Step) (c : t) : t * list Call :=
  let '(c1, t1) := start t0 now c in
  let '(c2, t2) := run ss c1 in
  (c2, t1 ++ t2).

(** A life of a clock after its construction: sessions one after the
    other, each a [stop()], which does nothing to a clock whose interval is
    not running, then [start()] with its two readings and what follows.
    ([start()] while an interval is running leaves two intervals running,
    which a [t] does not hold.) *)
Fixpoint sessions (ls : list (Q * Q * list Step)) (c : t)
  : t * list Call :=
  match ls with
  | [] => (c, [])
  | (t0, now, ss) :: r =>
    let '(c1, t1) := session t0 now ss (stop c) in
    let '(c2, t2) := sessions r c1 in
    (c2, t1 ++ t2)
  end.

End WithListeners.

(** What the contract of the clock owes one listener at one tick: of
    [onTick], [onBeat], [onBar], [onPhrase], in this order, those that the
    listener has and whose boundary the tick is on, each with the counter of
    its own kind and all with one time. *)
Definition boundary (e : ClockEvent) (tk : Z) : bool :=
  match e with
  | tick => true
  | beat => Z.rem tk 4 =? 0
  | bar => (Z.rem tk 4 =? 0) && (Z.rem (tk / 4) 4 =? 0)
  | phrase =>
    (Z.rem tk 4 =? 0) && (Z.rem (tk / 4) 4 =? 0) &&
    (Z.rem (tk / 4 / 4) 4 =? 0)
  end.

Definition counter (e : ClockEvent) (tk : Z) : Z :=
  match e with
  | tick => tk
  | beat => tk / 4
  | bar => tk / 4 / 4
  | phrase => tk / 4 / 4 / 4
  end.

Definition has_handler (L : ClockListener) (e : ClockEvent) : bool :=
  match handler L e with
  | Some _ => true
  | None => false
  end.

Definition nest : list ClockEvent := [tick; beat; bar; phrase].

Definition block (impl : listener -> ClockListener) (l : listener)
           (tk : Z) (tm : Q) : list Call :=
  map (fun e => mkCall l e (counter e tk) tm)
      (filter (fun e => boundary e tk && has_handler (impl l) e) nest).









(** The part of the clock that no callback can reach. *)
Definition frame (c : t) : Q * Z * bool :=
  (startTime c, lastScheduledTick c, intervalId c).

(** The ideal start time of a tick. *)
Definition ideal (t0 tickTime : Q) (tk : Z) : Q :=
  (t0 + inject_Z tk * tickTime)%Q.

(** The trace of a pass that starts at tick [tk] and serves, tick after
    tick, the listeners listed in [visits]. *)
Fixpoint pass_trace (impl : listener -> ClockListener) (t0 tickTime : Q)
         (tk : Z) (visits : list (list listener)) : list Call :=
  match visits with
  | [] => []
  | vs :: r =>
    flat_map (fun l => block impl l tk (ideal t0 tickTime tk)) vs ++
    pass_trace impl t0 tickTime (tk + 1) r
  end.

(** Successive readings of a monotonic time source, the first of them not
    before [prev]. *)
Fixpoint monotonic (prev : Q) (nows : list Q) : Prop :=
  match nows with
  | [] => True
  | n :: r => (prev <= n)%Q /\ monotonic n r
  end.

(** No callback of any listener changes the tempo. *)
Definition tempo_free (impl : listener -> ClockListener) : Prop :=
  forall l e h v tm x, handler (impl l) e = Some h -> ~ In (SetBpm x) (h v tm).

(** The tick numbers announced to one listener, in the order announced. *)
Definition ticks_of (l : listener) (tr : list Call) : list Z :=
  map value
    (filter (fun x => Nat.eqb (who x) l &&
                      match what x with tick => true | _ => false end) tr).

End Clock.

(* ===================================================================== *)
(** ** src/modulation.ts                                                  *)
(* ===================================================================== *)

Module Modulation.

Local Open Scope Q_scope.

(** [interface ModulatorConfig]; [seed] is optional. *)
Record ModulatorConfig : Type := mkConfig {
  base : Q;
  range : Q;
  speed : Q;
  seed : option Q
}.

(** [Math.random]: the values it will return, and how many were taken. *)
Record Random : Type := mkRandom {
  draws : nat -> Q;
  taken : nat
}.

Definition random (r : Random) : Q * Random :=
  (draws r (taken r), mkRandom (draws r) (S (taken r))).

Definition skip (n : nat) (r : Random) : Random :=
  mkRandom (draws r) (n + taken r).

(** [class Modulator] *)
Record Modulator : Type := mkModulator {
  noise2D : Q -> Q -> Q;
  config : ModulatorConfig;
  offset : Q
}.

Section WithSimplexNoise.

(** The package simplex-noise is not part of the repository.
    [createNoise2D(random)] calls [random] a fixed number of times to build
    its table and returns a function of two coordinates that depends on
    nothing but the values received: [createNoise2D] below takes the
    sequence of those values. *)
Variable noiseDraws : nat.
Variable createNoise2D : (nat -> Q) -> Q -> Q -> Q.

(** [constructor(config)]: the random source handed to [createNoise2D] is
    [() => config.seed ?? Math.random()]. *)
Definition constructor (cfg : ModulatorConfig) (r : Random)
  : Modulator * Random :=
  let '(noise, r1) :=
    match seed cfg with
    | Some s => (createNoise2D (fun _ => s), r)
    | None =>
      (createNoise2D (fun i => draws r (i + taken r)%nat), skip noiseDraws r)
    end in
  let '(u, r2) := random r1 in
  (mkModulator noise cfg (u * 1000), r2).

End WithSimplexNoise.

Definition getValue (m : Modulator) (time : Q) : Q :=
  let noiseValue := noise2D m (time * speed (config m)) (offset m) in
  base (config m) + noiseValue * range (config m).

Definition getNormalized (m : Modulator) (time : Q) : Q :=
  let noiseValue := noise2D m (time * speed (config m)) (offset m) in
  (noiseValue + 1) / 2.

Definition setBase (b : Q) (m : Modulator) : Modulator :=
  mkModulator (noise2D m)
    (mkConfig b (range (config m)) (speed (config m)) (seed (config m)))
    (offset m).

Definition setRange (x : Q) (m : Modulator) : Modulator :=
  mkModulator (noise2D m)
    (mkConfig (base (config m)) x (speed (config m)) (seed (config m)))
    (offset m).

Definition setSpeed (x : Q) (m : Modulator) : Modulator :=
  mkModulator (noise2D m)
    (mkConfig (base (config m)) (range (config m)) x (seed (config m)))
    (offset m).

(** A method call on a modulator object, and what it returns. *)
Inductive Method : Type :=
| GetValue (time : Q)
| GetNormalized (time : Q)
| SetBase (b : Q)
| SetRange (x : Q)
| SetSpeed (x : Q).

Definition call (c : Method) (m : Modulator) : option Q * Modulator :=
  match c with
  | GetValue time => (Some (getValue m time), m)
  | GetNormalized time => (Some (getNormalized m time), m)
  | SetBase b => (None, setBase b m)
  | SetRange x => (None, setRange x m)
  | SetSpeed x => (None, setSpeed x m)
  end.

Definition calls (cs : list Method) (m : Modulator) : Modulator :=
  fold_left (fun m c => snd (call c m)) cs m.

Definition reads_only (c : Method) : bool :=
  match c with
  | GetValue _ | GetNormalized _ => true
  | _ => false
  end.

(** [ModPresets] *)
Definition glacial (b x : Q) : ModulatorConfig := mkConfig b x 0.01 None.
Definition slow (b x : Q) : ModulatorConfig := mkConfig b x 0.05 None.
Definition medium (b x : Q) : ModulatorConfig := mkConfig b x 0.2 None.
Definition shimmer (b x : Q) : ModulatorConfig := mkConfig b x 2.5 None.

End Modulation.

(* ===================================================================== *)
(** ** src/diagnostics.ts                                                 *)
(* ===================================================================== *)

Module Diagnostics.

(** [class NodeCounter] *)
Record NodeCounter : Type := mkCounter {
  created : Z;
  cleaned : Z
}.

Definition initial : NodeCounter := mkCounter 0 0.

(** A [count] argument that may be left out: [count: number = 1]. *)
Definition count_arg (count : option Z) : Z :=
  match count with
  | Some n => n
  | None => 1
  end.

(** The counters are JavaScript numbers: IEEE doubles.  For a whole
    number [z], [toDouble z] is the double nearest to it: [z] itself up to
    2^53, and beyond that the nearest number with a significand of 53
    bits, a tie going to the even significand.  (A magnitude of 2^1024 or
    more, which a double holds as Infinity, is not modelled; nor is a
    count that is not whole.) *)
Definition toDouble (z : Z) : Z :=
  let a := Z.abs z in
  if a <? 2 ^ 53 then z
  else
    let ulp := 2 ^ (Z.log2 a - 52) in
    let q := a / ulp in
    let r := a mod ulp in
    let q' :=
      if (ulp <? 2 * r) || ((2 * r =? ulp) && Z.odd q) then q + 1 else q in
    Z.sgn z * (q' * ulp).

Arguments toDouble : simpl never.

(** [a + b] and [a - b] on whole doubles. *)
Definition plus (a b : Z) : Z := toDouble (a + b).
Definition minus (a b : Z) : Z := toDouble (a - b).

(** [this.created += count] *)
Definition create (count : option Z) (nc : NodeCounter) : NodeCounter :=
  mkCounter (plus (created nc) (count_arg count)) (cleaned nc).

(** [this.cleaned += count] *)
Definition cleanup (count : option Z) (nc : NodeCounter) : NodeCounter :=
  mkCounter (created nc) (plus (cleaned nc) (count_arg count)).

(** [this.created - this.cleaned] *)
Definition getActive (nc : NodeCounter) : Z := minus (created nc) (cleaned nc).

Record Stats : Type := mkStats {
  stats_created : Z;
  stats_cleaned : Z;
  stats_active : Z
}.

Definition getStats (nc : NodeCounter) : Stats :=
  mkStats (created nc) (cleaned nc) (minus (created nc) (cleaned nc)).

Definition reset (nc : NodeCounter) : NodeCounter := mkCounter 0 0.

(** A call on the tracker that moves a counter. *)
Inductive Call : Type :=
| Create (count : option Z)
| Cleanup (count : option Z).

Definition perform (c : Call) (nc : NodeCounter) : NodeCounter :=
  match c with
  | Create n => create n nc
  | Cleanup n => cleanup n nc
  end.

Definition run (cs : list Call) (nc : NodeCounter) : NodeCounter :=
  fold_left (fun nc c => perform c nc) cs nc.

(** The totals handed to [create] and to [cleanup] in a sequence of calls. *)
Fixpoint total_created (cs : list Call) : Z :=
  match cs with
  | [] => 0
  | Create n :: r => count_arg n + total_created r
  | Cleanup _ :: r => total_created r
  end.

Fixpoint total_cleaned (cs : list Call) : Z :=
  match cs with
  | [] => 0
  | Create _ :: r => total_cleaned r
  | Cleanup n :: r => count_arg n + total_cleaned r
  end.

(** The magnitudes of all counts of a sequence of calls, added up.  While
    this stays below 2^53 every sum the tracker forms is a safe integer. *)
Fixpoint weight (cs : list Call) : Z :=
  match cs with
  | [] => 0
  | Create n :: r => Z.abs (count_arg n) + weight r
  | Cleanup n :: r => Z.abs (count_arg n) + weight r
  end.

(** Every [create] is followed, somewhere later, by one [cleanup] of its
    own with the same count: a matched sequence grows from the empty one by
    putting a [create] and, after it, its [cleanup] into a matched one. *)
Inductive Matched : list Call -> Prop :=
| Matched_nil : Matched []
| Matched_pair (n : option Z) (a b c : list Call) :
    Matched (a ++ b ++ c) ->
    Matched (a ++ Create n :: b ++ Cleanup n :: c).

End Diagnostics.

(* ===================================================================== *)
(** ** The host: audio parameters, sources, timers, exceptions            *)
(* ===================================================================== *)

Module Host.

Local Open Scope Q_scope.

(** Calls on an [AudioParam], each with the time it is scheduled for. *)
Inductive Automation : Type :=
| SetValueAtTime (v tm : Q)
| LinearRampToValueAtTime (v tm : Q)
| ExponentialRampToValueAtTime (v tm : Q)
| SetTargetAtTime (v tm tc : Q).

Definition scheduled_for (a : Automation) : Q :=
  match a with
  | SetValueAtTime _ tm => tm
  | LinearRampToValueAtTime _ tm => tm
  | ExponentialRampToValueAtTime _ tm => tm
  | SetTargetAtTime _ tm _ => tm
  end.

(** Which creation path made a transient unit. *)
Inductive Kind : Type := Kick | Click | NoiseBurst | GhostKick | ArpNote.

(** A transient unit as its creation path leaves it: the count given to
    [nodeCounter.create] and to the [cleanup] of its teardown, the envelope
    on its gain node, the [start] and [stop] times of its oscillators, and
    the deadline of the [setTimeout] whose callback disconnects the nodes
    and calls [nodeCounter.cleanup]. *)
Record Transient : Type := mkTransient {
  kind : Kind;
  nodes : Z;
  envelope : list Automation;
  sourceStart : Q;
  sourceStop : Q;
  teardownDue : Q
}.

(** The time of the call that closes the envelope, the last one made on
    the gain.  It is the end of the envelope where the times of the calls
    increase, as those of the units of beat.ts do at the kits of this
    program; the calls of a note of the arp layer need not. *)
Definition audibleEnd (u : Transient) : Q :=
  scheduled_for (last (envelope u) (SetValueAtTime 0 (sourceStart u))).

(** What a tick handler works on: the time at which it runs, the tracker,
    the units made so far and the sidechain requests sent to the engine. *)
Record World : Type := mkWorld {
  wall : Q;
  counter : Diagnostics.NodeCounter;
  units : list Transient;
  sidechain : list Q
}.

(** The world when the event loop runs a callback at time [now]. *)
Definition at_wall (now : Q) (w : World) : World :=
  mkWorld now (counter w) (units w) (sidechain w).

(** [setTimeout(cb, ms)] called at [wall w]. *)
Definition deadline (w : World) (ms : Q) : Q := wall w + ms / 1000.

(** [nodeCounter.create(n)] and the registration of the unit's teardown. *)
Definition spawn (u : Transient) (w : World) : World :=
  mkWorld (wall w) (Diagnostics.create (Some (nodes u)) (counter w))
          (units w ++ [u]) (sidechain w).

Definition triggerSidechain (tm : Q) (w : World) : World :=
  mkWorld (wall w) (counter w) (units w) (sidechain w ++ [tm]).

(** Exceptions, and computations on a state [S] that may throw: the state
    reached when the exception leaves is kept, as in JavaScript. *)
Inductive Exn : Type := InvalidStateError | OtherError (code : nat).

Inductive Completion (A : Type) : Type :=
| Normal (a : A)
| Throw (e : Exn).

Arguments Normal {A} a.
Arguments Throw {A} e.

Definition M (S A : Type) : Type := S -> Completion A * S.

Definition ret {S A : Type} (a : A) : M S A := fun s => (Normal a, s).

Definition bind {S A B : Type} (m : M S A) (k : A -> M S B) : M S B :=
  fun s =>
    match m s with
    | (Normal a, s1) => k a s1
    | (Throw e, s1) => (Throw e, s1)
    end.

Definition throw {S A : Type} (e : Exn) : M S A := fun s => (Throw e, s).

Definition get {S : Type} : M S S := fun s => (Normal s, s).

Definition modify {S : Type} (f : S -> S) : M S unit :=
  fun s => (Normal tt, f s).

(** [try { body } catch { handler }] *)
Definition try_catch {S A : Type} (body : M S A) (handler : Exn -> M S A)
  : M S A :=
  fun s =>
    match body s with
    | (Normal a, s1) => (Normal a, s1)
    | (Throw e, s1) => handler e s1
    end.

(** [xs.forEach(f)]: an exception thrown by [f] ends the iteration. *)
Fixpoint forEach {S A : Type} (f : A -> M S unit) (xs : list A) : M S unit :=
  match xs with
  | [] => ret tt
  | x :: r => bind (f x) (fun _ => forEach f r)
  end.

(** A computation keeps an observation [g] of the state when the state it
    leaves, normally or by an exception, shows what the state it found
    showed. *)
Definition keeps {S A X : Type} (g : S -> X) (m : M S A) : Prop :=
  forall s, g (snd (m s)) = g s.

(** A sound source ([OscillatorNode], [AudioBufferSourceNode]). *)
Inductive Playback : Type := Unstarted | Playing | Finished.

Record Source : Type := mkSource {
  playback : Playback;
  connected : bool
}.

(** The sources that exist; a layer refers to a source by its position. *)
Definition Heap : Type := list Source.
Definition ref : Type := nat.

Fixpoint update (r : ref) (s : Source) (h : Heap) : Heap :=
  match h, r with
  | [], _ => []
  | _ :: t, O => s :: t
  | x :: t, S r' => x :: update r' s t
  end.

(** What may happen to a source while a timer is pending. *)
Inductive Life : Type :=
| Starts (r : ref)
| Ends (r : ref)
| Disconnects (r : ref).

Definition live (e : Life) (h : Heap) : Heap :=
  match e with
  | Starts r =>
    match nth_error h r with
    | Some s => update r (mkSource Playing (connected s)) h
    | None => h
    end
  | Ends r =>
    match nth_error h r with
    | Some s => update r (mkSource Finished (connected s)) h
    | None => h
    end
  | Disconnects r =>
    match nth_error h r with
    | Some s => update r (mkSource (playback s) false) h
    | None => h
    end
  end.

Definition lives (es : list Life) (h : Heap) : Heap :=
  fold_left (fun h e => live e h) es h.

(** The audio library is not part of the repository: what its calls do to
    a source, and whether they throw, is left open. *)
Record Api : Type := mkApi {
  api_stop : Source -> Completion Source;
  api_start : Source -> Completion Source;
  api_create : option Q -> Completion Source
}.

(** The Web Audio API's own rules, as one instance: [stop()] and a second
    [start()] are errors on a source in the wrong state, and a frequency
    that is not a number is refused. *)
Definition webAudio : Api :=
  mkApi
    (fun s => match playback s with
              | Unstarted => Throw InvalidStateError
              | _ => Normal (mkSource Finished (connected s))
              end)
    (fun s => match playback s with
              | Unstarted => Normal (mkSource Playing (connected s))
              | _ => Throw InvalidStateError
              end)
    (fun f => match f with
              | Some _ => Normal (mkSource Unstarted true)
              | None => Throw (OtherError 0)
              end).

(** [r.stop()] *)
Definition stopRef (api : Api) (r : ref) : M Heap unit :=
  fun h =>
    match nth_error h r with
    | None => (Normal tt, h)
    | Some s =>
      match api_stop api s with
      | Normal s' => (Normal tt, update r s' h)
      | Throw e => (Throw e, h)
      end
    end.

(** [r?.stop()] on a field that may be [null]. *)
Definition stopIfPresent (api : Api) (r : option ref) : M Heap unit :=
  match r with
  | None => ret tt
  | Some r' => stopRef api r'
  end.

End Host.

(* ===================================================================== *)
(** ** src/kits.ts and src/layers/beat.ts                                 *)
(* ===================================================================== *)

Module Beat.

Import Host.
Local Open Scope Q_scope.

Inductive PatternType : Type :=
| four_on_floor | half_time | broken | sparse | driving.

Inductive OscillatorShape : Type := sine | triangle | square | sawtooth.

Record KickParams : Type := mkKick {
  waveform : OscillatorShape;
  startFreq : Q;
  endFreq : Q;
  pitchDecay : Q;
  attack : Q;
  decay : Q;
  distortion : Q;
  noiseAmount : Q;
  clickAmount : Q;
  filterFreq : Q;
  filterQ : Q;
  subLevel : Q;
  subFreq : Q
}.

Record DrumKit : Type := mkKit {
  pattern : PatternType;
  kick : KickParams;
  ghostVelocity : Q;
  swing : Q
}.

Definition deepHouse : DrumKit :=
  mkKit four_on_floor
    (mkKick sine 150 45 0.08 0.005 0.3 0.1 0.05 0.15 200 1 0.4 40) 0.25 0.1.
Definition techno : DrumKit :=
  mkKit four_on_floor
    (mkKick sine 180 40 0.04 0.001 0.2 0.3 0.1 0.4 150 2 0.5 35) 0.15 0.
Definition ambient : DrumKit :=
  mkKit half_time
    (mkKick sine 100 50 0.15 0.02 0.5 0 0 0 120 0.5 0.6 45) 0.1 0.15.
Definition edm : DrumKit :=
  mkKit four_on_floor
    (mkKick sine 200 35 0.05 0.001 0.25 0.2 0.15 0.5 180 1.5 0.7 30) 0.2 0.05.
Definition minimal : DrumKit :=
  mkKit sparse
    (mkKick triangle 120 55 0.03 0.002 0.12 0.05 0.02 0.6 300 3 0.2 50) 0.3 0.2.
Definition dark : DrumKit :=
  mkKit broken
    (mkKick triangle 160 38 0.06 0.001 0.18 0.6 0.25 0.3 250 4 0.5 32) 0.35 0.08.
Definition loFi : DrumKit :=
  mkKit half_time
    (mkKick sine 130 48 0.1 0.008 0.35 0.4 0.08 0.1 140 0.8 0.35 42) 0.2 0.25.
Definition dub : DrumKit :=
  mkKit half_time
    (mkKick sine 110 35 0.12 0.01 0.6 0.15 0.03 0.05 100 0.7 0.8 38) 0.15 0.18.

Definition DRUM_KITS : list DrumKit :=
  [deepHouse; techno; ambient; edm; minimal; dark; loFi; dub].

Definition getPattern (p : PatternType) : list bool :=
  match p with
  | four_on_floor =>
    [true; false; false; false; true; false; false; false;
     true; false; false; false; true; false; false; false]
  | half_time =>
    [true; false; false; false; false; false; false; false;
     true; false; false; false; false; false; false; false]
  | broken =>
    [true; false; false; false; false; false; true; false;
     false; false; true; false; true; false; false; false]
  | sparse =>
    [true; false; false; false; false; false; false; false;
     false; false; false; false; false; false; false; false]
  | driving =>
    [true; false; true; false; true; false; false; false;
     true; false; true; false; true; false; false; false]
  end.

(** [class BeatLayer]: the fields the handlers read. *)
Record BeatLayer : Type := mk {
  kit : DrumKit;
  steps : list bool;
  ghostMod : Modulation.Modulator;
  subOsc : option ref
}.

Definition Qpos (x : Q) : bool := negb (Qle_bool x 0).

Definition playClick (tm velocity : Q) (w : World) : World :=
  spawn (mkTransient Click 2
           [SetValueAtTime 0 tm;
            LinearRampToValueAtTime velocity (tm + 0.001);
            ExponentialRampToValueAtTime 0.001 (tm + 0.010);
            LinearRampToValueAtTime 0 (tm + 0.012)]
           tm (tm + 0.02) (deadline w 50)) w.

Definition playNoiseTransient (tm velocity : Q) (w : World) : World :=
  spawn (mkTransient NoiseBurst 6
           [SetValueAtTime 0 tm;
            LinearRampToValueAtTime (velocity * 0.5) (tm + 0.002);
            ExponentialRampToValueAtTime 0.001 (tm + 0.035);
            LinearRampToValueAtTime 0 (tm + 0.04)]
           tm (tm + 0.05) (deadline w 100)) w.

Definition playKick (L : BeatLayer) (tm velocity : Q) (w : World) : World :=
  let k := kick (kit L) in
  let cleanupDelay := (decay k + 0.1) * 1000 in
  let w1 :=
    spawn (mkTransient Kick 2
             [SetValueAtTime 0 tm;
              LinearRampToValueAtTime velocity (tm + attack k);
              ExponentialRampToValueAtTime 0.001 (tm + decay k - 0.005);
              LinearRampToValueAtTime 0 (tm + decay k)]
             tm (tm + decay k + 0.05) (deadline w cleanupDelay)) w in
  let w2 :=
    if Qpos (clickAmount k) then playClick tm (velocity * clickAmount k) w1
    else w1 in
  let w3 :=
    if Qpos (noiseAmount k)
    then playNoiseTransient tm (velocity * noiseAmount k) w2 else w2 in
  triggerSidechain tm w3.

Definition playGhostKick (L : BeatLayer) (tm : Q) (w : World) : World :=
  let velocity := ghostVelocity (kit L) in
  spawn (mkTransient GhostKick 2
           [SetValueAtTime 0 tm;
            LinearRampToValueAtTime (velocity * 0.3) (tm + 0.003);
            ExponentialRampToValueAtTime 0.001 (tm + 0.075);
            LinearRampToValueAtTime 0 (tm + 0.08)]
           tm (tm + 0.12) (deadline w 150)) w.

(** [onTick(tick, time)].  With an empty pattern the index is NaN in the
    source and nothing is played. *)
Definition onTick (L : BeatLayer) (tk : Z) (tm : Q) (w : World) : World :=
  match steps L with
  | [] => w
  | _ =>
    let patternIndex := Z.rem tk (Z.of_nat (length (steps L))) in
    let swingOffset :=
      if Qpos (swing (kit L)) && (Z.rem patternIndex 2 =? 1)%Z
      then swing (kit L) * 0.02 else 0 in
    let actualTime := tm + swingOffset in
    if (0 <=? patternIndex)%Z && nth (Z.to_nat patternIndex) (steps L) false
    then playKick L actualTime 0.55 w
    else
      let ghostChance := Modulation.getNormalized (ghostMod L) tm in
      let isGhostPosition :=
        ((patternIndex =? 2) || (patternIndex =? 6) ||
         (patternIndex =? 10) || (patternIndex =? 14))%Z in
      if isGhostPosition && Qpos (ghostChance - 0.55)
      then playGhostKick L actualTime w else w
  end.

(** What a pass of the clock that runs at [now] makes of the beat layer
    subscribed as listener [me]: every [onTick] of the pass runs then.
    ([onBeat] moves the gain of the sub-bass and makes no unit.) *)
Definition told (L : BeatLayer) (me : Clock.listener) (now : Q)
           (tr : list Clock.Call) (w : World) : World :=
  fold_left
    (fun w x =>
       if Nat.eqb (Clock.who x) me
       then match Clock.what x with
            | Clock.tick => onTick L (Clock.value x) (Clock.time x) w
            | _ => w
            end
       else w)
    tr (at_wall now w).

(** The arrow function that [stop()] hands to [setTimeout(..., 2500)]:
    [try { this.subOsc?.stop() } catch {}]. *)
Definition hardStop (api : Api) (L : BeatLayer) : M Heap unit :=
  try_catch (stopIfPresent api (subOsc L)) (fun _ => ret tt).

End Beat.

(* ===================================================================== *)
(** ** src/synths.ts and src/layers/arp.ts                                *)
(* ===================================================================== *)

Module Arp.

Import Host.
Local Open Scope Q_scope.

(** [interface SynthPreset]: the fields that decide when a note sounds and
    how many nodes it takes.  The filter, distortion and detune settings
    shape the sound only. *)
Record SynthPreset : Type := mkPreset {
  oscillators : nat;
  attack : Q;
  decay : Q;
  sustain : Q;
  release : Q;
  noteDuration : Q;
  velocityRange : Q * Q
}.

(** [class ArpLayer]; [bpm] is [engine.config.bpm]. *)
Record ArpLayer : Type := mk {
  preset : option SynthPreset;
  isActive : bool;
  velocityMod : Modulation.Modulator;
  bpm : Q
}.

(** [playNote(noteOffset, time)] (lines 159-269). *)
Definition playNote (L : ArpLayer) (tm : Q) (w : World) : World :=
  match preset L with
  | None => w
  | Some p =>
    if negb (isActive L) then w
    else
      let velocity :=
        Qmax (fst (velocityRange p))
             (Qmin (snd (velocityRange p))
                   (Modulation.getValue (velocityMod L) tm)) in
      let beatDuration := 60 / bpm L in
      let stepDuration := beatDuration / 4 in
      let noteDuration_ := stepDuration * noteDuration p in
      let nodeCount := (Z.of_nat (oscillators p) + Z.of_nat (oscillators p) + 2)%Z in
      let sustainLevel := velocity * sustain p in
      let releaseStart := tm + noteDuration_ - release p in
      let hold :=
        if Beat.Qpos (releaseStart - (tm + attack p + decay p))
        then [SetValueAtTime sustainLevel releaseStart] else [] in
      let cleanupDelay := (noteDuration_ + 0.2) * 1000 in
      spawn (mkTransient ArpNote nodeCount
               ([SetValueAtTime 0 tm;
                 LinearRampToValueAtTime velocity (tm + attack p);
                 LinearRampToValueAtTime sustainLevel (tm + attack p + decay p)]
                ++ hold ++
                [ExponentialRampToValueAtTime 0.001 (tm + noteDuration_)])
               tm (tm + noteDuration_ + 0.1) (deadline w cleanupDelay)) w
  end.

End Arp.

(* ===================================================================== *)
(** ** src/layers/texture.ts                                              *)
(* ===================================================================== *)

Module Texture.

Import Host.

(** [class TextureLayer]: the field that [stop()] reads. *)
Record TextureLayer : Type := mk {
  noiseSource : option ref
}.

(** The arrow function that [stop()] hands to [setTimeout(..., 3500)]:
    [try { this.noiseSource?.stop() } catch {}]. *)
Definition hardStop (api : Api) (L : TextureLayer) : M Heap unit :=
  try_catch (stopIfPresent api (noiseSource L)) (fun _ => ret tt).

End Texture.

(* ===================================================================== *)
(** ** src/layers/pad.ts                                                  *)
(* ===================================================================== *)

Module Pad.

Import Host.

(** [engine.state]: the fields the pad layer reads and writes.  (The file
    engine.ts is not among the sources.) *)
Record EngineState : Type := mkState {
  root : Z;
  scale : list Z
}.

(** [class PadLayer].  A chord note is [None] where the source computes
    with [undefined], which happens when the scale has no such degree. *)
Record PadLayer : Type := mk {
  oscillators : list ref;
  currentChord : list (option Z);
  phraseCount : Z;
  gain : list Automation
}.

(** What the pad layer's callbacks work on. *)
Record World : Type := mkWorld {
  heap : Heap;
  state : EngineState;
  layer : PadLayer;
  currentTime : Q
}.

Definition set_heap (h : Heap) (w : World) : World :=
  mkWorld h (state w) (layer w) (currentTime w).

Definition set_root (r : Z) (w : World) : World :=
  mkWorld (heap w) (mkState r (scale (state w))) (layer w) (currentTime w).

Definition set_layer (L : PadLayer) (w : World) : World :=
  mkWorld (heap w) (state w) L (currentTime w).

(** A computation on the sources, run on the world that holds them. *)
Definition on_heap {A : Type} (m : M Heap A) : M World A :=
  fun w => let '(r, h) := m (heap w) in (r, set_heap h w).

(** [a[i]] *)
Definition at_index (a : list Z) (i : Z) : option Z :=
  if i <? 0 then None else nth_error a (Z.to_nat i).

Definition plus (r : Z) (x : option Z) : option Z := option_map (Z.add r) x.

(** [buildChord()] *)
Definition buildChord : M World unit :=
  modify (fun w =>
    let r := root (state w) in
    let sc := scale (state w) in
    set_layer
      (mk (oscillators (layer w))
          [Some r;
           plus r (at_index sc 2);
           plus r (at_index sc (Z.min 4 (Z.of_nat (length sc) - 1)));
           Some (r + 12)]
          (phraseCount (layer w)) (gain (layer w))) w).

(** The chord that [buildChord] makes of a root and a scale. *)
Definition chord_of (r : Z) (sc : list Z) : list (option Z) :=
  [Some r;
   plus r (at_index sc 2);
   plus r (at_index sc (Z.min 4 (Z.of_nat (length sc) - 1)));
   Some (r + 12)].

(** What the audio calls of the pad layer cannot reach: the engine's state
    and the chord. *)
Definition tonal (w : World) : EngineState * list (option Z) :=
  (state w, currentChord (layer w)).

Section WithEngine.

Variable api : Api.

(** [engine.noteToFreq] *)
Variable noteToFreq : Z -> Q.

(** One oscillator of a chord note: [new OscillatorNode], its gain, the
    connections, [osc.start(now)] and [this.oscillators.push(osc)]. *)
Definition voice (note : option Z) (detune : Z) : M World unit :=
  fun w =>
    match api_create api (option_map noteToFreq note) with
    | Throw e => (Throw e, w)
    | Normal s =>
      match api_start api s with
      | Throw e => (Throw e, set_heap (heap w ++ [s]) w)
      | Normal s' =>
        let r := length (heap w) in
        (Normal tt,
         set_layer
           (mk (oscillators (layer w) ++ [r]) (currentChord (layer w))
               (phraseCount (layer w)) (gain (layer w)))
           (set_heap (heap w ++ [s']) w))
      end
    end.

(** [startOscillators()] *)
Definition startOscillators : M World unit :=
  bind get (fun w0 =>
  bind (on_heap
          (forEach (fun r => try_catch (stopRef api r) (fun _ => ret tt))
                   (oscillators (layer w0)))) (fun _ =>
  bind (modify (fun w =>
          set_layer (mk [] (currentChord (layer w)) (phraseCount (layer w))
                        (gain (layer w))) w)) (fun _ =>
  bind get (fun w1 =>
  forEach (fun note => forEach (voice note) [0; -7; 7])
          (currentChord (layer w1)))))).

(** The arrow function that [onPhrase] hands to [setTimeout(..., 4500)]
    (lines 141-157); [interval] is the captured constant. *)
Definition chordMutation (interval : Z) : M World unit :=
  bind get (fun w0 =>
  let newRoot := root (state w0) + interval in
  let oldRoot := root (state w0) in
  bind (modify (set_root (Z.max 36 (Z.min 60 newRoot)))) (fun _ =>
  bind buildChord (fun _ =>
  bind startOscillators (fun _ =>
  bind (modify (set_root oldRoot)) (fun _ =>
  modify (fun w =>
    let now := currentTime w in
    set_layer
      (mk (oscillators (layer w)) (currentChord (layer w))
          (phraseCount (layer w))
          (gain (layer w) ++
           [SetValueAtTime 0.05 now;
            LinearRampToValueAtTime 0.35 (now + 4)%Q])) w)))))).

(** The arrow function that [stop()] hands to [setTimeout(..., 3500)]:
    [this.oscillators.forEach(osc => { try { osc.stop() } catch {} })]. *)
Definition hardStop (L : PadLayer) : M Heap unit :=
  forEach (fun r => try_catch (stopRef api r) (fun _ => ret tt))
          (oscillators L).

End WithEngine.

(** [onPhrase(phrase, time)]: the interval of the chord change it
    schedules, if it schedules one.  [Math.random] is read only when the
    count has reached 6, and a second time when the first value is below
    0.3. *)
Definition intervals : list Z := [0; 5; 7; -5].

Definition onPhrase (tm gainValue : Q) (L : PadLayer) (r : Modulation.Random)
  : PadLayer * Modulation.Random * option Z :=
  let n := phraseCount L + 1 in
  let L1 := mk (oscillators L) (currentChord L) n (gain L) in
  if n <? 6 then (L1, r, None)
  else
    let '(u, r1) := Modulation.random r in
    if Qle_bool 0.3 u then (L1, r1, None)
    else
      let L2 := mk (oscillators L) (currentChord L) 0 (gain L) in
      let '(v, r2) := Modulation.random r1 in
      let interval :=
        nth (Z.to_nat (Qfloor (v * inject_Z (Z.of_nat (length intervals)))))
            intervals 0 in
      if interval =? 0 then (L2, r2, None)
      else
        (mk (oscillators L) (currentChord L) 0
            (gain L ++ [SetValueAtTime gainValue tm;
                        LinearRampToValueAtTime 0.05 (tm + 4)%Q]),
         r2, Some interval).

End Pad.

(* ===================================================================== *)
(** ** src/modulation.ts: [class ModulationBank]                          *)
(* ===================================================================== *)

Module ModulationBank.

Import Modulation.

(** [Map<string, Modulator>], in insertion order. *)
Definition t : Type := list (String.string * Modulator).

(** [Map.prototype.set]: an existing key keeps its place. *)
Fixpoint set (name : String.string) (m : Modulator) (b : t) : t :=
  match b with
  | [] => [(name, m)]
  | (k, v) :: r =>
    if String.eqb k name then (k, m) :: r else (k, v) :: set name m r
  end.

(** [Map.prototype.get] *)
Fixpoint get (name : String.string) (b : t) : option Modulator :=
  match b with
  | [] => None
  | (k, v) :: r => if String.eqb k name then Some v else get name r
  end.

Section WithSimplexNoise.

Variable noiseDraws : nat.
Variable createNoise2D : (nat -> Q) -> Q -> Q -> Q.

(** [add(name, config)] *)
Definition add (name : String.string) (cfg : ModulatorConfig) (b : t)
           (r : Random) : Modulator * t * Random :=
  let '(m, r1) := constructor noiseDraws createNoise2D cfg r in
  (m, set name m b, r1).

(** A bank as a sequence of [add] calls makes it from the empty one. *)
Fixpoint build (adds : list (String.string * ModulatorConfig)) (b : t)
         (r : Random) : t * Random :=
  match adds with
  | [] => (b, r)
  | (name, cfg) :: rest =>
    let '(_, b1, r1) := add name cfg b r in build rest b1 r1
  end.

End WithSimplexNoise.

(** [mod?.getValue(time) ?? 0] *)
Definition getValue (name : String.string) (time : Q) (b : t) : Q :=
  match get name b with
  | Some m => Modulation.getValue m time
  | None => 0%Q
  end.

(** [mod?.getNormalized(time) ?? 0.5] *)
Definition getNormalized (name : String.string) (time : Q) (b : t) : Q :=
  match get name b with
  | Some m => Modulation.getNormalized m time
  | None => 0.5%Q
  end.

End ModulationBank.

(* ===================================================================== *)
(** ** src/utils/scales.ts                                                *)
(* ===================================================================== *)

Module Scales.

(** The keys of [SCALES]. *)
Inductive ScaleName : Type :=
| minorPentatonic | majorPentatonic
| dorian | phrygian | lydian | mixolydian | aeolian | locrian
| hirajoshi | insen | iwato | wholetone | diminished
| suspended | prometheus.

Definition SCALES (n : ScaleName) : list Z :=
  match n with
  | minorPentatonic => [0; 3; 5; 7; 10]
  | majorPentatonic => [0; 2; 4; 7; 9]
  | dorian => [0; 2; 3; 5; 7; 9; 10]
  | phrygian => [0; 1; 3; 5; 7; 8; 10]
  | lydian => [0; 2; 4; 6; 7; 9; 11]
  | mixolydian => [0; 2; 4; 5; 7; 9; 10]
  | aeolian => [0; 2; 3; 5; 7; 8; 10]
  | locrian => [0; 1; 3; 5; 6; 8; 10]
  | hirajoshi => [0; 2; 3; 7; 8]
  | insen => [0; 1; 5; 7; 10]
  | iwato => [0; 1; 5; 6; 10]
  | wholetone => [0; 2; 4; 6; 8; 10]
  | diminished => [0; 2; 3; 5; 6; 8; 9; 11]
  | suspended => [0; 2; 5; 7; 9]
  | prometheus => [0; 2; 4; 6; 9; 10]
  end.

(** The values that [octave] takes in
    [for (let octave = 0; octave < octaves; octave++)]. *)
Definition octaves_below (octaves : Q) : list Z :=
  map Z.of_nat (seq 0 (Z.to_nat (Qceiling octaves))).

(** [getScaleNotes(root, scale, octaves = 2)] *)
Definition getScaleNotes (root : Z) (scale : list Z) (octaves : option Q)
  : list Z :=
  let n := match octaves with Some q => q | None => 2%Q end in
  flat_map
    (fun octave => map (fun interval => root + octave * 12 + interval) scale)
    (octaves_below n).

(** [root + scale[i]]; [None] where the source adds [undefined]. *)
Definition tone (root : Z) (scale : list Z) (i : nat) : option Z :=
  option_map (Z.add root) (nth_error scale i).

(** [root + scale[k % scale.length]] *)
Definition tone_rem (root : Z) (scale : list Z) (k : nat) : option Z :=
  match scale with
  | [] => None
  | _ => tone root scale (k mod length scale)
  end.

(** [getChordTones(root, scale)] *)
Definition getChordTones (root : Z) (scale : list Z) : list (option Z) :=
  if (length scale <=? 5)%nat
  then [tone root scale 0; tone root scale 2; tone_rem root scale 4]
  else [tone root scale 0; tone root scale 2; tone root scale 4;
        tone_rem root scale 6].

End Scales.

(* ===================================================================== *)
(** ** src/layers/arp.ts: the pattern and the handlers                    *)
(* ===================================================================== *)

Module ArpSeq.

Import Host.

(** An entry of [pattern]: [null], or a number, which is [NaN] when the
    scale has no such degree. *)
Inductive Step : Type :=
| rest
| note (offset : option Z).

(** The [templates] of [generatePattern]. *)
Definition templates : list (list (option Z)) :=
  [ [Some 0; Some 2; Some 4; Some 2; Some 0; Some 2; Some 4; None;
     Some 0; Some 2; Some 4; Some 2; Some 0; None; None; None];
    [Some 0; Some 2; Some 4; Some 2; Some 0; None; Some 4; Some 2;
     Some 0; Some 2; Some 4; None; Some 0; Some 2; None; None];
    [Some 0; None; Some 2; None; Some 4; Some 2; Some 0; None;
     Some 0; None; Some 4; None; Some 2; Some 0; None; None];
    [Some 0; Some 2; Some 0; Some 4; Some 0; Some 2; Some 0; Some 4;
     Some 0; Some 2; Some 4; Some 2; Some 0; Some 4; Some 2; Some 0];
    [Some 0; None; None; Some 2; None; None; Some 4; None;
     Some 0; None; None; Some 2; None; Some 4; None; None];
    [None; Some 0; None; Some 2; None; Some 4; None; Some 2;
     None; Some 0; None; Some 4; None; Some 2; None; Some 0];
    [Some 0; None; None; None; Some 2; None; None; None;
     Some 0; None; None; None; Some 4; None; None; None];
    [Some 0; Some 0; Some 2; Some 0; Some 0; Some 0; Some 4; Some 0;
     Some 0; Some 0; Some 2; Some 0; Some 0; Some 4; Some 0; Some 0] ].

(** [class ArpLayer] with the fields of the pattern and of the master
    filter; [density] is [preset.density]. *)
Record Sequencer : Type := mk {
  layer : Arp.ArpLayer;
  density : Q;
  pattern : list Step;
  patternLength : Z;
  phraseCount : Z;
  filterMod : Modulation.Modulator;
  frequency : list Automation;
  gain : list Automation
}.

(** [a[i]] for an index computed as a number; [None] is [undefined]. *)
Definition pick {A : Type} (a : list A) (i : Z) : option A :=
  if i <? 0 then None else nth_error a (Z.to_nat i).

(** The density pass over the template: a rest stays a rest and reads
    nothing; a note reads [Math.random()] and stays when the value is below
    the density. *)
Fixpoint thin (d : Q) (template : list (option Z)) (r : Modulation.Random)
  : list (option Z) * Modulation.Random :=
  match template with
  | [] => ([], r)
  | None :: rest_ =>
    let '(out, r1) := thin d rest_ r in (None :: out, r1)
  | Some n :: rest_ =>
    let '(u, r1) := Modulation.random r in
    let '(out, r2) := thin d rest_ r1 in
    ((if Qle_bool d u then None else Some n) :: out, r2)
  end.

(** From a template index to a scale note:
    [scale[idx % scale.length] + Math.floor(idx / scale.length) * 12]. *)
Definition to_step (scale : list Z) (idx : option Z) : Step :=
  match idx with
  | None => rest
  | Some i =>
    let len := Z.of_nat (length scale) in
    note (option_map (fun s => s + i / len * 12)
                     (pick scale (Z.rem i len)))
  end.

(** [generatePattern()]; [scale] is [engine.state.scale].  [None] stands
    for the TypeError of calling [map] on a template that is not there. *)
Definition generatePattern (scale : list Z) (S : Sequencer)
           (r : Modulation.Random) : option (Sequencer * Modulation.Random) :=
  match Arp.preset (layer S) with
  | None => Some (S, r)
  | Some _ =>
    let '(u, r1) := Modulation.random r in
    match pick templates
               (Qfloor (u * inject_Z (Z.of_nat (length templates)))) with
    | None => None
    | Some template =>
      let '(thinned, r2) := thin (density S) template r1 in
      let p := map (to_step scale) thinned in
      Some (mk (layer S) (density S) p (Z.of_nat (length p)) (phraseCount S)
               (filterMod S) (frequency S) (gain S), r2)
    end
  end.

(** [this.pattern[tick % this.patternLength]] *)
Definition step_at (S : Sequencer) (tk : Z) : option Step :=
  if patternLength S =? 0 then None
  else pick (pattern S) (Z.rem tk (patternLength S)).

(** [onTick(tick, time)]; [playNote] reads [Math.random()] once for each
    oscillator of the preset, for its detune. *)
Definition onTick (tk : Z) (tm : Q) (S : Sequencer) (w : World)
           (r : Modulation.Random) : Sequencer * World * Modulation.Random :=
  match Arp.preset (layer S) with
  | None => (S, w, r)
  | Some p =>
    if negb (Arp.isActive (layer S)) then (S, w, r)
    else
      let '(w1, r1) :=
        match step_at S tk with
        | Some rest => (w, r)
        | _ => (Arp.playNote (layer S) tm w,
                Modulation.skip (Arp.oscillators p) r)
        end in
      let filterFreq := Modulation.getValue (filterMod S) tm in
      (mk (layer S) (density S) (pattern S) (patternLength S) (phraseCount S)
          (filterMod S)
          (frequency S ++ [SetValueAtTime (Qmax 200 (Qmin 4000 filterFreq)) tm])
          (gain S), w1, r1)
  end.

(** [onPhrase(phrase, time)]; the flag tells whether the regeneration of
    the pattern was handed to [setTimeout(..., 2500)]. *)
Definition onPhrase (tm gainValue : Q) (S : Sequencer)
           (r : Modulation.Random) : Sequencer * Modulation.Random * bool :=
  match Arp.preset (layer S) with
  | None => (S, r, false)
  | Some _ =>
    if negb (Arp.isActive (layer S)) then (S, r, false)
    else
      let n := phraseCount S + 1 in
      let S1 := mk (layer S) (density S) (pattern S) (patternLength S) n
                   (filterMod S) (frequency S) (gain S) in
      if n <? 8 then (S1, r, false)
      else
        let '(u, r1) := Modulation.random r in
        if Qle_bool 0.25 u then (S1, r1, false)
        else
          (mk (layer S) (density S) (pattern S) (patternLength S) 0
              (filterMod S) (frequency S)
              (gain S ++ [SetValueAtTime gainValue tm;
                          LinearRampToValueAtTime 0.1 (tm + 2)%Q]),
           r1, true)
  end.

(** What a pass of the clock that runs at [now] makes of the arp layer
    subscribed as listener [me]; [gainValue] is what [masterGain.gain.value]
    reads during the pass. *)
Definition told (me : Clock.listener) (now gainValue : Q)
           (tr : list Clock.Call) (S : Sequencer) (w : World)
           (r : Modulation.Random) : Sequencer * World * Modulation.Random :=
  fold_left
    (fun st x =>
       let '(S0, w0, r0) := st in
       if Nat.eqb (Clock.who x) me
       then match Clock.what x with
            | Clock.tick => onTick (Clock.value x) (Clock.time x) S0 w0 r0
            | Clock.phrase =>
              let '(S1, r1, _) := onPhrase (Clock.time x) gainValue S0 r0 in
              (S1, w0, r1)
            | _ => st
            end
       else st)
    tr (S, at_wall now w, r).

End ArpSeq.

(* ===================================================================== *)
(** ** src/layers/texture.ts and src/layers/pad.ts: [onTick]              *)
(* ===================================================================== *)

Module TextureFilter.

Import Host.

(** [class TextureLayer]: the fields of [onTick]. *)
Record t : Type := mk {
  filterMod : Modulation.Modulator;
  lastFilterUpdate : Q;
  frequency : list Automation
}.

(** [onTick(tick, time)] *)
Definition onTick (tk : Z) (tm : Q) (S : t) : t :=
  if Beat.Qpos (0.1 - (tm - lastFilterUpdate S)) then S
  else
    let filterFreq := Modulation.getValue (filterMod S) tm in
    mk (filterMod S) tm
       (frequency S ++ [SetValueAtTime (Qmax 150 (Qmin 1200 filterFreq)) tm]).

(** What the calls of a clock make of the texture layer subscribed as
    listener [me]; the layer has [onTick] only. *)
Definition told (me : Clock.listener) (tr : list Clock.Call) (S : t) : t :=
  fold_left
    (fun S0 x =>
       if Nat.eqb (Clock.who x) me
       then match Clock.what x with
            | Clock.tick => onTick (Clock.value x) (Clock.time x) S0
            | _ => S0
            end
       else S0)
    tr S.

End TextureFilter.

Module TextureNoise.

(** The inner loop of [createBrownNoiseBuffer] for [n] samples of one
    channel, entered with [lastOut]. *)
Fixpoint fill (n : nat) (lastOut : Q) (r : Modulation.Random)
  : list Q * Modulation.Random :=
  match n with
  | O => ([], r)
  | S n' =>
    let '(u, r1) := Modulation.random r in
    let white := (u * 2 - 1)%Q in
    let lastOut' := ((lastOut + 0.02 * white) / 1.02)%Q in
    let '(rest, r2) := fill n' lastOut' r1 in
    ((lastOut' * 3.5)%Q :: rest, r2)
  end.

(** [createBrownNoiseBuffer()]: the data of the two channels. *)
Definition createBrownNoiseBuffer (sampleRate : nat) (r : Modulation.Random)
  : list Q * list Q * Modulation.Random :=
  let duration := 10%nat in
  let length := (sampleRate * duration)%nat in
  let '(channel0, r1) := fill length 0 r in
  let '(channel1, r2) := fill length 0 r1 in
  (channel0, channel1, r2).

End TextureNoise.

Module PadFilter.

Import Host.

(** [class PadLayer]: the fields of [onTick].  [oscillators] is the number
    of oscillators; [detune] lists the writes to their [detune] parameters,
    each with the index of its oscillator. *)
Record t : Type := mk {
  filterMod : Modulation.Modulator;
  detuneMod : Modulation.Modulator;
  lastFilterUpdate : Q;
  frequency : list Automation;
  oscillators : nat;
  detune : list (nat * Automation)
}.

Definition baseDetune (i : nat) : Q :=
  match (i mod 3)%nat with
  | O => 0
  | S O => -7
  | _ => 7
  end.

(** [onTick(tick, time)] *)
Definition onTick (tk : Z) (tm : Q) (S : t) : t :=
  if Beat.Qpos (0.1 - (tm - lastFilterUpdate S)) then S
  else
    let filterFreq := Modulation.getValue (filterMod S) tm in
    let smoothedFreq := Qmax 200 (Qmin 1200 filterFreq) in
    let detuneOffset := Modulation.getValue (detuneMod S) tm in
    mk (filterMod S) (detuneMod S) tm
       (frequency S ++ [SetTargetAtTime smoothedFreq tm 0.05])
       (oscillators S)
       (detune S ++
        map (fun i => (i, SetValueAtTime (baseDetune i + detuneOffset)%Q tm))
            (seq 0 (oscillators S))).

(** What the calls of a clock make of these fields of the pad layer
    subscribed as listener [me]; [onPhrase] leaves them alone. *)
Definition told (me : Clock.listener) (tr : list Clock.Call) (S : t) : t :=
  fold_left
    (fun S0 x =>
       if Nat.eqb (Clock.who x) me
       then match Clock.what x with
            | Clock.tick => onTick (Clock.value x) (Clock.time x) S0
            | _ => S0
            end
       else S0)
    tr S.

End PadFilter.

(* ===================================================================== *)
(** ** The layers: [stop()] and the sub-bass pulse                        *)
(* ===================================================================== *)

Module Fade.

Import Host.








(** [BeatLayer.onBeat(beat, time)]: the pulse on the sub gain. *)
Definition onBeat (L : Beat.BeatLayer) (tm : Q) : list Automation :=
  let subLevel := (Beat.subLevel (Beat.kick (Beat.kit L)) * 0.2)%Q in
  let attackTime := 0.005%Q in
  [SetValueAtTime subLevel tm;
   LinearRampToValueAtTime (subLevel * 1.3)%Q (tm + attackTime)%Q;
   LinearRampToValueAtTime subLevel (tm + 0.3)%Q].

End Fade.

(* ===================================================================== *)
(** ** src/kits.ts and the constructor of the beat layer                  *)
(* ===================================================================== *)

Module Kits.

(** [getRandomKit()]; [None] is [undefined]. *)
Definition getRandomKit (r : Modulation.Random)
  : option Beat.DrumKit * Modulation.Random :=
  let '(u, r1) := Modulation.random r in
  (ArpSeq.pick Beat.DRUM_KITS
               (Qfloor (u * inject_Z (Z.of_nat (length Beat.DRUM_KITS)))),
   r1).

Section WithSimplexNoise.

Variable noiseDraws : nat.
Variable createNoise2D : (nat -> Q) -> Q -> Q -> Q.

(** The fields of a [BeatLayer] as [constructor(engine)] leaves them;
    [sub] is the oscillator that [startSubBass] makes and starts.  [None]
    stands for the TypeError of reading [pattern] of a kit that is not
    there. *)
Definition newBeatLayer (sub : Host.ref) (r : Modulation.Random)
  : option (Beat.BeatLayer * Modulation.Random) :=
  let '(k, r1) := getRandomKit r in
  match k with
  | None => None
  | Some kit =>
    let '(m, r2) :=
      Modulation.constructor noiseDraws createNoise2D
                             (Modulation.slow 0.5 0.3) r1 in
    Some (Beat.mk kit (Beat.getPattern (Beat.pattern kit)) m (Some sub), r2)
  end.

End WithSimplexNoise.

End Kits.

(* ===================================================================== *)
(** ** The arithmetic of numbers                                          *)
(* ===================================================================== *)

Module Double.

(** Round to the nearest whole number, a tie to the even one. *)
Definition rne (x : Q) : Z :=
  let f := Qfloor x in
  match (x - inject_Z f ?= 1 # 2)%Q with
  | Lt => f
  | Gt => f + 1
  | Eq => if Z.even f then f else f + 1
  end.

(** The doubles are whole multiples of [2 ^ -1074]. *)
Definition scale : Z := 2 ^ 1074.

(** A number given in units of [2 ^ -1074], rounded to 53 bits. *)
Definition units (X : Q) : Z :=
  let n := Qfloor X in
  let ulp := if n <? 2 ^ 53 then 1 else 2 ^ (Z.log2 n - 52) in
  rne (X / inject_Z ulp) * ulp.

(** The double nearest to a number that is not negative and is below the
    overflow threshold: what [+] and [*] return for the exact sum and
    product of their operands. *)
Definition round (x : Q) : Q :=
  (inject_Z (units (x * inject_Z scale)) / inject_Z scale)%Q.

End Double.

(* ===================================================================== *)
(** ** src/index.tsx and src/ui/Player.tsx                                *)
(* ===================================================================== *)

Module Ui.

Definition MIN_TRACK_LENGTH : Q := 8 * 60.
Definition MAX_TRACK_LENGTH : Q := 15 * 60.

(** [getRandomTrackLength()]: the product and the sum are those of
    doubles ([MAX_TRACK_LENGTH - MIN_TRACK_LENGTH] is 420 exactly). *)
Definition getRandomTrackLength (r : Modulation.Random)
  : Z * Modulation.Random :=
  let '(u, r1) := Modulation.random r in
  (Qfloor
     (Double.round
        (MIN_TRACK_LENGTH
         + Double.round (u * (MAX_TRACK_LENGTH - MIN_TRACK_LENGTH)))%Q),
   r1).

(** The updater that the one-second interval of [Player] hands to
    [setElapsed]; the flag tells whether [onNext()] was called. *)
Definition advance (trackLength : Q) (e : Z) : Z * bool :=
  let newElapsed := e + 1 in
  if Qle_bool trackLength (inject_Z newElapsed) then (0, true)
  else (newElapsed, false).

(** The elapsed count after [n] seconds, and how often [onNext()] was
    called on the way. *)
Fixpoint seconds (n : nat) (trackLength : Q) (e : Z) : Z * nat :=
  match n with
  | O => (e, O)
  | S n' =>
    let '(e1, next) := advance trackLength e in
    let '(e2, k) := seconds n' trackLength e1 in
    (e2, ((if next then 1 else 0) + k)%nat)
  end.

(** A cell of the progress bar. *)
Inductive Cell : Type := Filled | Blank.

(** [String.prototype.repeat]: a negative count is a RangeError. *)
Definition repeat_cell (c : Cell) (count : Z) : option (list Cell) :=
  if count <? 0 then None else Some (repeat c (Z.to_nat count)).

Definition barWidth : Z := 38.

Definition filledWidth (trackLength : Q) (elapsed : Z) : Z :=
  let progress := Qmin 1 (inject_Z elapsed / trackLength) in
  Qfloor (progress * inject_Z barWidth).

(** [progressBar]; [None] stands for the RangeError of [repeat]. *)
Definition progressBar (trackLength : Q) (elapsed : Z) : option (list Cell) :=
  match repeat_cell Filled (filledWidth trackLength elapsed),
        repeat_cell Blank (barWidth - filledWidth trackLength elapsed) with
  | Some a, Some b => Some (a ++ b)
  | _, _ => None
  end.

Definition remaining (trackLength : Q) (elapsed : Z) : Q :=
  Qmax 0 (trackLength - inject_Z elapsed).

End Ui.

(* ===================================================================== *)
(** ** Concrete listeners, clocks and layers used in the examples         *)
(* ===================================================================== *)

(** A stand-in for the noise package: the first value it is given, bent
    by the coordinates, kept in [-1, 1]. *)
Definition toyNoise (d : nat -> Q) (x y : Q) : Q :=
  Qmax (-1) (Qmin 1 (d O * (x - y))).

(** Listeners that have all four methods and leave the clock alone. *)
Definition quiet (l : Clock.listener) : Clock.ClockListener :=
  Clock.mkListener (Some (fun _ _ => [])) (Some (fun _ _ => []))
                   (Some (fun _ _ => [])) (Some (fun _ _ => [])).



(** A clock at the given tempo with listeners 0, 1, 2 subscribed in this
    order. *)
Definition trio (bpm0 : Q) : Clock.t :=
  Clock.subscribe 2%nat
    (Clock.subscribe 1%nat (Clock.subscribe 0%nat (Clock.new bpm0))).

(** A clock at the given tempo with listener 0 subscribed. *)
Definition solo (bpm0 : Q) : Clock.t :=
  Clock.subscribe 0%nat (Clock.new bpm0).

(** A beat layer with the Techno kit and the given ghost modulator. *)
Definition technoLayer (m : Modulation.Modulator) : Beat.BeatLayer :=
  Beat.mk Beat.techno (Beat.getPattern (Beat.pattern Beat.techno)) m None.

(** A world in which nothing has been made yet. *)
Definition silence : Host.World :=
  Host.mkWorld 0 Diagnostics.initial [] [].

(** A pad layer on C3 minor pentatonic with two oscillators, one of them
    never started. *)
Definition padWorld (root0 : Z) : Pad.World :=
  Pad.mkWorld
    [Host.mkSource Host.Playing true; Host.mkSource Host.Unstarted true]
    (Pad.mkState root0 [0; 3; 5; 7; 10])
    (Pad.mk [0%nat; 1%nat] [] 0 [])
    30.

(** A stand-in for [engine.noteToFreq]. *)
Definition semitones (note : Z) : Q := inject_Z note.

(** The Warm Pad preset of [SYNTH_PRESETS], an arp layer that plays it
    with the modulators that the constructor gives it, and its sequencer
    before the first pattern. *)
Definition warmPad : Arp.SynthPreset :=
  Arp.mkPreset 3 0.08 0.2 0.6 0.4 1.2 (0.15%Q, 0.25%Q).

Definition warmPadLayer (bpm0 : Q) : Arp.ArpLayer :=
  Arp.mk (Some warmPad) true
         (Modulation.mkModulator (toyNoise (fun _ => 0.25%Q))
                                 (Modulation.medium 0.2 0.05) 0)
         bpm0.

Definition warmPadSequencer (bpm0 : Q) : ArpSeq.Sequencer :=
  ArpSeq.mk (warmPadLayer bpm0) 0.7 [] 16 0
            (Modulation.mkModulator (toyNoise (fun _ => 0.25%Q))
                                    (Modulation.slow 750 300) 0)
            [] [].


(** A ghost modulator as the constructor of the beat layer configures
    it. *)
Definition ghostModulator : Modulation.Modulator :=
  Modulation.mkModulator (toyNoise (fun _ => 0.25%Q))
                         (Modulation.slow 0.5 0.3) 0.

(** A call of the tracker with a count that is not negative. *)
Definition counted (c : Diagnostics.Call) : Prop :=
  match c with
  | Diagnostics.Create n => 0 <= Diagnostics.count_arg n
  | Diagnostics.Cleanup n => 0 <= Diagnostics.count_arg n
  end.

(** What a sequence of calls leaves registered. *)
Definition balance (cs : list Diagnostics.Call) : Z :=
  Diagnostics.total_created cs - Diagnostics.total_cleaned cs.

(** Successive [onPhrase] calls of the pad layer, each with its time and
    with what [masterGain.gain.value] reads then; for each call, the
    interval of the chord change it schedules, if any. *)
Fixpoint padPhrases (calls : list (Q * Q)) (L : Pad.PadLayer)
         (r : Modulation.Random)
  : Pad.PadLayer * Modulation.Random * list (option Z) :=
  match calls with
  | [] => (L, r, [])
  | (tm, gainValue) :: rest =>
    let '(L1, r1, out) := Pad.onPhrase tm gainValue L r in
    let '(L2, r2, outs) := padPhrases rest L1 r1 in
    (L2, r2, out :: outs)
  end.

(** The same for the arp layer; for each call, whether it schedules a new
    pattern. *)
Fixpoint arpPhrases (calls : list (Q * Q)) (sq : ArpSeq.Sequencer)
         (r : Modulation.Random)
  : ArpSeq.Sequencer * Modulation.Random * list bool :=
  match calls with
  | [] => (sq, r, [])
  | (tm, gainValue) :: rest =>
    let '(sq1, r1, out) := ArpSeq.onPhrase tm gainValue sq r in
    let '(sq2, r2, outs) := arpPhrases rest sq1 r1 in
    (sq2, r2, out :: outs)
  end.

Definition scheduled (o : option Z) : bool :=
  match o with
  | Some _ => true
  | None => false
  end.

(** Outcomes in which a [true] comes only after [need] further calls, and
    after a [true] only after [gap] calls. *)
Fixpoint apart (gap need : nat) (outs : list bool) : Prop :=
  match outs with
  | [] => True
  | false :: rest => apart gap (pred need) rest
  | true :: rest => need = O /\ apart gap gap rest
  end.

(** Samples of which each is within [d] of the one before, the first
    within [d] of [prev]. *)
Fixpoint steps_within (d prev : Q) (samples : list Q) : Prop :=
  match samples with
  | [] => True
  | a :: rest => (- d <= a - prev <= d)%Q /\ steps_within d a rest
  end.

(** The time at which a ramp ends. *)
Definition fade_end (ramp : list Host.Automation) : Q :=
  Host.scheduled_for (last ramp (Host.SetValueAtTime 0 0)).

(** The calls of a trace that are [onTick] of one listener. *)
Definition tick_calls (l : Clock.listener) (tr : list Clock.Call)
  : list Clock.Call :=
  filter (fun x => Nat.eqb (Clock.who x) l &&
                   match Clock.what x with
                   | Clock.tick => true
                   | _ => false
                   end) tr.

(** Listeners whose callbacks leave the clock alone, as the four layers
    do. *)
Definition passive (impl : Clock.listener -> Clock.ClockListener) : Prop :=
  forall l e h v tm, Clock.handler (impl l) e = Some h -> h v tm = [].

(** The position that [getPosition()] reports is that of one tick. *)
Definition position_of (tk : Z) : Z * Z * Z * Z :=
  (tk, tk / 4, tk / 4 / 4, tk / 4 / 4 / 4).

(** Times that strictly increase. *)
Fixpoint increasing (ts : list Q) : Prop :=
  match ts with
  | [] => True
  | a :: r =>
    match r with
    | [] => True
    | b :: _ => (a < b)%Q
    end /\ increasing r
  end.

(** Times of which each is at least [gap] after the one before, the first
    at least [gap] after [prev]. *)
Fixpoint spaced (gap prev : Q) (ts : list Q) : Prop :=
  match ts with
  | [] => True
  | a :: r => (prev + gap <= a)%Q /\ spaced gap a r
  end.


(** The [create] calls that register a list of units, in order. *)
Definition registrations (us : list Host.Transient) : list Diagnostics.Call :=
  map (fun u => Diagnostics.Create (Some (Host.nodes u))) us.

(** The nodes that a list of units takes. *)
Definition node_total (us : list Host.Transient) : Z :=
  fold_right (fun u a => Host.nodes u + a) 0 us.

Definition is_kick (u : Host.Transient) : bool :=
  match Host.kind u with
  | Host.Kick => true
  | _ => false
  end.

(** A unit whose envelope opens at the start of its source with the gain
    at 0, moves forward in time, and is closed before the source stops. *)
Definition well_formed (u : Host.Transient) : Prop :=
  (exists rest,
     Host.envelope u = Host.SetValueAtTime 0 (Host.sourceStart u) :: rest) /\
  increasing (map Host.scheduled_for (Host.envelope u)) /\
  (Host.audibleEnd u < Host.sourceStop u)%Q.

(* ===================================================================== *)
(** * Properties                                                          *)
(* ===================================================================== *)

(* --------------------------------------------------------------------- *)
(** ** The tracker                                                        *)
(* --------------------------------------------------------------------- *)

Section TrackerFacts.

Import Diagnostics.

Lemma total_created_app (a b : list Call) :
  total_created (a ++ b) = total_created a + total_created b.
Proof.
  induction a as [| [n | n] a IH]; simpl; rewrite ?IH; lia.
Qed.

Lemma total_cleaned_app (a b : list Call) :
  total_cleaned (a ++ b) = total_cleaned a + total_cleaned b.
Proof.
  induction a as [| [n | n] a IH]; simpl; rewrite ?IH; lia.
Qed.

(** Below 2^53 a whole number is its own double. *)
Lemma toDouble_safe (z : Z) : Z.abs z < 2 ^ 53 -> toDouble z = z.
Proof.
  intros H. unfold toDouble. apply Z.ltb_lt in H. rewrite H. reflexivity.
Qed.

Lemma weight_nonneg (cs : list Call) : 0 <= weight cs.
Proof.
  induction cs as [| [n | n] cs IH]; simpl; lia.
Qed.

Lemma weight_firstn (cs : list Call) : forall k,
  weight (firstn k cs) <= weight cs.
Proof.
  induction cs as [| c cs IH]; intros k.
  - destruct k; simpl; lia.
  - destruct k as [| k].
    + pose proof (weight_nonneg (c :: cs)). simpl firstn. simpl weight at 1.
      lia.
    + specialize (IH k). destruct c; simpl in *; lia.
Qed.

Lemma totals_within_weight (cs : list Call) :
  Z.abs (total_created cs) + Z.abs (total_cleaned cs) <= weight cs.
Proof.
  induction cs as [| [n | n] cs IH]; simpl; lia.
Qed.

(** While the sums stay safe, each counter is its starting value plus what
    the calls handed in. *)
Lemma run_totals (cs : list Call) : forall nc,
  Z.abs (created nc) + Z.abs (cleaned nc) + weight cs < 2 ^ 53 ->
  created (run cs nc) = created nc + total_created cs /\
  cleaned (run cs nc) = cleaned nc + total_cleaned cs.
Proof.
  unfold run.
  induction cs as [| [n | n] cs IH]; intros nc H; simpl in *.
  - lia.
  - assert (E : plus (created nc) (count_arg n) = created nc + count_arg n)
      by (apply toDouble_safe; pose proof (weight_nonneg cs); lia).
    destruct (IH (create n nc)) as [H1 H2].
    { unfold create. simpl. rewrite E. lia. }
    rewrite H1, H2. unfold create. simpl. rewrite E. lia.
  - assert (E : plus (cleaned nc) (count_arg n) = cleaned nc + count_arg n)
      by (apply toDouble_safe; pose proof (weight_nonneg cs); lia).
    destruct (IH (cleanup n nc)) as [H1 H2].
    { unfold cleanup. simpl. rewrite E. lia. }
    rewrite H1, H2. unfold cleanup. simpl. rewrite E. lia.
Qed.

(** On a fresh tracker, while the sums stay safe. *)
Lemma run_initial (cs : list Call) :
  weight cs < 2 ^ 53 ->
  created (run cs initial) = total_created cs /\
  cleaned (run cs initial) = total_cleaned cs /\
  getActive (run cs initial) = total_created cs - total_cleaned cs.
Proof.
  intros H.
  destruct (run_totals cs initial) as [H1 H2]; [simpl; lia |].
  simpl in H1, H2. unfold getActive. rewrite H1, H2.
  repeat split. apply toDouble_safe.
  pose proof (totals_within_weight cs). lia.
Qed.

Lemma Matched_totals (cs : list Call) :
  Matched cs -> total_created cs = total_cleaned cs.
Proof.
  induction 1 as [| n a b c _ IH]; [reflexivity |].
  rewrite !total_created_app, !total_cleaned_app in IH.
  rewrite total_created_app, total_cleaned_app. simpl.
  rewrite total_created_app, total_cleaned_app. simpl. lia.
Qed.

End TrackerFacts.

(** C7, against the claim as it was stated: counts beyond the safe
    integers, a [create] of 2^53 nodes, two of one node each, and the
    three cleanups with the same counts.  Every create is matched, yet the
    two creates of one node are lost in the rounding of the sum, and
    [getActive()] ends at -2. *)
Lemma large_counts_leave_active_negative :
  let cs := [Diagnostics.Create (Some (2 ^ 53));
             Diagnostics.Create (Some 1); Diagnostics.Create (Some 1);
             Diagnostics.Cleanup (Some 1); Diagnostics.Cleanup (Some 1);
             Diagnostics.Cleanup (Some (2 ^ 53))] in
  Diagnostics.Matched cs /\
  Diagnostics.created (Diagnostics.run cs Diagnostics.initial) = 2 ^ 53 /\
  Diagnostics.cleaned (Diagnostics.run cs Diagnostics.initial) = 2 ^ 53 + 2 /\
  Diagnostics.getActive (Diagnostics.run cs Diagnostics.initial) = -2 /\
  Diagnostics.getActive (Diagnostics.run cs Diagnostics.initial) <> 0.
Proof.
  intros cs. split.
  - apply (Diagnostics.Matched_pair (Some (2 ^ 53)) []
             [Diagnostics.Create (Some 1); Diagnostics.Create (Some 1);
              Diagnostics.Cleanup (Some 1); Diagnostics.Cleanup (Some 1)] []).
    apply (Diagnostics.Matched_pair (Some 1) []
             [Diagnostics.Create (Some 1); Diagnostics.Cleanup (Some 1)] []).
    apply (Diagnostics.Matched_pair (Some 1) [] [] []).
    apply Diagnostics.Matched_nil.
  - repeat split; try (vm_compute; reflexivity).
    vm_compute. discriminate.
Qed.

(** C7, as amended.  After any calls of [create] and [cleanup] on a fresh
    tracker whose counts are whole numbers that, taken by magnitude, add up
    to less than 2^53 (so that every sum is exact), [getStats()] reports
    the totals handed to [create] and to [cleanup] and their difference as
    [active], at every point of the sequence; and when every [create] is
    matched by one later [cleanup] of the same count, [getActive()] is 0
    at the end.  Whatever the counts, [active] of [getStats()] is the
    difference of the two counters as the tracker holds them. *)
Theorem tracker_balance :
  (forall (cs : list Diagnostics.Call) (k : nat),
     Diagnostics.weight cs < 2 ^ 53 ->
     let st := Diagnostics.getStats
                 (Diagnostics.run (firstn k cs) Diagnostics.initial) in
     Diagnostics.stats_created st = Diagnostics.total_created (firstn k cs) /\
     Diagnostics.stats_cleaned st = Diagnostics.total_cleaned (firstn k cs) /\
     Diagnostics.stats_active st =
       Diagnostics.total_created (firstn k cs) -
       Diagnostics.total_cleaned (firstn k cs)) /\
  (forall cs : list Diagnostics.Call,
     Diagnostics.weight cs < 2 ^ 53 ->
     Diagnostics.Matched cs ->
     Diagnostics.getActive (Diagnostics.run cs Diagnostics.initial) = 0) /\
  (forall nc : Diagnostics.NodeCounter,
     Diagnostics.stats_active (Diagnostics.getStats nc)
     = Diagnostics.minus (Diagnostics.stats_created (Diagnostics.getStats nc))
                         (Diagnostics.stats_cleaned (Diagnostics.getStats nc))
     /\
     Diagnostics.stats_active (Diagnostics.getStats nc)
     = Diagnostics.getActive nc).
Proof.
  split; [| split].
  - intros cs k Hs st. subst st.
    assert (Hk : Diagnostics.weight (firstn k cs) < 2 ^ 53)
      by (pose proof (weight_firstn cs k); lia).
    destruct (run_initial (firstn k cs) Hk) as [H1 [H2 H3]].
    unfold Diagnostics.getStats. simpl.
    unfold Diagnostics.getActive in H3. rewrite H3, H1, H2.
    repeat split.
  - intros cs Hs HM.
    destruct (run_initial cs Hs) as [_ [_ H3]].
    rewrite H3, (Matched_totals cs HM). lia.
  - intros nc. split; reflexivity.
Qed.

(** A kick with its click: create 2, create 2, then the two cleanups in
    the order their timers fire. *)
Lemma tracker_balance_witness :
  Diagnostics.Matched
    [Diagnostics.Create (Some 2); Diagnostics.Create (Some 2);
     Diagnostics.Cleanup (Some 2); Diagnostics.Cleanup (Some 2)] /\
  Diagnostics.getActive
    (Diagnostics.run
       [Diagnostics.Create (Some 2); Diagnostics.Create (Some 2);
        Diagnostics.Cleanup (Some 2); Diagnostics.Cleanup (Some 2)]
       Diagnostics.initial) = 0.
Proof.
  assert (HM : Diagnostics.Matched
    [Diagnostics.Create (Some 2); Diagnostics.Create (Some 2);
     Diagnostics.Cleanup (Some 2); Diagnostics.Cleanup (Some 2)]).
  { apply (Diagnostics.Matched_pair (Some 2) []
             [Diagnostics.Create (Some 2); Diagnostics.Cleanup (Some 2)] []).
    apply (Diagnostics.Matched_pair (Some 2) [] [] []).
    apply Diagnostics.Matched_nil. }
  split; [exact HM |].
  apply (proj1 (proj2 tracker_balance)
           [Diagnostics.Create (Some 2); Diagnostics.Create (Some 2);
            Diagnostics.Cleanup (Some 2); Diagnostics.Cleanup (Some 2)]).
  - reflexivity.
  - exact HM.
Defined.

(* --------------------------------------------------------------------- *)
(** ** The modulator                                                      *)
(* --------------------------------------------------------------------- *)

Section ModulatorFacts.

Import Modulation.
Local Open Scope Q_scope.


(** Reading a value changes nothing. *)
Lemma reads_leave (cs : list Method) : forall m,
  forallb reads_only cs = true -> calls cs m = m.
Proof.
  unfold calls.
  induction cs as [| c cs IH]; intros m H; simpl in *; [reflexivity |].
  apply andb_prop in H. destruct H as [Hc Hcs].
  destruct c; simpl in Hc; try discriminate; simpl; apply IH; exact Hcs.
Qed.



End ModulatorFacts.

(** C5, as amended.  [getValue] reads the modulator and nothing else: a
    call returns its value and leaves the object as it was, so any number
    of reads in between does not change what [getValue(t)] returns; and two
    modulators constructed from the same configuration with a seed
    supplied, whose random offsets came out the same, return the same
    [getValue(t)] for every [t], whatever else [Math.random] returned. *)
Theorem getValue_deterministic :
  forall (noiseDraws : nat) (createNoise2D : (nat -> Q) -> Q -> Q -> Q),
  (forall (m : Modulation.Modulator) (t : Q) (cs : list Modulation.Method),
     Modulation.call (Modulation.GetValue t) m
       = (Some (Modulation.getValue m t), m) /\
     (forallb Modulation.reads_only cs = true ->
      Modulation.getValue (Modulation.calls cs m) t
        = Modulation.getValue m t)) /\
  (forall (cfg : Modulation.ModulatorConfig) (s : Q)
          (r1 r2 : Modulation.Random),
     Modulation.seed cfg = Some s ->
     let m1 := fst (Modulation.constructor noiseDraws createNoise2D cfg r1) in
     let m2 := fst (Modulation.constructor noiseDraws createNoise2D cfg r2) in
     Modulation.offset m1 = Modulation.offset m2 ->
     forall t : Q, Modulation.getValue m1 t = Modulation.getValue m2 t).
Proof.
  intros noiseDraws createNoise2D. split.
  - intros m t cs. split; [reflexivity |].
    intros H. rewrite (reads_leave cs m H). reflexivity.
  - intros cfg s r1 r2 Hs m1 m2 Hoff t. subst m1 m2.
    unfold Modulation.constructor in *. rewrite Hs in *. simpl in *.
    unfold Modulation.getValue. simpl. rewrite Hoff. reflexivity.
Qed.

Lemma getValue_deterministic_witness :
  let cfg := Modulation.mkConfig 700 350 0.05 (Some 0.25%Q) in
  let r1 := Modulation.mkRandom (fun _ => 0.5%Q) 0 in
  let r2 := Modulation.mkRandom (fun i => if Nat.eqb i 3 then 0.5%Q else 0.125%Q)
                                3 in
  Modulation.seed cfg = Some 0.25%Q /\
  Modulation.getValue
    (fst (Modulation.constructor 255 toyNoise cfg r1)) 12
  = Modulation.getValue
      (fst (Modulation.constructor 255 toyNoise cfg r2)) 12.
Proof.
  split; [reflexivity |].
  apply (proj2 (getValue_deterministic 255 toyNoise)
           (Modulation.mkConfig 700 350 0.05 (Some 0.25%Q)) 0.25%Q%Q
           (Modulation.mkRandom (fun _ => 0.5%Q) 0)
           (Modulation.mkRandom
              (fun i => if Nat.eqb i 3 then 0.5%Q else 0.125%Q) 3));
    reflexivity.
Defined.

(** C5, against the claim as it was stated: with no seed in the
    configuration the noise function is built from [Math.random], and two
    modulators with the same configuration and the same offset differ as
    soon as the noise package makes use of what it draws. *)
Lemma unseeded_modulators_differ :
  ~ (forall (noiseDraws : nat) (createNoise2D : (nat -> Q) -> Q -> Q -> Q)
            (cfg : Modulation.ModulatorConfig) (r1 r2 : Modulation.Random),
       let m1 :=
         fst (Modulation.constructor noiseDraws createNoise2D cfg r1) in
       let m2 :=
         fst (Modulation.constructor noiseDraws createNoise2D cfg r2) in
       Modulation.offset m1 = Modulation.offset m2 ->
       forall t : Q, Modulation.getValue m1 t = Modulation.getValue m2 t).
Proof.
  intros H.
  specialize (H 1%nat toyNoise (Modulation.slow 700 350)
                (Modulation.mkRandom
                   (fun i => if Nat.eqb i 0 then 0.25%Q else 0.001%Q) 0)
                (Modulation.mkRandom
                   (fun i => if Nat.eqb i 0 then 0.75%Q else 0.001%Q) 0)
                eq_refl 40%Q).
  vm_compute in H. discriminate H.
Qed.




(* --------------------------------------------------------------------- *)
(** ** The clock: what a pass announces                                   *)
(* --------------------------------------------------------------------- *)

Section ClockFacts.

Import Clock.

Variable impl : listener -> ClockListener.

(** Callbacks reach the listener array and the tempo, nothing else. *)
Lemma apply_ops_frame (os : list Op) : forall c,
  frame (apply_ops os c) = frame c.
Proof.
  unfold apply_ops.
  induction os as [| o os IH]; intros c; simpl; [reflexivity |].
  rewrite IH.
  destruct o; simpl; unfold subscribe, unsubscribe; simpl;
    try destruct (indexOf l (listeners c)); reflexivity.
Qed.

Lemma invoke_frame l e v tm c :
  frame (fst (invoke impl l e v tm c)) = frame c.
Proof.
  unfold invoke. destruct (handler (impl l) e); simpl; [| reflexivity].
  apply apply_ops_frame.
Qed.

Lemma maybe_invoke_frame (b : bool) l e v tm c :
  frame (if b then fst (invoke impl l e v tm c) else c) = frame c.
Proof.
  destruct b; [apply invoke_frame | reflexivity].
Qed.

Lemma invoke_trace l e v tm c :
  snd (invoke impl l e v tm c) =
  if has_handler (impl l) e then [mkCall l e v tm] else [].
Proof.
  unfold invoke, has_handler. destruct (handler (impl l) e); reflexivity.
Qed.

(** The body of the [forEach] callback, as three optional calls after the
    first. *)
Lemma serve_unfold tk tm l c :
  serve impl tk tm l c =
  let c1 := fst (invoke impl l tick tk tm c) in
  let c2 := if boundary beat tk
            then fst (invoke impl l beat (counter beat tk) tm c1) else c1 in
  let c3 := if boundary bar tk
            then fst (invoke impl l bar (counter bar tk) tm c2) else c2 in
  let c4 := if boundary phrase tk
            then fst (invoke impl l phrase (counter phrase tk) tm c3)
            else c3 in
  (c4, block impl l tk tm).
Proof.
  unfold serve, block, nest, boundary, counter, ticksPerBeat, beatsPerBar,
    barsPerPhrase.
  destruct (invoke impl l tick tk tm c) as [c1 t1] eqn:E1.
  pose proof (invoke_trace l tick tk tm c) as T1. rewrite E1 in T1.
  simpl in T1. subst t1. simpl fst.
  destruct (Z.rem tk 4 =? 0); simpl andb.
  - destruct (invoke impl l beat (tk / 4) tm c1) as [c2 t2] eqn:E2.
    pose proof (invoke_trace l beat (tk / 4) tm c1) as T2. rewrite E2 in T2.
    simpl in T2. subst t2. simpl fst.
    destruct (Z.rem (tk / 4) 4 =? 0); simpl andb.
    + destruct (invoke impl l bar (tk / 4 / 4) tm c2) as [c3 t3] eqn:E3.
      pose proof (invoke_trace l bar (tk / 4 / 4) tm c2) as T3.
      rewrite E3 in T3. simpl in T3. subst t3. simpl fst.
      destruct (Z.rem (tk / 4 / 4) 4 =? 0); simpl andb.
      * destruct (invoke impl l phrase (tk / 4 / 4 / 4) tm c3)
          as [c4 t4] eqn:E4.
        pose proof (invoke_trace l phrase (tk / 4 / 4 / 4) tm c3) as T4.
        rewrite E4 in T4. simpl in T4. subst t4. simpl.
        destruct (has_handler (impl l) tick), (has_handler (impl l) beat),
          (has_handler (impl l) bar), (has_handler (impl l) phrase);
          reflexivity.
      * simpl.
        destruct (has_handler (impl l) tick), (has_handler (impl l) beat),
          (has_handler (impl l) bar); reflexivity.
    + simpl.
      destruct (has_handler (impl l) tick), (has_handler (impl l) beat);
        reflexivity.
  - simpl. destruct (has_handler (impl l) tick); reflexivity.
Qed.

Lemma serve_trace tk tm l c : snd (serve impl tk tm l c) = block impl l tk tm.
Proof. rewrite serve_unfold. reflexivity. Qed.

Lemma serve_frame tk tm l c : frame (fst (serve impl tk tm l c)) = frame c.
Proof.
  rewrite serve_unfold. cbv zeta. simpl fst.
  rewrite !maybe_invoke_frame. apply invoke_frame.
Qed.

Lemma forEach_from_spec (n : nat) : forall k tk tm c,
  exists vs,
    snd (forEach_from impl n k tk tm c)
      = flat_map (fun l => block impl l tk tm) vs /\
    frame (fst (forEach_from impl n k tk tm c)) = frame c.
Proof.
  induction n as [| n IH]; intros k tk tm c; simpl.
  - exists []. simpl. tauto.
  - destruct (nth_error (listeners c) k) as [l |].
    + pose proof (serve_trace tk tm l c) as T.
      pose proof (serve_frame tk tm l c) as F.
      destruct (serve impl tk tm l c) as [c1 t1]. simpl in T, F. subst t1.
      destruct (IH (S k) tk tm c1) as [vs [H1 H2]].
      destruct (forEach_from impl n (S k) tk tm c1) as [c2 t2].
      simpl in *. exists (l :: vs). simpl. rewrite H1.
      split; [reflexivity | congruence].
    + apply IH.
Qed.

Lemma fire_spec tickTime tk c :
  exists vs,
    snd (fire impl tickTime tk c)
      = flat_map
          (fun l => block impl l tk (ideal (startTime c) tickTime tk)) vs /\
    frame (fst (fire impl tickTime tk c)) = frame c.
Proof.
  unfold fire, forEach, ideal.
  destruct (forEach_from_spec (length (listeners c)) 0 tk
              (startTime c + inject_Z tk * tickTime)%Q c) as [vs H].
  destruct (forEach_from impl (length (listeners c)) 0 tk
              (startTime c + inject_Z tk * tickTime)%Q c) as [c1 tr].
  simpl in *. exists vs. exact H.
Qed.

Lemma fire_from_spec (n : nat) : forall tickTime tk c,
  exists visits,
    length visits = n /\
    snd (fire_from impl n tickTime tk c)
      = pass_trace impl (startTime c) tickTime tk visits /\
    frame (fst (fire_from impl n tickTime tk c)) = frame c.
Proof.
  induction n as [| n IH]; intros tickTime tk c; simpl.
  - exists []. simpl. tauto.
  - destruct (fire_spec tickTime tk c) as [vs [H1 H2]].
    destruct (fire impl tickTime tk c) as [c1 t1]. simpl in *.
    destruct (IH tickTime (tk + 1) c1) as [visits [L [G1 G2]]].
    destruct (fire_from impl n tickTime (tk + 1) c1) as [c2 t2]. simpl in *.
    exists (vs :: visits). simpl. rewrite H1, G1.
    assert (E : startTime c1 = startTime c)
      by (unfold frame in H2; congruence).
    rewrite E. repeat split; congruence.
Qed.

(** A pass announces the ticks after the last one announced, up to the
    target, one after the other, each with its ideal time at the tempo the
    pass began with. *)
Lemma schedule_spec now c :
  exists visits,
    length visits = Z.to_nat (targetTick now c - lastScheduledTick c) /\
    snd (schedule impl now c)
      = pass_trace impl (startTime c) (tickDuration c)
                   (lastScheduledTick c + 1) visits /\
    startTime (fst (schedule impl now c)) = startTime c /\
    lastScheduledTick (fst (schedule impl now c)) = targetTick now c /\
    intervalId (fst (schedule impl now c)) = intervalId c.
Proof.
  unfold schedule.
  destruct (fire_from_spec (Z.to_nat (targetTick now c - lastScheduledTick c))
              (tickDuration c) (lastScheduledTick c + 1) c)
    as [visits [L [H1 H2]]].
  destruct (fire_from impl (Z.to_nat (targetTick now c - lastScheduledTick c))
              (tickDuration c) (lastScheduledTick c + 1) c) as [c1 tr].
  simpl in *. exists visits. unfold frame in H2.
  repeat split; congruence.
Qed.

(** Every call of a pass trace belongs to one of its ticks and carries
    that tick's ideal time and the counter of its kind. *)
Lemma pass_trace_calls t0 tickTime (visits : list (list listener)) :
  forall tk x,
  In x (pass_trace impl t0 tickTime tk visits) ->
  exists k,
    tk <= k < tk + Z.of_nat (length visits) /\
    time x = ideal t0 tickTime k /\
    value x = counter (what x) k /\
    boundary (what x) k = true /\
    has_handler (impl (who x)) (what x) = true.
Proof.
  induction visits as [| vs r IH]; intros tk x Hin; simpl in Hin.
  - contradiction.
  - apply in_app_or in Hin. destruct Hin as [Hin | Hin].
    + apply in_flat_map in Hin. destruct Hin as [l [_ Hin]].
      unfold block in Hin. apply in_map_iff in Hin.
      destruct Hin as [e [Hx He]]. apply filter_In in He.
      destruct He as [_ He]. apply andb_prop in He. destruct He as [Hb Hh].
      subst x. simpl. exists tk. simpl length.
      repeat split; try assumption; lia.
    + destruct (IH (tk + 1) x Hin) as [k [Hk H]].
      exists k. simpl length. split; [lia | exact H].
Qed.

End ClockFacts.

(* --------------------------------------------------------------------- *)
(** ** The clock: whom a pass serves                                      *)
(* --------------------------------------------------------------------- *)

Section PassivePassFacts.

Import Clock.

Variable impl : listener -> ClockListener.
Hypothesis Hpassive : passive impl.

Lemma invoke_passive l e v tm c : fst (invoke impl l e v tm c) = c.
Proof.
  unfold invoke. destruct (handler (impl l) e) as [h |] eqn:E; simpl;
    [| reflexivity].
  rewrite (Hpassive l e h v tm E). reflexivity.
Qed.

Lemma serve_passive tk tm l c :
  serve impl tk tm l c = (c, block impl l tk tm).
Proof.
  rewrite serve_unfold. cbv zeta.
  assert (M : forall (b : bool) e v c0,
             (if b then fst (invoke impl l e v tm c0) else c0) = c0)
    by (intros b e v c0; destruct b; [apply invoke_passive | reflexivity]).
  rewrite !M, invoke_passive. reflexivity.
Qed.

Lemma forEach_from_passive (n : nat) : forall k tk tm c,
  (k + n = length (listeners c))%nat ->
  forEach_from impl n k tk tm c
  = (c, flat_map (fun l => block impl l tk tm) (skipn k (listeners c))).
Proof.
  induction n as [| n IH]; intros k tk tm c H; simpl.
  - rewrite skipn_all2 by lia. reflexivity.
  - destruct (nth_error (listeners c) k) as [l |] eqn:E.
    + rewrite serve_passive, IH by lia.
      f_equal.
      assert (S : skipn k (listeners c) = l :: skipn (S k) (listeners c)).
      { clear -E. revert k E. induction (listeners c) as [| y ls IHl];
          intros k E; destruct k; simpl in *; try discriminate.
        - injection E as ->. reflexivity.
        - apply IHl. exact E. }
      rewrite S. reflexivity.
    + apply nth_error_None in E. lia.
Qed.

Lemma fire_passive tickTime tk c :
  fire impl tickTime tk c
  = (mk (bpm c) tk (tk / 4) (tk / 4 / 4) (tk / 4 / 4 / 4) (listeners c)
        (intervalId c) (startTime c) (lastScheduledTick c),
     flat_map (fun l => block impl l tk (ideal (startTime c) tickTime tk))
              (listeners c)).
Proof.
  unfold fire, forEach. rewrite forEach_from_passive by reflexivity.
  reflexivity.
Qed.

Lemma fire_from_passive (n : nat) : forall tickTime tk c,
  snd (fire_from impl n tickTime tk c)
  = pass_trace impl (startTime c) tickTime tk (repeat (listeners c) n) /\
  listeners (fst (fire_from impl n tickTime tk c)) = listeners c /\
  bpm (fst (fire_from impl n tickTime tk c)) = bpm c.
Proof.
  induction n as [| n IH]; intros tickTime tk c; simpl.
  - repeat split.
  - rewrite fire_passive.
    match goal with
    | |- context [fire_from impl n tickTime (tk + 1) ?c'] =>
      destruct (IH tickTime (tk + 1) c') as [T [L B]];
      destruct (fire_from impl n tickTime (tk + 1) c') as [c2 t2]
    end.
    simpl in *. rewrite T. repeat split; assumption.
Qed.

(** A pass over passive listeners: each tick goes to the listeners in the
    order of the array, and the array and the tempo stay as they are. *)
Lemma schedule_passive now c :
  snd (schedule impl now c)
  = pass_trace impl (startTime c) (tickDuration c)
               (lastScheduledTick c + 1)
               (repeat (listeners c)
                  (Z.to_nat (targetTick now c - lastScheduledTick c))) /\
  listeners (fst (schedule impl now c)) = listeners c /\
  bpm (fst (schedule impl now c)) = bpm c.
Proof.
  unfold schedule.
  destruct (fire_from_passive
              (Z.to_nat (targetTick now c - lastScheduledTick c))
              (tickDuration c) (lastScheduledTick c + 1) c) as [T [L B]].
  destruct (fire_from impl _ (tickDuration c) (lastScheduledTick c + 1) c)
    as [c1 tr].
  simpl in *. repeat split; assumption.
Qed.

End PassivePassFacts.

Lemma quiet_passive : passive quiet.
Proof.
  intros l e h v tm E. destruct e; simpl in E; injection E as <-; reflexivity.
Qed.

Section FirstListenerFacts.

Import Clock.

Variable impl : listener -> ClockListener.

(** [forEach] begins with the first listener of the array. *)
Lemma forEach_head tk tm c l rest :
  listeners c = l :: rest ->
  exists vs,
    snd (forEach impl tk tm c)
      = flat_map (fun x => block impl x tk tm) (l :: vs) /\
    frame (fst (forEach impl tk tm c)) = frame c.
Proof.
  intros H. unfold forEach.
  replace (length (listeners c)) with (S (length rest))
    by (rewrite H; reflexivity).
  cbn [forEach_from].
  replace (nth_error (listeners c) 0) with (Some l)
    by (rewrite H; reflexivity).
  pose proof (serve_trace impl tk tm l c) as T.
  pose proof (serve_frame impl tk tm l c) as F.
  destruct (serve impl tk tm l c) as [c1 t1]. simpl in T, F. subst t1.
  destruct (forEach_from_spec impl (length rest) 1 tk tm c1) as [vs [H1 H2]].
  destruct (forEach_from impl (length rest) 1 tk tm c1) as [c2 t2].
  simpl in *. exists vs. rewrite H1. split; [reflexivity | congruence].
Qed.

Lemma fire_head tickTime tk c l rest :
  listeners c = l :: rest ->
  exists vs,
    snd (fire impl tickTime tk c)
      = flat_map
          (fun x => block impl x tk (ideal (startTime c) tickTime tk))
          (l :: vs) /\
    frame (fst (fire impl tickTime tk c)) = frame c.
Proof.
  intros H. unfold fire, ideal.
  destruct (forEach_head tk (startTime c + inject_Z tk * tickTime)%Q c l rest H)
    as [vs G].
  destruct (forEach impl tk (startTime c + inject_Z tk * tickTime)%Q c)
    as [c1 tr].
  simpl in *. exists vs. exact G.
Qed.

Lemma fire_from_head (n : nat) tickTime tk c l rest :
  listeners c = l :: rest ->
  exists vs visits,
    length visits = n /\
    snd (fire_from impl (S n) tickTime tk c)
      = pass_trace impl (startTime c) tickTime tk ((l :: vs) :: visits).
Proof.
  intros H. cbn [fire_from].
  destruct (fire_head tickTime tk c l rest H) as [vs [H1 H2]].
  destruct (fire impl tickTime tk c) as [c1 t1]. simpl in H1, H2.
  destruct (fire_from_spec impl n tickTime (tk + 1) c1)
    as [visits [L [G1 _]]].
  destruct (fire_from impl n tickTime (tk + 1) c1) as [c2 t2]. simpl in *.
  exists vs, visits. split; [exact L |].
  assert (E : startTime c1 = startTime c)
    by (unfold frame in H2; congruence).
  rewrite H1, G1, E. reflexivity.
Qed.

(** The trace of a pass, with the listener that its first tick begins
    with. *)
Lemma schedule_served now c :
  exists visits,
    length visits = Z.to_nat (targetTick now c - lastScheduledTick c) /\
    snd (schedule impl now c)
      = pass_trace impl (startTime c) (tickDuration c)
                   (lastScheduledTick c + 1) visits /\
    (forall l rest,
       listeners c = l :: rest ->
       lastScheduledTick c < targetTick now c ->
       exists vs r, visits = (l :: vs) :: r).
Proof.
  destruct (listeners c) as [| l rest] eqn:El.
  - destruct (schedule_spec impl now c) as [visits [L [H _]]].
    exists visits. repeat split; try assumption. intros; discriminate.
  - destruct (Z_lt_dec (lastScheduledTick c) (targetTick now c)) as [Hlt | Hge].
    + destruct (Z.to_nat (targetTick now c - lastScheduledTick c))
        as [| n] eqn:En; [lia |].
      destruct (fire_from_head n (tickDuration c) (lastScheduledTick c + 1)
                               c l rest El) as [vs [visits [L H]]].
      exists ((l :: vs) :: visits). split; [simpl; rewrite L; reflexivity |].
      split.
      * unfold schedule. rewrite En.
        destruct (fire_from impl (S n) (tickDuration c)
                            (lastScheduledTick c + 1) c) as [c1 tr].
        simpl in *. exact H.
      * intros l' rest' E' _. injection E' as <- <-.
        exists vs, visits. reflexivity.
    + destruct (schedule_spec impl now c) as [visits [L [H _]]].
      exists visits. repeat split; try assumption. intros; lia.
Qed.


End FirstListenerFacts.



(** C8, against the claim as it was stated: [Math.min(140, NaN)] and
    [Math.max(60, NaN)] are NaN, so [setBpm(NaN)] stores NaN, which is no
    number of the interval, in a clock made with 120 bpm as in any
    other. *)
Lemma setBpm_NaN_is_stored :
  Clock.Math_min 140 Clock.NaN = Clock.NaN /\
  Clock.Math_max 60 Clock.NaN = Clock.NaN /\
  Clock.clamped Clock.NaN = Clock.NaN /\
  ~ Clock.in_range (Clock.clamped Clock.NaN) /\
  Clock.setBpmNumber Clock.NaN (Clock.new 120) = None.
Proof.
  repeat split. intros H. exact H.
Qed.

(** C8, as amended.  For every argument [x] other than NaN, [setBpm(x)]
    stores [x] brought into [60, 140]: [x] itself when it is in the
    interval, the nearer end otherwise (140 for 500 and for Infinity, 60
    for 10 and for -Infinity); [getBpm] returns the stored value; nothing
    else of the clock changes; and the next pass takes its tick duration
    from the stored value: its target tick, the ideal times of the ticks
    it announces, and with them the whole trace. *)
Theorem setBpm_clamps :
  forall (x : Clock.Number) (c : Clock.t),
  x <> Clock.NaN ->
  exists c' : Clock.t,
    Clock.setBpmNumber x c = Some c' /\
    Clock.clamped x = Clock.Finite (Clock.getBpm c') /\
    (60 <= Clock.getBpm c' <= 140)%Q /\
    (forall q, x = Clock.Finite q ->
       c' = Clock.setBpm q c /\
       ((60 <= q <= 140)%Q -> (Clock.getBpm c' == q)%Q) /\
       ((q <= 60)%Q -> (Clock.getBpm c' == 60)%Q) /\
       ((140 <= q)%Q -> (Clock.getBpm c' == 140)%Q)) /\
    (x = Clock.Finite 500 -> Clock.getBpm c' = 140%Q) /\
    (x = Clock.Finite 10 -> Clock.getBpm c' = 60%Q) /\
    (x = Clock.PlusInfinity -> Clock.getBpm c' = 140%Q) /\
    (x = Clock.MinusInfinity -> Clock.getBpm c' = 60%Q) /\
    Clock.listeners c' = Clock.listeners c /\
    Clock.getPosition c' = Clock.getPosition c /\
    Clock.frame c' = Clock.frame c /\
    (forall (impl : Clock.listener -> Clock.ClockListener) (now : Q),
       let tickTime := (60 / Clock.getBpm c' / 4)%Q in
       let target :=
         Qfloor ((now - Clock.startTime c) / tickTime
                 + Clock.scheduleAhead / tickTime)%Q in
       let last := Clock.lastScheduledTick c in
       Clock.lastScheduledTick (fst (Clock.schedule impl now c')) = target /\
       (exists visits : list (list Clock.listener),
          length visits = Z.to_nat (target - last) /\
          snd (Clock.schedule impl now c')
          = Clock.pass_trace impl (Clock.startTime c) tickTime (last + 1)
                             visits /\
          (forall l rest,
             Clock.listeners c = l :: rest -> last < target ->
             exists vs r, visits = (l :: vs) :: r)) /\
       (passive impl ->
        snd (Clock.schedule impl now c')
        = Clock.pass_trace impl (Clock.startTime c) tickTime (last + 1)
            (repeat (Clock.listeners c) (Z.to_nat (target - last))))).
Proof.
  intros x c Hx.
  assert (Pass : forall c' : Clock.t,
            Clock.listeners c' = Clock.listeners c ->
            Clock.startTime c' = Clock.startTime c ->
            Clock.lastScheduledTick c' = Clock.lastScheduledTick c ->
            forall (impl : Clock.listener -> Clock.ClockListener) (now : Q),
            let tickTime := (60 / Clock.getBpm c' / 4)%Q in
            let target :=
              Qfloor ((now - Clock.startTime c) / tickTime
                      + Clock.scheduleAhead / tickTime)%Q in
            let last := Clock.lastScheduledTick c in
            Clock.lastScheduledTick (fst (Clock.schedule impl now c'))
            = target /\
            (exists visits : list (list Clock.listener),
               length visits = Z.to_nat (target - last) /\
               snd (Clock.schedule impl now c')
               = Clock.pass_trace impl (Clock.startTime c) tickTime
                                  (last + 1) visits /\
               (forall l rest,
                  Clock.listeners c = l :: rest -> last < target ->
                  exists vs r, visits = (l :: vs) :: r)) /\
            (passive impl ->
             snd (Clock.schedule impl now c')
             = Clock.pass_trace impl (Clock.startTime c) tickTime (last + 1)
                 (repeat (Clock.listeners c) (Z.to_nat (target - last))))).
  { intros c' El Es Ea impl now tickTime target last.
    assert (Et : Clock.targetTick now c' = target).
    { unfold Clock.targetTick, target. rewrite Es. reflexivity. }
    destruct (schedule_spec impl now c') as [_ [_ [_ [_ [N _]]]]].
    destruct (schedule_served impl now c') as [visits [L [H F]]].
    rewrite Et, Es, Ea, El in *.
    split; [exact N |]. split.
    - exists visits. repeat split; assumption.
    - intros Hp. destruct (schedule_passive impl Hp now c') as [T _].
      rewrite Et, Es, Ea, El in T. exact T. }
  assert (R140 : (60 <= 140 <= 140)%Q) by (split; discriminate).
  assert (R60 : (60 <= 60 <= 140)%Q) by (split; discriminate).
  destruct x as [q | | |].
  - exists (Clock.setBpm q c).
    assert (B : (60 <= Qmax 60 (Qmin 140 q) <= 140)%Q).
    { split; [apply Q.le_max_l |].
      apply Q.max_lub; [discriminate | apply Q.le_min_l]. }
    split; [reflexivity |]. split; [reflexivity |]. split; [exact B |].
    split.
    { intros q' E. injection E as <-. split; [reflexivity |].
      unfold Clock.getBpm. simpl Clock.bpm. repeat split.
      - intros [Hlo Hhi]. rewrite (Q.min_r 140 q Hhi). apply Q.max_r.
        exact Hlo.
      - intros Hlo. apply Q.max_l.
        apply Qle_trans with q; [apply Q.le_min_r | exact Hlo].
      - intros Hhi. rewrite (Q.min_l 140 q Hhi). apply Q.max_r.
        discriminate. }
    split; [intros E; injection E as ->; reflexivity |].
    split; [intros E; injection E as ->; reflexivity |].
    split; [discriminate |]. split; [discriminate |].
    split; [reflexivity |]. split; [reflexivity |]. split; [reflexivity |].
    apply Pass; reflexivity.
  - eexists. split; [reflexivity |]. split; [reflexivity |].
    split; [exact R140 |]. split; [discriminate |].
    split; [discriminate |]. split; [discriminate |].
    split; [reflexivity |]. split; [discriminate |].
    split; [reflexivity |]. split; [reflexivity |]. split; [reflexivity |].
    apply Pass; reflexivity.
  - eexists. split; [reflexivity |]. split; [reflexivity |].
    split; [exact R60 |]. split; [discriminate |].
    split; [discriminate |]. split; [discriminate |].
    split; [discriminate |]. split; [reflexivity |].
    split; [reflexivity |]. split; [reflexivity |]. split; [reflexivity |].
    apply Pass; reflexivity.
  - contradiction.
Qed.

(** A clock at 120 bpm with one listener, started at time 0: [setBpm(500)]
    stores 140, and the pass that reads 1 announces the ticks 1 to 10 at
    multiples of 3/28 s, the tick duration at 140 bpm. *)
Lemma setBpm_clamps_witness :
  let c := fst (Clock.session quiet 0 0 []
                  (Clock.subscribe 1%nat (Clock.new 120))) in
  exists c',
    Clock.setBpmNumber (Clock.Finite 500) c = Some c' /\
    Clock.getBpm c' = 140%Q /\
    Clock.lastScheduledTick (fst (Clock.schedule quiet 1 c')) = 10 /\
    map (fun x => (Clock.value x, Qred (Clock.time x)))
        (filter (fun x => match Clock.what x with
                          | Clock.tick => true
                          | _ => false
                          end)
                (snd (Clock.schedule quiet 1 c')))
    = [(1, 3 # 28); (2, 3 # 14); (3, 9 # 28); (4, 3 # 7); (5, 15 # 28);
       (6, 9 # 14); (7, 3 # 4); (8, 6 # 7); (9, 27 # 28); (10, 15 # 14)].
Proof.
  intros c.
  destruct (setBpm_clamps (Clock.Finite 500) c ltac:(discriminate))
    as [c' [E [_ [_ [_ [B [_ [_ [_ [_ [_ [_ P]]]]]]]]]]]].
  exists c'. split; [exact E |]. split; [exact (B eq_refl) |].
  destruct (P quiet 1%Q) as [N [_ T]].
  rewrite N, (T quiet_passive), (B eq_refl).
  split; vm_compute; reflexivity.
Defined.

(* --------------------------------------------------------------------- *)
(** ** The clock: sessions at a steady tempo                              *)
(* --------------------------------------------------------------------- *)

Section SteadyTempoFacts.

Import Clock.

Variable impl : listener -> ClockListener.
Hypothesis quiet_tempo : tempo_free impl.

Lemma apply_ops_bpm (os : list Op) : forall c,
  (forall x, ~ In (SetBpm x) os) -> bpm (apply_ops os c) = bpm c.
Proof.
  unfold apply_ops.
  induction os as [| o os IH]; intros c H; simpl; [reflexivity |].
  rewrite IH by (intros x Hx; apply (H x); right; exact Hx).
  destruct o as [l | l | y]; simpl; unfold unsubscribe; simpl.
  - reflexivity.
  - destruct (indexOf l (listeners c)); reflexivity.
  - exfalso. apply (H y). left. reflexivity.
Qed.

Lemma invoke_bpm l e v tm c : bpm (fst (invoke impl l e v tm c)) = bpm c.
Proof.
  unfold invoke. destruct (handler (impl l) e) as [h |] eqn:E; simpl;
    [| reflexivity].
  apply apply_ops_bpm. intros x. apply (quiet_tempo l e h v tm x E).
Qed.

Lemma maybe_invoke_bpm (b : bool) l e v tm c :
  bpm (if b then fst (invoke impl l e v tm c) else c) = bpm c.
Proof. destruct b; [apply invoke_bpm | reflexivity]. Qed.

Lemma serve_bpm tk tm l c : bpm (fst (serve impl tk tm l c)) = bpm c.
Proof.
  rewrite serve_unfold. cbv zeta. simpl fst.
  rewrite !maybe_invoke_bpm. apply invoke_bpm.
Qed.

Lemma forEach_from_bpm (n : nat) : forall k tk tm c,
  bpm (fst (forEach_from impl n k tk tm c)) = bpm c.
Proof.
  induction n as [| n IH]; intros k tk tm c; simpl; [reflexivity |].
  destruct (nth_error (listeners c) k) as [l |]; [| apply IH].
  pose proof (serve_bpm tk tm l c) as B.
  destruct (serve impl tk tm l c) as [c1 t1].
  pose proof (IH (S k) tk tm c1) as B'.
  destruct (forEach_from impl n (S k) tk tm c1) as [c2 t2].
  simpl in *. congruence.
Qed.

Lemma fire_from_bpm (n : nat) : forall tickTime tk c,
  bpm (fst (fire_from impl n tickTime tk c)) = bpm c.
Proof.
  induction n as [| n IH]; intros tickTime tk c; simpl; [reflexivity |].
  unfold fire, forEach.
  pose proof (forEach_from_bpm (length (listeners c)) 0 tk
                (startTime c + inject_Z tk * tickTime)%Q c) as B.
  destruct (forEach_from impl (length (listeners c)) 0 tk
              (startTime c + inject_Z tk * tickTime)%Q c) as [c1 t1].
  match goal with
  | |- context [fire_from impl n tickTime (tk + 1) ?c'] =>
    pose proof (IH tickTime (tk + 1) c') as B';
    destruct (fire_from impl n tickTime (tk + 1) c') as [c2 t2]
  end.
  simpl in *. congruence.
Qed.

Lemma schedule_bpm now c : bpm (fst (schedule impl now c)) = bpm c.
Proof.
  unfold schedule.
  pose proof (fire_from_bpm (Z.to_nat (targetTick now c - lastScheduledTick c))
                (tickDuration c) (lastScheduledTick c + 1) c) as B.
  destruct (fire_from impl (Z.to_nat (targetTick now c - lastScheduledTick c))
              (tickDuration c) (lastScheduledTick c + 1) c) as [c1 t1].
  exact B.
Qed.

(** The target depends on the clock through its anchor and its tempo. *)
Lemma targetTick_ext now c c' :
  startTime c' = startTime c -> bpm c' = bpm c ->
  targetTick now c' = targetTick now c.
Proof.
  intros Hs Hb. unfold targetTick, tickDuration. rewrite Hs, Hb. reflexivity.
Qed.

Lemma tickDuration_pos c : (0 < bpm c)%Q -> (0 < tickDuration c)%Q.
Proof.
  intros Hb. unfold tickDuration, ticksPerBeat.
  apply Qlt_shift_div_l; [reflexivity |]. rewrite Qmult_0_l.
  apply Qlt_shift_div_l; [exact Hb |]. rewrite Qmult_0_l. reflexivity.
Qed.

(** A later reading never lowers the target. *)
Lemma targetTick_mono c now1 now2 :
  (0 < bpm c)%Q -> (now1 <= now2)%Q ->
  targetTick now1 c <= targetTick now2 c.
Proof.
  intros Hb Hn. unfold targetTick. apply Qfloor_resp_le.
  pose proof (tickDuration_pos c Hb) as Ht.
  apply Qplus_le_l. unfold Qdiv. apply Qmult_le_compat_r.
  - lra.
  - apply Qlt_le_weak, Qinv_lt_0_compat. exact Ht.
Qed.

(** At or after the anchor the target is at least tick 0. *)
Lemma targetTick_nonneg c now :
  (0 < bpm c)%Q -> (startTime c <= now)%Q -> 0 <= targetTick now c.
Proof.
  intros Hb Hn. unfold targetTick.
  change 0 with (Qfloor 0). apply Qfloor_resp_le.
  pose proof (tickDuration_pos c Hb) as Ht.
  assert (Hi : (0 < / tickDuration c)%Q) by (apply Qinv_lt_0_compat; exact Ht).
  unfold Qdiv, scheduleAhead.
  assert (H1 : (0 <= (now - startTime c) * / tickDuration c)%Q)
    by (apply Qmult_le_0_compat; lra).
  assert (H2 : (0 <= (1 # 10) * / tickDuration c)%Q)
    by (apply Qmult_le_0_compat; lra).
  lra.
Qed.

Lemma pass_trace_app t0 tickTime (v1 : list (list listener)) :
  forall tk v2,
  pass_trace impl t0 tickTime tk (v1 ++ v2)
  = pass_trace impl t0 tickTime tk v1 ++
    pass_trace impl t0 tickTime (tk + Z.of_nat (length v1)) v2.
Proof.
  induction v1 as [| vs v1 IH]; intros tk v2; simpl.
  - rewrite Z.add_0_r. reflexivity.
  - rewrite IH, <- app_assoc.
    replace (tk + 1 + Z.of_nat (length v1))
      with (tk + Z.pos (Pos.of_succ_nat (length v1))) by lia.
    reflexivity.
Qed.

Lemma last_cons {A : Type} (l : list A) : forall a d : A,
  last (a :: l) d = last l a.
Proof.
  induction l as [| b l IH]; intros a d; [reflexivity |].
  change (last (b :: l) d = last (b :: l) a). rewrite !IH. reflexivity.
Qed.

(** Passes at a steady tempo, read off a monotonic time source, continue
    one another: together they announce the ticks after the last one
    announced, each once, in order. *)
Lemma steady_passes (nows : list Q) : forall (c : t) (prev : Q),
  intervalId c = true ->
  (0 < bpm c)%Q ->
  lastScheduledTick c = targetTick prev c ->
  monotonic prev nows ->
  exists visits,
    snd (run impl (map Pass nows) c)
      = pass_trace impl (startTime c) (tickDuration c)
                   (lastScheduledTick c + 1) visits /\
    Z.of_nat (length visits)
      = targetTick (last nows prev) c - lastScheduledTick c.
Proof.
  induction nows as [| now nows IH]; intros c prev Hi Hb Hl Hm.
  - exists []. simpl. split; [reflexivity | lia].
  - destruct Hm as [Hp Hm]. rewrite last_cons.
    simpl map. simpl run. unfold step. rewrite Hi.
    destruct (schedule_spec impl now c) as [v1 [L1 [T1 [S1 [N1 I1]]]]].
    pose proof (schedule_bpm now c) as B1.
    destruct (schedule impl now c) as [c1 t1]. simpl in *.
    assert (E1 : forall n, targetTick n c1 = targetTick n c)
      by (intros n; apply targetTick_ext; assumption).
    destruct (IH c1 now) as [v2 [T2 L2]].
    + congruence.
    + rewrite B1. exact Hb.
    + rewrite N1, E1. reflexivity.
    + exact Hm.
    + destruct (run impl (map Pass nows) c1) as [c2 t2]. simpl in *.
      pose proof (targetTick_mono c prev now Hb Hp) as M.
      exists (v1 ++ v2). split.
      * rewrite pass_trace_app, T1, T2, S1, N1.
        unfold tickDuration. rewrite B1.
        replace (lastScheduledTick c + 1 + Z.of_nat (length v1))
          with (targetTick now c + 1) by lia.
        reflexivity.
      * rewrite length_app, Nat2Z.inj_add, L2, L1, N1, E1. lia.
Qed.

(** A session of passes at a steady tempo on a monotonic time source
    announces ticks 0, 1, 2, ... up to the last target, each once and in
    order, all callbacks of a tick before any of a later tick. *)
Lemma steady_session (t0 now0 : Q) (nows : list Q) (c : t) :
  (0 < bpm c)%Q ->
  (t0 <= now0)%Q ->
  monotonic now0 nows ->
  exists visits,
    snd (session impl t0 now0 (map Pass nows) c)
      = pass_trace impl t0 (tickDuration c) 0 visits /\
    Z.of_nat (length visits)
      = Qfloor ((last nows now0 - t0) / tickDuration c
                + scheduleAhead / tickDuration c)%Q + 1.
Proof.
  intros Hb H0 Hm. unfold session, start.
  set (c0 := mk (bpm c) 0 0 0 0 (listeners c) true t0 (-1)).
  change (Qfloor ((last nows now0 - t0) / tickDuration c
                  + scheduleAhead / tickDuration c)%Q)
    with (targetTick (last nows now0) c0).
  destruct (schedule_spec impl now0 c0) as [v1 [L1 [T1 [S1 [N1 I1]]]]].
  pose proof (schedule_bpm now0 c0) as B1.
  pose proof (targetTick_nonneg c0 now0 Hb H0) as P0.
  destruct (schedule impl now0 c0) as [c1 t1]. simpl in *.
  assert (E1 : forall n, targetTick n c1 = targetTick n c0)
    by (intros n; apply targetTick_ext; assumption).
  destruct (steady_passes nows c1 now0) as [v2 [T2 L2]].
  - exact I1.
  - rewrite B1. exact Hb.
  - rewrite N1, E1. reflexivity.
  - exact Hm.
  - destruct (run impl (map Pass nows) c1) as [c2 t2]. simpl in *.
    exists (v1 ++ v2). split.
    + rewrite pass_trace_app, T1, T2, S1, N1.
      unfold tickDuration. rewrite B1. simpl bpm.
      replace (0 + Z.of_nat (length v1)) with (targetTick now0 c0 + 1)
        by lia.
      reflexivity.
    + rewrite length_app, Nat2Z.inj_add, L2, N1, E1. lia.
Qed.

End SteadyTempoFacts.

(* --------------------------------------------------------------------- *)
(** ** The clock: the listener array under a running [forEach]            *)
(* --------------------------------------------------------------------- *)

Section ListenerArrayFacts.

Import Clock.

Variable impl : listener -> ClockListener.
















End ListenerArrayFacts.




(** C1, at an input where the code departs from it: a clock at 140 bpm is
    started at time 0 and runs a pass at time 1, which announces ticks 0
    to 10; the tempo is then set to 60, the pass at 1.025 finds its target
    (tick 4) behind the last tick announced and stores it as the last
    announced, and the pass at 1.25 announces tick 5 a second time. *)
Theorem lowered_tempo_announces_a_tick_twice :
  let run :=
    Clock.session quiet 0 0
      [Clock.Pass 1; Clock.DoSetBpm 60; Clock.Pass 1.025; Clock.Pass 1.25]
      (solo 140) in
  Clock.ticks_of 0%nat (snd run) = [0; 1; 2; 3; 4; 5; 6; 7; 8; 9; 10; 5] /\
  Clock.lastScheduledTick (fst run) = 5.
Proof.
  vm_compute. split; reflexivity.
Qed.

(* --------------------------------------------------------------------- *)
(** ** The layers: deferred hard stop                                     *)
(* --------------------------------------------------------------------- *)

Section HardStopFacts.

Import Host.

(** A [try] whose handler does nothing completes normally. *)
Lemma try_catch_absorbs {S : Type} (body : M S unit) (s : S) :
  fst (try_catch body (fun _ => ret tt) s) = Normal tt.
Proof.
  unfold try_catch, ret. destruct (body s) as [[[] | e] s1]; reflexivity.
Qed.

(** A [forEach] whose callback completes normally on every element does
    so itself. *)
Lemma forEach_normal {S A : Type} (f : A -> M S unit) (xs : list A) :
  (forall x s, fst (f x s) = Normal tt) ->
  forall s, fst (forEach f xs s) = Normal tt.
Proof.
  intros Hf. induction xs as [| x xs IH]; intros s; simpl; [reflexivity |].
  unfold bind. specialize (Hf x s).
  destruct (f x s) as [[[] | e] s1]; simpl in Hf; [apply IH | discriminate].
Qed.

End HardStopFacts.

(** Without the [try], stopping a source that was never started throws
    under the Web Audio rules. *)
Example stop_unstarted_throws :
  fst (Host.stopRef Host.webAudio 0%nat [Host.mkSource Host.Unstarted true])
  = Host.Throw Host.InvalidStateError.
Proof. reflexivity. Qed.

(** C9.  The callbacks that the [stop()] of the texture, pad and beat
    layers defer complete normally whatever the audio library's [stop]
    does, for every state of the sources and everything that happened to
    them since [stop()] was called. *)
Theorem deferred_stop_never_throws :
  forall (api : Host.Api) (h : Host.Heap) (es : list Host.Life),
  (forall L : Texture.TextureLayer,
     fst (Texture.hardStop api L (Host.lives es h)) = Host.Normal tt) /\
  (forall L : Pad.PadLayer,
     fst (Pad.hardStop api L (Host.lives es h)) = Host.Normal tt) /\
  (forall L : Beat.BeatLayer,
     fst (Beat.hardStop api L (Host.lives es h)) = Host.Normal tt).
Proof.
  intros api h es. split; [| split]; intros L.
  - apply try_catch_absorbs.
  - unfold Pad.hardStop. apply forEach_normal.
    intros r s. apply try_catch_absorbs.
  - apply try_catch_absorbs.
Qed.

(* --------------------------------------------------------------------- *)
(** ** The pad layer: the deferred chord change                           *)
(* --------------------------------------------------------------------- *)

Section ChordMutationFacts.

Import Host.

Lemma keeps_ret {S A X : Type} (g : S -> X) (a : A) : keeps g (ret (S:=S) a).
Proof. intros s. reflexivity. Qed.

Lemma keeps_get {S X : Type} (g : S -> X) : keeps g (get (S:=S)).
Proof. intros s. reflexivity. Qed.

Lemma keeps_bind {S A B X : Type} (g : S -> X) (m : M S A) (k : A -> M S B) :
  keeps g m -> (forall a, keeps g (k a)) -> keeps g (bind m k).
Proof.
  intros Hm Hk s. unfold bind. specialize (Hm s).
  destruct (m s) as [[a | e] s1]; simpl in *.
  - rewrite Hk. exact Hm.
  - exact Hm.
Qed.

Lemma keeps_forEach {S A X : Type} (g : S -> X) (f : A -> M S unit)
      (xs : list A) :
  (forall x, keeps g (f x)) -> keeps g (forEach f xs).
Proof.
  intros Hf. induction xs as [| x xs IH]; simpl.
  - apply keeps_ret.
  - apply keeps_bind; [apply Hf | intros _; exact IH].
Qed.

Lemma bind_normal {S A B : Type} (m : M S A) (k : A -> M S B) (a : A)
      (b : B) :
  (forall s, fst (m s) = Normal a) ->
  (forall s, fst (k a s) = Normal b) ->
  forall s, fst (bind m k s) = Normal b.
Proof.
  intros Hm Hk s. unfold bind. specialize (Hm s).
  destruct (m s) as [[a' | e] s1]; simpl in Hm; [| discriminate].
  injection Hm as ->. apply Hk.
Qed.

Variable api : Api.
Variable noteToFreq : Z -> Q.

Lemma on_heap_keeps {A : Type} (m : M Heap A) : keeps Pad.tonal (Pad.on_heap m).
Proof.
  intros w. unfold Pad.on_heap. destruct (m (Pad.heap w)) as [r h].
  reflexivity.
Qed.

Lemma voice_keeps (note : option Z) (detune : Z) :
  keeps Pad.tonal (Pad.voice api noteToFreq note detune).
Proof.
  intros w. unfold Pad.voice.
  destruct (api_create api (option_map noteToFreq note)) as [s | e];
    [| reflexivity].
  destruct (api_start api s) as [s' | e]; reflexivity.
Qed.

(** Restarting the oscillators leaves the root, the scale and the chord
    as they are. *)
Lemma startOscillators_keeps :
  keeps Pad.tonal (Pad.startOscillators api noteToFreq).
Proof.
  unfold Pad.startOscillators.
  apply keeps_bind; [apply keeps_get | intros w0].
  apply keeps_bind; [apply on_heap_keeps | intros _].
  apply keeps_bind; [intros w; reflexivity | intros _].
  apply keeps_bind; [apply keeps_get | intros w1].
  apply keeps_forEach. intros note.
  apply keeps_forEach. intros detune. apply voice_keeps.
Qed.

(** Both ways out of the callback: on normal completion the root is the
    one found and the chord is built on the shifted, clamped root; when
    the restart of the oscillators throws, the shifted root stays. *)
Lemma chordMutation_outcome (interval : Z) (w : Pad.World) :
  forall res w',
  Pad.chordMutation api noteToFreq interval w = (res, w') ->
  let shifted := Z.max 36 (Z.min 60 (Pad.root (Pad.state w) + interval)) in
  Pad.scale (Pad.state w') = Pad.scale (Pad.state w) /\
  Pad.currentChord (Pad.layer w')
    = Pad.chord_of shifted (Pad.scale (Pad.state w)) /\
  match res with
  | Normal _ => Pad.root (Pad.state w') = Pad.root (Pad.state w)
  | Throw _ => Pad.root (Pad.state w') = shifted
  end.
Proof.
  intros res w' E shifted.
  unfold Pad.chordMutation in E.
  unfold bind at 1 in E. unfold get in E. cbv beta iota in E.
  unfold bind at 1 in E. unfold modify at 1 in E. cbv beta iota in E.
  unfold bind at 1 in E. unfold Pad.buildChord, modify at 1 in E.
  cbv beta iota in E.
  unfold bind at 1 in E.
  match type of E with
  | context [Pad.startOscillators api noteToFreq ?x] => set (w2 := x) in E
  end.
  pose proof (startOscillators_keeps w2) as K.
  destruct (Pad.startOscillators api noteToFreq w2) as [[[] | e] w3].
  - unfold bind, modify in E. injection E as <- <-.
    unfold Pad.tonal in K. simpl in K. injection K as K1 K2.
    simpl. rewrite K1, K2. subst w2. repeat split; reflexivity.
  - injection E as <- <-.
    unfold Pad.tonal in K. simpl in K. injection K as K1 K2.
    rewrite K1, K2. subst w2. repeat split; reflexivity.
Qed.


(** The callback completes when the audio library accepts the new
    oscillators. *)
Lemma chordMutation_completes (interval : Z) :
  (forall f, exists s, api_create api f = Normal s) ->
  (forall s, exists s', api_start api s = Normal s') ->
  forall w, fst (Pad.chordMutation api noteToFreq interval w) = Normal tt.
Proof.
  intros Hc Hs.
  assert (Hv : forall note detune w,
             fst (Pad.voice api noteToFreq note detune w) = Normal tt).
  { intros note detune w. unfold Pad.voice.
    destruct (Hc (option_map noteToFreq note)) as [s ->].
    destruct (Hs s) as [s' ->]. reflexivity. }
  assert (Hso : forall w, fst (Pad.startOscillators api noteToFreq w)
                          = Normal tt).
  { intros w. unfold Pad.startOscillators, bind at 1, get. cbv beta iota.
    apply (bind_normal _ _ tt).
    - intros s. unfold Pad.on_heap.
      pose proof (forEach_normal
                    (fun r => try_catch (stopRef api r) (fun _ => ret tt))
                    (Pad.oscillators (Pad.layer w))
                    (fun r s0 => try_catch_absorbs (stopRef api r) s0)
                    (Pad.heap s)) as H.
      destruct (forEach _ _ (Pad.heap s)) as [r h]. exact H.
    - apply (bind_normal _ _ tt); [intros s; reflexivity |].
      intros s. unfold bind at 1, get. cbv beta iota.
      apply forEach_normal. intros note s0.
      apply forEach_normal. intros detune s1. apply Hv. }
  intros w. unfold Pad.chordMutation, bind at 1, get. cbv beta iota.
  apply (bind_normal _ _ tt); [intros s; reflexivity |].
  apply (bind_normal _ _ tt); [intros s; reflexivity |].
  apply (bind_normal _ _ tt); [exact Hso |].
  apply (bind_normal _ _ tt); intros s; reflexivity.
Qed.

End ChordMutationFacts.

(** C10.  When the deferred chord change of the pad layer completes, the
    root in the engine's state is the one it found, the scale is untouched,
    and the chord of the layer is the one built on the root shifted by the
    interval and clamped to [36, 60]. *)
Theorem chordMutation_restores_root :
  forall (api : Host.Api) (noteToFreq : Z -> Q) (interval : Z)
         (w w' : Pad.World),
  Pad.chordMutation api noteToFreq interval w = (Host.Normal tt, w') ->
  let shifted := Z.max 36 (Z.min 60 (Pad.root (Pad.state w) + interval)) in
  Pad.root (Pad.state w') = Pad.root (Pad.state w) /\
  Pad.scale (Pad.state w') = Pad.scale (Pad.state w) /\
  36 <= shifted <= 60 /\
  Pad.currentChord (Pad.layer w')
    = Pad.chord_of shifted (Pad.scale (Pad.state w)).
Proof.
  intros api noteToFreq interval w w' H shifted.
  destruct (chordMutation_outcome api noteToFreq interval w _ _ H)
    as [O1 [O2 O3]].
  repeat split; try assumption; subst shifted; lia.
Qed.

Lemma chordMutation_restores_root_witness :
  let out := Pad.chordMutation Host.webAudio semitones 7 (padWorld 58) in
  fst out = Host.Normal tt /\
  Pad.root (Pad.state (snd out)) = 58 /\
  Pad.currentChord (Pad.layer (snd out))
    = [Some 60; Some 65; Some 70; Some 72].
Proof.
  assert (E : Pad.chordMutation Host.webAudio semitones 7 (padWorld 58)
              = (Host.Normal tt,
                 snd (Pad.chordMutation Host.webAudio semitones 7
                        (padWorld 58))))
    by (vm_compute; reflexivity).
  split; [rewrite E; reflexivity |].
  destruct (chordMutation_restores_root Host.webAudio semitones 7
              (padWorld 58) _ E) as [H1 [_ [_ H4]]].
  split; [exact H1 | exact H4].
Defined.

(* --------------------------------------------------------------------- *)
(** ** The layers: teardown of transient units                            *)
(* --------------------------------------------------------------------- *)

Section TeardownFacts.

Import Host.
Local Open Scope Q_scope.

(** A pass announces no tick whose ideal time is more than the lookahead
    after the reading of the time source. *)
Lemma announced_within_lookahead
      (impl : Clock.listener -> Clock.ClockListener) (c : Clock.t) (now : Q)
      (x : Clock.Call) :
  0 < Clock.bpm c ->
  In x (snd (Clock.schedule impl now c)) ->
  Clock.time x <= now + Clock.scheduleAhead.
Proof.
  intros Hb Hin.
  destruct (schedule_spec impl now c) as [visits [L [H _]]].
  rewrite H in Hin.
  destruct (pass_trace_calls impl _ _ visits _ x Hin) as [k [Hk [Ht _]]].
  rewrite Ht. unfold Clock.ideal.
  assert (Hk' : (k <= Clock.targetTick now c)%Z) by lia.
  rewrite Zle_Qle in Hk'.
  pose proof (Qfloor_le ((now - Clock.startTime c) / Clock.tickDuration c
                         + Clock.scheduleAhead / Clock.tickDuration c)) as F.
  fold (Clock.targetTick now c) in F.
  assert (Htt : 0 < Clock.tickDuration c).
  { unfold Clock.tickDuration, Clock.ticksPerBeat.
    apply Qlt_shift_div_l; [reflexivity |]. rewrite Qmult_0_l.
    apply Qlt_shift_div_l; [exact Hb |]. rewrite Qmult_0_l. reflexivity. }
  set (tt := Clock.tickDuration c) in *.
  assert (Hm : inject_Z k * tt
               <= ((now - Clock.startTime c) / tt
                   + Clock.scheduleAhead / tt) * tt).
  { apply Qmult_le_compat_r; [| lra].
    apply Qle_trans with (inject_Z (Clock.targetTick now c)); assumption. }
  assert (Hf : ((now - Clock.startTime c) / tt + Clock.scheduleAhead / tt) * tt
               == now - Clock.startTime c + Clock.scheduleAhead).
  { field. lra. }
  rewrite Hf in Hm. lra.
Qed.

(** The kick itself is torn down no earlier than its envelope ends, when
    it is scheduled no more than the lookahead ahead. *)
Lemma kick_teardown_not_before_end (L : Beat.BeatLayer) (tm v : Q) (w : World) :
  tm <= wall w + Clock.scheduleAhead ->
  exists u rest,
    units (Beat.playKick L tm v w) = units w ++ u :: rest /\
    kind u = Kick /\
    audibleEnd u == tm + Beat.decay (Beat.kick (Beat.kit L)) /\
    audibleEnd u <= teardownDue u.
Proof.
  intros H. unfold Beat.playKick.
  set (u := mkTransient Kick 2 _ tm _ _).
  assert (Hu : audibleEnd u == tm + Beat.decay (Beat.kick (Beat.kit L)) /\
               audibleEnd u <= teardownDue u).
  { unfold audibleEnd, u, deadline, Clock.scheduleAhead in *. simpl.
    assert (F : (Beat.decay (Beat.kick (Beat.kit L)) + 0.1) * 1000 / 1000
                == Beat.decay (Beat.kick (Beat.kit L)) + 0.1) by field.
    rewrite F. split; [reflexivity | lra]. }
  exists u.
  destruct (Beat.Qpos (Beat.clickAmount (Beat.kick (Beat.kit L))));
    destruct (Beat.Qpos (Beat.noiseAmount (Beat.kick (Beat.kit L))));
    eexists; (split; [simpl; rewrite <- ?app_assoc; reflexivity |]);
    (split; [reflexivity | exact Hu]).
Qed.

(** A note of the arp layer that is scheduled no more than the lookahead
    ahead: the ramp that closes its envelope, the last call on its gain,
    is scheduled before its teardown, and its oscillators stop no later
    than the teardown.  (The ramp to the sustain level is scheduled for
    [time + attack + decay], which a preset can put after both.) *)
Lemma arp_teardown_after_end (L : Arp.ArpLayer) (p : Arp.SynthPreset) (tm : Q)
      (w : World) :
  Arp.preset L = Some p ->
  Arp.isActive L = true ->
  tm <= wall w + Clock.scheduleAhead ->
  exists u,
    units (Arp.playNote L tm w) = units w ++ [u] /\
    kind u = ArpNote /\
    audibleEnd u == tm + 60 / Arp.bpm L / 4 * Arp.noteDuration p /\
    audibleEnd u < teardownDue u /\
    sourceStop u <= teardownDue u.
Proof.
  intros Hp Ha H. unfold Arp.playNote. rewrite Hp, Ha. simpl negb.
  cbv iota zeta.
  set (u := mkTransient ArpNote _ _ tm _ _).
  exists u. split; [reflexivity | split; [reflexivity |]].
  assert (E : audibleEnd u == tm + 60 / Arp.bpm L / 4 * Arp.noteDuration p).
  { unfold audibleEnd, u. simpl envelope.
    destruct (Beat.Qpos _); reflexivity. }
  split; [exact E |].
  rewrite E. unfold u, deadline, Clock.scheduleAhead in *. simpl.
  set (d := 60 / Arp.bpm L / 4 * Arp.noteDuration p).
  assert (F : (d + 0.2) * 1000 / 1000 == d + 0.2) by field.
  rewrite F. split; lra.
Qed.

End TeardownFacts.

(** The kick of scenario B (attack 0.001, decay 0.2) at time 10: at 120
    bpm tick 80 has ideal time 10 and is announced by the pass at 9.9, and
    the teardown's deadline is 10.2, the end of the decay itself. *)
Example kick_teardown_meets_decay_end :
  forall m : Modulation.Modulator,
  let c := fst (Clock.session quiet 0 0 [Clock.Pass 9.875] (solo 120)) in
  let tr := snd (Clock.schedule quiet 9.9 c) in
  let w := Beat.told (technoLayer m) 0%nat 9.9 tr silence in
  map (fun x => (Clock.value x, Qred (Clock.time x)))
      (filter (fun x => match Clock.what x with
                        | Clock.tick => true
                        | _ => false
                        end) tr) = [(80, (10 # 1)%Q)] /\
  exists u,
    nth_error (Host.units w) 0 = Some u /\
    Host.kind u = Host.Kick /\
    (Host.audibleEnd u == 10.2)%Q /\
    (Host.teardownDue u == 10.2)%Q.
Proof.
  intros m. vm_compute. split; [reflexivity |].
  eexists. repeat split; reflexivity.
Qed.

(** C4, at an input where the code departs from it: a clock at 88 bpm is
    started at time 0 and has announced ticks 0 to 15 by the pass at 2.625;
    tick 16 has ideal time 30/11 (about 2.727) and is announced by the
    pass at 2.65.  The beat layer with the Techno kit
    plays a kick with its click and its noise burst there.  The click's
    teardown has deadline 2.70, 50 ms after the pass: before the click even
    starts.  The noise burst's teardown has deadline 2.75, before the burst
    ends at about 2.767. *)
Theorem click_torn_down_before_it_sounds :
  forall m : Modulation.Modulator,
  let c := fst (Clock.session quiet 0 0 [Clock.Pass 2.625] (solo 88)) in
  let tr := snd (Clock.schedule quiet 2.65 c) in
  let w := Beat.told (technoLayer m) 0%nat 2.65 tr silence in
  Clock.ticks_of 0%nat tr = [16] /\
  map Host.kind (Host.units w) = [Host.Kick; Host.Click; Host.NoiseBurst] /\
  (exists u,
     nth_error (Host.units w) 1 = Some u /\
     (Host.teardownDue u == 2.7)%Q /\
     (Host.teardownDue u < Host.sourceStart u)%Q /\
     (Host.sourceStart u < Host.audibleEnd u)%Q) /\
  (exists u,
     nth_error (Host.units w) 2 = Some u /\
     (Host.teardownDue u < Host.audibleEnd u)%Q).
Proof.
  intros m. vm_compute. split; [reflexivity |]. split; [reflexivity |].
  split; eexists; repeat split; reflexivity.
Qed.

(* ===================================================================== *)
(** * Further properties of the code                                      *)
(* ===================================================================== *)

(* --------------------------------------------------------------------- *)
(** ** The clock                                                          *)
(* --------------------------------------------------------------------- *)

Section ClockPositionFacts.

Import Clock.

Variable impl : listener -> ClockListener.

(** The counters after [n] iterations of the loop of a pass are those of
    the last tick fired. *)
Lemma fire_from_position (n : nat) : forall tickTime tk c,
  getPosition (fst (fire_from impl (S n) tickTime tk c))
  = position_of (tk + Z.of_nat n).
Proof.
  induction n as [| n IH]; intros tickTime tk c.
  - simpl. unfold fire.
    destruct (forEach impl tk _ c) as [c1 tr]. simpl.
    rewrite Z.add_0_r. reflexivity.
  - change (fire_from impl (S (S n)) tickTime tk c)
      with (let '(c1, t1) := fire impl tickTime tk c in
            let '(c2, t2) := fire_from impl (S n) tickTime (tk + 1) c1 in
            (c2, t1 ++ t2)).
    destruct (fire impl tickTime tk c) as [c1 t1].
    specialize (IH tickTime (tk + 1) c1).
    destruct (fire_from impl (S n) tickTime (tk + 1) c1) as [c2 t2].
    simpl fst in *. rewrite IH. f_equal. lia.
Qed.

Lemma schedule_position now c :
  getPosition (fst (schedule impl now c))
  = if lastScheduledTick c <? targetTick now c
    then position_of (targetTick now c) else getPosition c.
Proof.
  unfold schedule.
  destruct (Z.ltb_spec (lastScheduledTick c) (targetTick now c)) as [H | H].
  - destruct (Z.to_nat (targetTick now c - lastScheduledTick c))
      as [| n] eqn:E; [lia |].
    pose proof (fire_from_position n (tickDuration c)
                  (lastScheduledTick c + 1) c) as P.
    destruct (fire_from impl (S n) (tickDuration c)
                (lastScheduledTick c + 1) c) as [c1 tr].
    simpl in *. unfold getPosition in *. simpl. rewrite P. f_equal. lia.
  - replace (Z.to_nat (targetTick now c - lastScheduledTick c)) with O by lia.
    reflexivity.
Qed.

Lemma position_of_derived (c : t) (tk : Z) :
  getPosition c = position_of tk ->
  currentBeat c = currentTick c / 4 /\
  currentBar c = currentBeat c / 4 /\
  currentPhrase c = currentBar c / 4.
Proof.
  unfold getPosition, position_of. intros H. injection H as -> -> -> ->.
  repeat split.
Qed.

Lemma step_derived (s : Step) (c : t) :
  (currentBeat c = currentTick c / 4 /\
   currentBar c = currentBeat c / 4 /\
   currentPhrase c = currentBar c / 4) ->
  let c' := fst (step impl s c) in
  currentBeat c' = currentTick c' / 4 /\
  currentBar c' = currentBeat c' / 4 /\
  currentPhrase c' = currentBar c' / 4.
Proof.
  intros H. destruct s as [now | x | l | l |]; simpl.
  - destruct (intervalId c); [| exact H].
    pose proof (schedule_position now c) as P.
    destruct (lastScheduledTick c <? targetTick now c).
    + apply (position_of_derived _ _ P).
    + unfold getPosition in P. injection P as -> -> -> ->. exact H.
  - exact H.
  - exact H.
  - unfold unsubscribe. destruct (indexOf l (listeners c)); exact H.
  - exact H.
Qed.

Lemma run_derived (ss : list Step) : forall c,
  (currentBeat c = currentTick c / 4 /\
   currentBar c = currentBeat c / 4 /\
   currentPhrase c = currentBar c / 4) ->
  let c' := fst (run impl ss c) in
  currentBeat c' = currentTick c' / 4 /\
  currentBar c' = currentBeat c' / 4 /\
  currentPhrase c' = currentBar c' / 4.
Proof.
  induction ss as [| s ss IH]; intros c H; simpl; [exact H |].
  pose proof (step_derived s c H) as H1.
  destruct (step impl s c) as [c1 t1]. simpl in H1.
  specialize (IH c1 H1).
  destruct (run impl ss c1) as [c2 t2]. exact IH.
Qed.

Lemma session_derived (t0 now : Q) (ss : list Step) (c : t) :
  let c' := fst (session impl t0 now ss c) in
  currentBeat c' = currentTick c' / 4 /\
  currentBar c' = currentBeat c' / 4 /\
  currentPhrase c' = currentBar c' / 4.
Proof.
  unfold session, start.
  set (c0 := mk _ 0 0 0 0 _ true t0 (-1)).
  assert (H0 : currentBeat c0 = currentTick c0 / 4 /\
               currentBar c0 = currentBeat c0 / 4 /\
               currentPhrase c0 = currentBar c0 / 4)
    by (simpl; repeat split).
  pose proof (step_derived (Pass now) c0 H0) as H2.
  simpl in H2.
  destruct (schedule impl now c0) as [c3 t3]. simpl in H2.
  pose proof (run_derived ss c3 H2) as H3.
  destruct (run impl ss c3) as [c4 t4]. exact H3.
Qed.

Lemma sessions_derived (ls : list (Q * Q * list Step)) : forall c,
  (currentBeat c = currentTick c / 4 /\
   currentBar c = currentBeat c / 4 /\
   currentPhrase c = currentBar c / 4) ->
  let c' := fst (sessions impl ls c) in
  currentBeat c' = currentTick c' / 4 /\
  currentBar c' = currentBeat c' / 4 /\
  currentPhrase c' = currentBar c' / 4.
Proof.
  induction ls as [| [[t0 now] ss] ls IH]; intros c H; [exact H |].
  cbn [sessions].
  pose proof (session_derived t0 now ss (stop c)) as H1.
  destruct (session impl t0 now ss (stop c)) as [c1 t1]. simpl in H1.
  specialize (IH c1 H1).
  destruct (sessions impl ls c1) as [c2 t2]. exact IH.
Qed.

End ClockPositionFacts.

(** X1.  Whatever happens to a clock after [new Clock(bpm)], in any number
    and order (passes at any readings, [setBpm] of a finite number,
    [subscribe], [unsubscribe], [stop], and [start()] any number of times,
    each called while no interval is running, with callbacks that change
    the listeners or the tempo), the beat, bar and phrase of
    [getPosition()] are the quotients by 4 of the tick, the beat and the
    bar; after [start()] the position is that of the target of its first
    pass, counted from zero again; and after a pass that announced a tick the position is that of the
    pass's target. *)
Theorem position_is_derived_from_tick :
  forall (impl : Clock.listener -> Clock.ClockListener) (bpm0 : Q)
         (before after : list Clock.Step) (t0 now : Q)
         (ls : list (Q * Q * list Clock.Step)),
  let c1 := fst (Clock.run impl before (Clock.new bpm0)) in
  let c2 := fst (Clock.session impl t0 now after c1) in
  let c3 := fst (Clock.sessions impl ls c1) in
  (Clock.currentBeat c1 = Clock.currentTick c1 / 4 /\
   Clock.currentBar c1 = Clock.currentBeat c1 / 4 /\
   Clock.currentPhrase c1 = Clock.currentBar c1 / 4) /\
  (Clock.currentBeat c2 = Clock.currentTick c2 / 4 /\
   Clock.currentBar c2 = Clock.currentBeat c2 / 4 /\
   Clock.currentPhrase c2 = Clock.currentBar c2 / 4) /\
  (Clock.currentBeat c3 = Clock.currentTick c3 / 4 /\
   Clock.currentBar c3 = Clock.currentBeat c3 / 4 /\
   Clock.currentPhrase c3 = Clock.currentBar c3 / 4) /\
  (forall (c : Clock.t) (reading0 reading : Q),
     Clock.getPosition (fst (Clock.start impl reading0 reading c))
     = position_of
         (Z.max 0
            (Clock.targetTick reading
               (Clock.mk (Clock.bpm c) 0 0 0 0 (Clock.listeners c) true
                         reading0 (-1))))) /\
  (forall (c : Clock.t) (reading : Q),
     Clock.lastScheduledTick c < Clock.targetTick reading c ->
     Clock.getPosition (fst (Clock.schedule impl reading c))
     = position_of (Clock.targetTick reading c)).
Proof.
  intros impl bpm0 before after t0 now ls c1 c2 c3.
  assert (H1 : Clock.currentBeat c1 = Clock.currentTick c1 / 4 /\
               Clock.currentBar c1 = Clock.currentBeat c1 / 4 /\
               Clock.currentPhrase c1 = Clock.currentBar c1 / 4).
  { apply (run_derived impl before (Clock.new bpm0)). simpl. repeat split. }
  split; [exact H1 |]. split; [| split; [| split]].
  - apply session_derived.
  - apply sessions_derived. exact H1.
  - intros c reading0 reading. unfold Clock.start.
    rewrite schedule_position.
    set (c0 := Clock.mk _ 0 0 0 0 _ true reading0 (-1)) in *.
    change (Clock.lastScheduledTick c0) with (-1).
    destruct (-1 <? Clock.targetTick reading c0) eqn:E.
    + apply Z.ltb_lt in E. rewrite Z.max_r by lia. reflexivity.
    + apply Z.ltb_ge in E. rewrite Z.max_l by lia. reflexivity.
  - intros c reading H. rewrite schedule_position.
    apply Z.ltb_lt in H. rewrite H. reflexivity.
Qed.

(** Two sessions of a clock at 88 bpm with one listener: the first runs to
    tick 70 and is stopped, the second has announced the ticks up to 6 when
    it is read. *)
Lemma position_is_derived_from_tick_witness :
  Clock.getPosition (fst (Clock.schedule quiet 12 (solo 88)))
  = (70, 17, 4, 1) /\
  Clock.getPosition
    (fst (Clock.sessions quiet
            [(0, 12, [Clock.DoStop; Clock.Pass 13]); (20, 21, [])]%Q
            (Clock.subscribe 1%nat (Clock.new 88))))
  = (6, 1, 0, 0).
Proof.
  assert (H : Clock.lastScheduledTick (solo 88)
              < Clock.targetTick 12 (solo 88)) by reflexivity.
  rewrite (proj2 (proj2 (proj2 (proj2
             (position_is_derived_from_tick quiet 88 [] [] 0 0 []))))
             (solo 88) 12%Q H).
  split; vm_compute; reflexivity.
Defined.



Section PassiveListenerFacts.

Import Clock.

Variable impl : listener -> ClockListener.
Hypothesis Hpassive : passive impl.

Lemma passive_tempo_free : tempo_free impl.
Proof.
  intros l e h v tm x E. rewrite (Hpassive l e h v tm E). simpl. tauto.
Qed.





End PassiveListenerFacts.

(** X3.  With listeners that leave the clock alone (as the four layers
    do), a pass delivers each of its ticks to every subscribed listener in
    subscription order, tick after tick, and changes neither the listener
    array nor the tempo. *)
Theorem passive_pass_serves_in_subscription_order :
  forall (impl : Clock.listener -> Clock.ClockListener) (c : Clock.t)
         (now : Q),
  passive impl ->
  let out := Clock.schedule impl now c in
  snd out
  = Clock.pass_trace impl (Clock.startTime c) (Clock.tickDuration c)
      (Clock.lastScheduledTick c + 1)
      (repeat (Clock.listeners c)
         (Z.to_nat (Clock.targetTick now c - Clock.lastScheduledTick c))) /\
  Clock.listeners (fst out) = Clock.listeners c /\
  Clock.bpm (fst out) = Clock.bpm c.
Proof.
  intros impl c now Hp out. apply schedule_passive. exact Hp.
Qed.

Lemma passive_pass_serves_in_subscription_order_witness :
  map Clock.who (snd (Clock.schedule quiet 0 (trio 88)))
  = [0%nat; 0%nat; 0%nat; 0%nat; 1%nat; 1%nat; 1%nat; 1%nat;
     2%nat; 2%nat; 2%nat; 2%nat].
Proof.
  rewrite (proj1 (passive_pass_serves_in_subscription_order quiet (trio 88)
                    0%Q quiet_passive)).
  reflexivity.
Defined.



Section SubscriptionFacts.

Import Clock.

Lemma indexOf_None (l : listener) (ls : list listener) :
  indexOf l ls = None <-> ~ In l ls.
Proof.
  induction ls as [| y ls IH]; simpl; [tauto |].
  destruct (Nat.eqb_spec y l) as [E | E].
  - split; [discriminate | intros H; exfalso; apply H; left; exact E].
  - destruct (indexOf l ls) as [i |]; simpl.
    + split; [discriminate |]. intros H. exfalso.
      assert (~ In l ls) by tauto. apply IH in H0. discriminate.
    + split; [| reflexivity]. intros _ [H | H]; [contradiction |].
      apply IH in H; [exact H | reflexivity].
Qed.

Lemma indexOf_app_new (l : listener) (ls : list listener) :
  ~ In l ls -> indexOf l (ls ++ [l]) = Some (length ls).
Proof.
  induction ls as [| y ls IH]; intros H; simpl.
  - rewrite Nat.eqb_refl. reflexivity.
  - destruct (Nat.eqb_spec y l) as [E | E].
    + exfalso. apply H. left. exact E.
    + rewrite IH; [reflexivity |]. intros Hl. apply H. right. exact Hl.
Qed.

Lemma splice1_last (l : listener) (ls : list listener) :
  splice1 (length ls) (ls ++ [l]) = ls.
Proof.
  induction ls as [| y ls IH]; simpl; [reflexivity |]. rewrite IH.
  reflexivity.
Qed.

(** Taking out the first occurrence of [l]: one [l] fewer, the rest as it
    was. *)
Lemma splice1_first_count (l : listener) (ls : list listener) : forall i x,
  indexOf l ls = Some i ->
  count_occ Nat.eq_dec (splice1 i ls) x
  = if Nat.eqb x l then pred (count_occ Nat.eq_dec ls x)
    else count_occ Nat.eq_dec ls x.
Proof.
  induction ls as [| y ls IH]; intros i x H; simpl in H; [discriminate |].
  destruct (Nat.eqb_spec y l) as [E | E].
  - injection H as <-. subst y. simpl.
    destruct (Nat.eq_dec l x) as [D | D].
    + subst x. rewrite Nat.eqb_refl. reflexivity.
    + destruct (Nat.eqb_spec x l); [congruence | reflexivity].
  - destruct (indexOf l ls) as [j |] eqn:Ej; simpl in H; [| discriminate].
    injection H as <-. simpl. specialize (IH j x eq_refl).
    destruct (Nat.eq_dec y x) as [D | D].
    + subst x. destruct (Nat.eqb_spec y l); [contradiction |].
      rewrite IH. reflexivity.
    + exact IH.
Qed.

Lemma splice1_first_others (l : listener) (ls : list listener) : forall i,
  indexOf l ls = Some i ->
  filter (fun x => negb (Nat.eqb x l)) (splice1 i ls)
  = filter (fun x => negb (Nat.eqb x l)) ls.
Proof.
  induction ls as [| y ls IH]; intros i H; simpl in H; [discriminate |].
  destruct (Nat.eqb_spec y l) as [E | E].
  - injection H as <-. simpl. subst y. rewrite Nat.eqb_refl. reflexivity.
  - destruct (indexOf l ls) as [j |] eqn:Ej; simpl in H; [| discriminate].
    injection H as <-. simpl.
    destruct (Nat.eqb_spec y l); [contradiction |]. simpl.
    rewrite (IH j eq_refl). reflexivity.
Qed.

Lemma indexOf_first (l : listener) (pre post : list listener) :
  ~ In l pre -> indexOf l (pre ++ l :: post) = Some (length pre).
Proof.
  induction pre as [| y pre IH]; intros H; simpl.
  - rewrite Nat.eqb_refl. reflexivity.
  - destruct (Nat.eqb_spec y l) as [E | E].
    + exfalso. apply H. left. exact E.
    + rewrite IH; [reflexivity |]. intros G. apply H. right. exact G.
Qed.

Lemma in_split_first (l : listener) (ls : list listener) :
  In l ls -> exists pre post, ls = pre ++ l :: post /\ ~ In l pre.
Proof.
  induction ls as [| y ls IH]; intros H; [contradiction |].
  destruct (Nat.eq_dec y l) as [E | E].
  - subst y. exists [], ls. split; [reflexivity | intros []].
  - destruct H as [H | H]; [contradiction |].
    destruct (IH H) as [pre [post [E1 E2]]].
    exists (y :: pre), post. split; [rewrite E1; reflexivity |].
    intros [G | G]; [contradiction | exact (E2 G)].
Qed.

Lemma splice1_middle (l : listener) (pre post : list listener) :
  splice1 (length pre) (pre ++ l :: post) = pre ++ post.
Proof.
  induction pre as [| y pre IH]; simpl; [reflexivity |].
  rewrite IH. reflexivity.
Qed.

End SubscriptionFacts.

(** X5.  [unsubscribe(l)] takes out one subscription of [l], the earliest,
    and nothing else: when [l] is subscribed the listeners before its first
    subscription and those after it, later subscriptions of [l] among them,
    stay as they are and in their order, and the tempo and the counters are
    untouched; [l] is subscribed once less, every other listener as often
    as before; on a listener that is not subscribed it changes nothing; and
    undoing a first subscription gives the clock back as it was. *)
Theorem unsubscribe_removes_one_subscription :
  forall (c : Clock.t) (l : Clock.listener),
  (forall pre post,
     Clock.listeners c = pre ++ l :: post -> ~ In l pre ->
     Clock.listeners (Clock.unsubscribe l c) = pre ++ post /\
     Clock.unsubscribe l c = Clock.with_listeners (pre ++ post) c) /\
  (In l (Clock.listeners c) ->
   exists pre post,
     Clock.listeners c = pre ++ l :: post /\ ~ In l pre /\
     Clock.listeners (Clock.unsubscribe l c) = pre ++ post) /\
  (forall x,
     count_occ Nat.eq_dec (Clock.listeners (Clock.unsubscribe l c)) x
     = if Nat.eqb x l
       then pred (count_occ Nat.eq_dec (Clock.listeners c) x)
       else count_occ Nat.eq_dec (Clock.listeners c) x) /\
  filter (fun x => negb (Nat.eqb x l)) (Clock.listeners (Clock.unsubscribe l c))
  = filter (fun x => negb (Nat.eqb x l)) (Clock.listeners c) /\
  (~ In l (Clock.listeners c) ->
   Clock.unsubscribe l c = c /\
   Clock.listeners (Clock.unsubscribe l (Clock.subscribe l c))
   = Clock.listeners c).
Proof.
  intros c l.
  assert (First : forall pre post,
            Clock.listeners c = pre ++ l :: post -> ~ In l pre ->
            Clock.listeners (Clock.unsubscribe l c) = pre ++ post /\
            Clock.unsubscribe l c = Clock.with_listeners (pre ++ post) c).
  { intros pre post E H. unfold Clock.unsubscribe.
    rewrite E, (indexOf_first l pre post H), splice1_middle.
    split; reflexivity. }
  split; [exact First |]. split.
  { intros Hin. destruct (in_split_first l (Clock.listeners c) Hin)
      as [pre [post [E H]]].
    exists pre, post. split; [exact E |]. split; [exact H |].
    apply (First pre post E H). }
  unfold Clock.unsubscribe at 1 2.
  destruct (Clock.indexOf l (Clock.listeners c)) as [i |] eqn:Ei.
  - split; [| split].
    + intros x. simpl. apply splice1_first_count. exact Ei.
    + simpl. apply splice1_first_others. exact Ei.
    + intros H. apply indexOf_None in H. congruence.
  - split; [| split].
    + intros x. destruct (Nat.eqb_spec x l) as [-> | _]; [| reflexivity].
      apply indexOf_None in Ei.
      rewrite (proj1 (count_occ_not_In Nat.eq_dec _ _) Ei). reflexivity.
    + reflexivity.
    + intros H. split.
      * unfold Clock.unsubscribe. rewrite Ei. reflexivity.
      * unfold Clock.unsubscribe, Clock.subscribe. simpl.
        rewrite (indexOf_app_new l _ H). simpl. apply splice1_last.
Qed.

(** Listener 1 subscribed a second time to the clock of the listeners 0, 1
    and 2: [unsubscribe(1)] takes out the subscription between 0 and 2 and
    leaves the later one. *)
Lemma unsubscribe_removes_one_subscription_witness :
  Clock.listeners (Clock.subscribe 1%nat (trio 88))
  = [0%nat; 1%nat; 2%nat; 1%nat] /\
  Clock.listeners (Clock.unsubscribe 1%nat (Clock.subscribe 1%nat (trio 88)))
  = [0%nat; 2%nat; 1%nat].
Proof.
  split; [reflexivity |].
  apply (proj1 (unsubscribe_removes_one_subscription
                  (Clock.subscribe 1%nat (trio 88)) 1%nat)
           [0%nat] [2%nat; 1%nat]).
  - reflexivity.
  - simpl. intuition discriminate.
Defined.

(** X6.  The three durations of the clock agree with its grid: a beat
    lasts four ticks and a bar sixteen, so that the ideal time of the tick
    that opens beat [b] is [startTime + b * beatDuration] and that of the
    tick that opens bar [k] is [startTime + k * barDuration]. *)
Theorem durations_agree_with_grid :
  forall (c : Clock.t) (b : Z),
  (Clock.beatDuration c == 4 * Clock.tickDuration c)%Q /\
  (Clock.barDuration c == 16 * Clock.tickDuration c)%Q /\
  (Clock.ideal (Clock.startTime c) (Clock.tickDuration c) (4 * b)
   == Clock.startTime c + inject_Z b * Clock.beatDuration c)%Q /\
  (Clock.ideal (Clock.startTime c) (Clock.tickDuration c) (16 * b)
   == Clock.startTime c + inject_Z b * Clock.barDuration c)%Q /\
  Clock.boundary Clock.beat (4 * b) = true /\
  Clock.boundary Clock.bar (16 * b) = true.
Proof.
  intros c b.
  unfold Clock.barDuration, Clock.beatDuration, Clock.tickDuration,
    Clock.ideal, Clock.ticksPerBeat, Clock.beatsPerBar.
  set (x := (60 / Clock.bpm c)%Q).
  assert (H4 : (inject_Z (4 * b) == 4 * inject_Z b)%Q)
    by (rewrite inject_Z_mult; reflexivity).
  assert (H16 : (inject_Z (16 * b) == 16 * inject_Z b)%Q)
    by (rewrite inject_Z_mult; reflexivity).
  assert (R4 : Z.rem (4 * b) 4 = 0)
    by (rewrite Z.mul_comm; apply Z.rem_mul; discriminate).
  assert (R16 : Z.rem (16 * b) 4 = 0).
  { replace (16 * b) with (4 * b * 4) by lia. apply Z.rem_mul. discriminate. }
  assert (D16 : 16 * b / 4 = 4 * b).
  { replace (16 * b) with (4 * b * 4) by lia. apply Z.div_mul. discriminate. }
  repeat split.
  - field.
  - change (inject_Z 4) with 4%Q. field.
  - rewrite H4. change (inject_Z 4) with 4%Q. field.
  - rewrite H16. change (inject_Z 4) with 4%Q. field.
  - unfold Clock.boundary. rewrite R4. reflexivity.
  - unfold Clock.boundary. rewrite R16, D16, R4. reflexivity.
Qed.

(* --------------------------------------------------------------------- *)
(** ** The modulator and the bank                                         *)
(* --------------------------------------------------------------------- *)

(** X7.  [getValue] and [getNormalized] read one signal: the value is the
    base plus the range times the normalized reading stretched from
    [0, 1] to [-1, 1]; the normalized reading does not depend on the base
    or on the range, whatever [setBase] and [setRange] calls came before;
    and with the range set to 0 the value is the base. *)
Theorem value_is_affine_in_normalized :
  forall (m : Modulation.Modulator) (t b x : Q),
  (Modulation.getValue m t
   == Modulation.base (Modulation.config m)
      + Modulation.range (Modulation.config m)
        * (2 * Modulation.getNormalized m t - 1))%Q /\
  Modulation.getNormalized (Modulation.setBase b m) t
  = Modulation.getNormalized m t /\
  Modulation.getNormalized (Modulation.setRange x m) t
  = Modulation.getNormalized m t /\
  (Modulation.getValue (Modulation.setBase b m) t
   == Modulation.getValue m t + (b - Modulation.base (Modulation.config m)))%Q
  /\
  (Modulation.getValue (Modulation.setRange 0 m) t
   == Modulation.base (Modulation.config m))%Q.
Proof.
  intros m t b x.
  unfold Modulation.getValue, Modulation.getNormalized. simpl.
  set (n := Modulation.noise2D m _ _).
  repeat split; try reflexivity; field.
Qed.

Section BankFacts.

Import ModulationBank.

Lemma get_set_same (name : String.string) (m : Modulation.Modulator) (b : t) :
  get name (set name m b) = Some m.
Proof.
  induction b as [| [k v] b IH]; simpl.
  - rewrite String.eqb_refl. reflexivity.
  - destruct (String.eqb k name) eqn:E; simpl; rewrite E;
      [reflexivity | exact IH].
Qed.

Lemma get_set_other (name other : String.string) (m : Modulation.Modulator)
      (b : t) :
  other <> name -> get other (set name m b) = get other b.
Proof.
  intros H. induction b as [| [k v] b IH]; simpl.
  - destruct (String.eqb_spec name other); [congruence | reflexivity].
  - destruct (String.eqb_spec k name) as [E | E]; simpl.
    + subst k. destruct (String.eqb_spec name other); [congruence |].
      reflexivity.
    + destruct (String.eqb k other); [reflexivity | exact IH].
Qed.

Lemma set_keeps_length (name : String.string) (m : Modulation.Modulator)
      (b : t) :
  get name b <> None -> length (set name m b) = length b.
Proof.
  induction b as [| [k v] b IH]; simpl; intros H; [congruence |].
  destruct (String.eqb k name); simpl; [reflexivity |].
  rewrite IH; [reflexivity | exact H].
Qed.

Variable noiseDraws : nat.
Variable createNoise2D : (nat -> Q) -> Q -> Q -> Q.
Hypothesis noise_bounded :
  forall d x y, (-1 <= createNoise2D d x y <= 1)%Q.

Lemma constructor_noise_bounded cfg r x y :
  (-1 <= Modulation.noise2D
           (fst (Modulation.constructor noiseDraws createNoise2D cfg r)) x y
   <= 1)%Q.
Proof.
  unfold Modulation.constructor.
  destruct (Modulation.seed cfg); simpl; apply noise_bounded.
Qed.

Lemma set_bounded (name : String.string) (m : Modulation.Modulator) (b : t) :
  (forall x y, (-1 <= Modulation.noise2D m x y <= 1)%Q) ->
  Forall (fun e => forall x y,
            (-1 <= Modulation.noise2D (snd e) x y <= 1)%Q) b ->
  Forall (fun e => forall x y,
            (-1 <= Modulation.noise2D (snd e) x y <= 1)%Q) (set name m b).
Proof.
  intros Hm Hb. induction Hb as [| [k v] b Hv Hb IH]; simpl.
  - constructor; [exact Hm | constructor].
  - destruct (String.eqb k name); constructor; assumption.
Qed.

Lemma build_bounded (adds : list (String.string * Modulation.ModulatorConfig)) :
  forall b r,
  Forall (fun e => forall x y,
            (-1 <= Modulation.noise2D (snd e) x y <= 1)%Q) b ->
  Forall (fun e => forall x y,
            (-1 <= Modulation.noise2D (snd e) x y <= 1)%Q)
         (fst (build noiseDraws createNoise2D adds b r)).
Proof.
  induction adds as [| [name cfg] adds IH]; intros b r Hb; simpl;
    [exact Hb |].
  unfold add.
  pose proof (constructor_noise_bounded cfg r) as Hc.
  destruct (Modulation.constructor noiseDraws createNoise2D cfg r) as [m r1].
  simpl in Hc. apply IH. apply set_bounded; assumption.
Qed.

Lemma normalized_bound (m : Modulation.Modulator) (time : Q) :
  (forall x y, (-1 <= Modulation.noise2D m x y <= 1)%Q) ->
  (0 <= Modulation.getNormalized m time <= 1)%Q.
Proof.
  intros H. unfold Modulation.getNormalized.
  specialize (H (time * Modulation.speed (Modulation.config m))%Q
                (Modulation.offset m)).
  split; [apply Qle_shift_div_l | apply Qle_shift_div_r]; lra.
Qed.

Lemma get_In (name : String.string) (b : t) (m : Modulation.Modulator) :
  get name b = Some m -> In (name, m) b.
Proof.
  induction b as [| [k v] b IH]; simpl; intros H; [discriminate |].
  destruct (String.eqb_spec k name) as [E | E].
  - injection H as ->. left. congruence.
  - right. apply IH. exact H.
Qed.

End BankFacts.

(** X8.  The bank is a map from names to modulators: [add] constructs a
    modulator and files it under its name, replacing the one that was
    there and leaving every other name alone; [getValue] and
    [getNormalized] of a name that was never added return 0 and 0.5; and
    in a bank made by [add] calls alone, with a noise function that stays
    in [-1, 1], [getNormalized] is in [0, 1] for every name and time. *)
Theorem bank_lookup_and_defaults :
  forall (noiseDraws : nat) (createNoise2D : (nat -> Q) -> Q -> Q -> Q)
         (name : String.string) (cfg : Modulation.ModulatorConfig)
         (b : ModulationBank.t) (r : Modulation.Random) (time : Q),
  let '(m, b', r') :=
    ModulationBank.add noiseDraws createNoise2D name cfg b r in
  ModulationBank.get name b' = Some m /\
  ModulationBank.getValue name time b' = Modulation.getValue m time /\
  (forall other, other <> name ->
     ModulationBank.get other b' = ModulationBank.get other b /\
     ModulationBank.getValue other time b'
     = ModulationBank.getValue other time b) /\
  (ModulationBank.get name b <> None -> length b' = length b) /\
  (forall missing, ModulationBank.get missing b = None ->
     ModulationBank.getValue missing time b = 0%Q /\
     ModulationBank.getNormalized missing time b = 0.5%Q) /\
  ((forall d x y, (-1 <= createNoise2D d x y <= 1)%Q) ->
   forall adds r0 any,
     (0 <= ModulationBank.getNormalized any time
             (fst (ModulationBank.build noiseDraws createNoise2D adds [] r0))
      <= 1)%Q).
Proof.
  intros noiseDraws createNoise2D name cfg b r time.
  unfold ModulationBank.add.
  destruct (Modulation.constructor noiseDraws createNoise2D cfg r) as [m r1].
  split; [apply get_set_same |].
  split; [unfold ModulationBank.getValue; rewrite get_set_same; reflexivity |].
  split.
  { intros other H. unfold ModulationBank.getValue.
    rewrite (get_set_other name other m b H). split; reflexivity. }
  split; [apply set_keeps_length |].
  split.
  { intros missing H. unfold ModulationBank.getValue,
      ModulationBank.getNormalized. rewrite H. split; reflexivity. }
  intros Hn adds r0 any.
  pose proof (build_bounded noiseDraws createNoise2D Hn adds [] r0
                (Forall_nil _)) as HB.
  unfold ModulationBank.getNormalized.
  destruct (ModulationBank.get any _) as [m0 |] eqn:E.
  - apply get_In in E. rewrite Forall_forall in HB.
    specialize (HB _ E). simpl in HB.
    apply normalized_bound. exact HB.
  - split; discriminate.
Qed.

Lemma toyNoise_bounded (d : nat -> Q) (x y : Q) :
  (-1 <= toyNoise d x y <= 1)%Q.
Proof.
  unfold toyNoise. split.
  - apply Q.le_max_l.
  - apply Q.max_lub; [discriminate | apply Q.le_min_l].
Qed.

Section BankExample.

Import String.

Lemma bank_lookup_and_defaults_witness :
  let r0 := Modulation.mkRandom (fun _ => 0.5%Q) 0 in
  let b := fst (ModulationBank.build 255 toyNoise
                  [("filter"%string, Modulation.slow 700 350);
                   ("velocity"%string, Modulation.medium 0.5 0.1)] [] r0) in
  ModulationBank.getValue "detune"%string 3 b = 0%Q /\
  (0 <= ModulationBank.getNormalized "filter"%string 3 b <= 1)%Q.
Proof.
  intros r0 b.
  pose proof (bank_lookup_and_defaults 255 toyNoise "filter"%string
                (Modulation.slow 700 350) b r0 3%Q) as H.
  destruct (ModulationBank.add 255 toyNoise "filter"%string
              (Modulation.slow 700 350) b r0) as [[m b'] r'].
  destruct H as [_ [_ [_ [_ [Hmiss Hb]]]]].
  split.
  - apply (Hmiss "detune"%string). reflexivity.
  - apply (Hb toyNoise_bounded).
Defined.

End BankExample.

(* --------------------------------------------------------------------- *)
(** ** The tracker                                                        *)
(* --------------------------------------------------------------------- *)

Section TrackerPrefixFacts.

Import Diagnostics.

Lemma balance_app (a b : list Call) : balance (a ++ b) = balance a + balance b.
Proof.
  unfold balance. rewrite total_created_app, total_cleaned_app. lia.
Qed.

(** Where a prefix ends in a list made of two parts. *)
Lemma prefix_of_app (a b pre post : list Call) :
  a ++ b = pre ++ post ->
  (exists l, a = pre ++ l) \/ (exists l, pre = a ++ l /\ b = l ++ post).
Proof.
  revert pre. induction a as [| x a IH]; intros pre H; simpl in H.
  - right. exists pre. split; [reflexivity | exact H].
  - destruct pre as [| y pre]; simpl in H.
    + left. exists (x :: a). reflexivity.
    + injection H as -> H. destruct (IH pre H) as [[l ->] | [l [-> ->]]].
      * left. exists l. reflexivity.
      * right. exists l. split; reflexivity.
Qed.

Lemma matched_prefix (cs : list Call) :
  Matched cs -> Forall counted cs ->
  forall pre post, cs = pre ++ post -> 0 <= balance pre.
Proof.
  induction 1 as [| n a b c HM IH]; intros HF pre post E.
  - destruct pre; [unfold balance; simpl; lia | discriminate].
  - assert (Hn : 0 <= count_arg n).
    { apply Forall_app in HF. destruct HF as [_ HF].
      inversion HF as [| ? ? Hc _]; subst. exact Hc. }
    assert (HF' : Forall counted (a ++ b ++ c)).
    { apply Forall_app in HF. destruct HF as [Ha HF].
      inversion HF as [| ? ? _ HF1]; subst.
      apply Forall_app in HF1. destruct HF1 as [Hb HF2].
      inversion HF2 as [| ? ? _ Hc]; subst.
      apply Forall_app. split; [exact Ha |].
      apply Forall_app. split; assumption. }
    specialize (IH HF').
    destruct (prefix_of_app _ _ _ _ E) as [[l ->] | [l [-> E1]]].
    + apply (IH pre (l ++ b ++ c)). rewrite <- app_assoc. reflexivity.
    + destruct l as [| x l]; simpl in E1.
      * rewrite app_nil_r. apply (IH a (b ++ c)). reflexivity.
      * injection E1 as <- E1.
        destruct (prefix_of_app _ _ _ _ E1) as [[l' ->] | [l' [-> E2]]].
        -- assert (P : 0 <= balance (a ++ l)).
           { apply (IH (a ++ l) (l' ++ c)). rewrite <- !app_assoc.
             reflexivity. }
           unfold balance in *.
           rewrite total_created_app, total_cleaned_app in *. simpl. lia.
        -- destruct l' as [| y l']; simpl in E2.
           ++ assert (P : 0 <= balance (a ++ b)).
              { apply (IH (a ++ b) c). rewrite <- app_assoc. reflexivity. }
              rewrite app_nil_r. unfold balance in *.
              rewrite total_created_app, total_cleaned_app in *. simpl. lia.
           ++ injection E2 as <- ->.
              assert (P : 0 <= balance (a ++ b ++ l')).
              { apply (IH (a ++ b ++ l') post). rewrite <- !app_assoc.
                reflexivity. }
              unfold balance in *.
              rewrite !total_created_app, !total_cleaned_app in *. simpl.
              rewrite !total_created_app, !total_cleaned_app. simpl. lia.
Qed.

Lemma run_balance (cs : list Call) :
  weight cs < 2 ^ 53 ->
  getActive (run cs initial) = balance cs.
Proof.
  intros H. unfold balance.
  destruct (run_initial cs H) as [_ [_ H3]]. exact H3.
Qed.

Lemma counted_totals (cs : list Call) :
  Forall counted cs -> 0 <= total_created cs /\ 0 <= total_cleaned cs.
Proof.
  induction 1 as [| c cs Hc _ IH]; simpl; [lia |].
  destruct c as [n | n]; simpl in *; lia.
Qed.

(** While the sums stay safe, the running counters never go down under
    counts that are not negative. *)
Lemma run_monotone (cs : list Call) (nc : NodeCounter) :
  Forall counted cs ->
  Z.abs (created nc) + Z.abs (cleaned nc) + weight cs < 2 ^ 53 ->
  created nc <= created (run cs nc) /\ cleaned nc <= cleaned (run cs nc).
Proof.
  intros HF H.
  destruct (run_totals cs nc H) as [H1 H2].
  destruct (counted_totals cs HF) as [P1 P2]. lia.
Qed.

Lemma active_never_negative_core (cs : list Call) (k : nat) :
  weight cs < 2 ^ 53 ->
  Matched cs -> Forall counted cs ->
  0 <= getActive (run (firstn k cs) initial).
Proof.
  intros Hs HM HF. rewrite run_balance.
  - apply (matched_prefix cs HM HF (firstn k cs) (skipn k cs)).
    symmetry. apply firstn_skipn.
  - pose proof (weight_firstn cs k). lia.
Qed.

End TrackerPrefixFacts.

(** X9.  When every [create] is matched by a later [cleanup] of the same
    count, the counts are whole numbers, none negative, and add up to less
    than 2^53 (so that every sum is exact), [getActive()] is never negative
    at any point of the sequence; and under such counts the two running
    totals of [getStats()] never go down. *)
Theorem active_never_negative :
  forall (cs : list Diagnostics.Call) (k : nat),
  Forall counted cs ->
  Diagnostics.weight cs < 2 ^ 53 ->
  (Diagnostics.Matched cs ->
   0 <= Diagnostics.getActive
          (Diagnostics.run (firstn k cs) Diagnostics.initial)) /\
  (forall nc,
     Z.abs (Diagnostics.created nc) + Z.abs (Diagnostics.cleaned nc)
     + Diagnostics.weight cs < 2 ^ 53 ->
     Diagnostics.stats_created (Diagnostics.getStats nc)
     <= Diagnostics.stats_created
          (Diagnostics.getStats (Diagnostics.run cs nc)) /\
     Diagnostics.stats_cleaned (Diagnostics.getStats nc)
     <= Diagnostics.stats_cleaned
          (Diagnostics.getStats (Diagnostics.run cs nc))).
Proof.
  intros cs k HF Hs. split.
  - intros HM. apply active_never_negative_core; assumption.
  - intros nc Hn. apply (run_monotone cs nc HF Hn).
Qed.

Lemma active_never_negative_witness :
  0 <= Diagnostics.getActive
         (Diagnostics.run
            (firstn 3
               [Diagnostics.Create (Some 2); Diagnostics.Create (Some 6);
                Diagnostics.Cleanup (Some 2); Diagnostics.Cleanup (Some 6)])
            Diagnostics.initial).
Proof.
  apply (proj1 (active_never_negative
                  [Diagnostics.Create (Some 2); Diagnostics.Create (Some 6);
                   Diagnostics.Cleanup (Some 2); Diagnostics.Cleanup (Some 6)]
                  3%nat
                  ltac:(repeat constructor; simpl; lia)
                  ltac:(reflexivity))).
  apply (Diagnostics.Matched_pair (Some 2) []
           [Diagnostics.Create (Some 6)] [Diagnostics.Cleanup (Some 6)]).
  apply (Diagnostics.Matched_pair (Some 6) [] [] []).
  apply Diagnostics.Matched_nil.
Defined.

(* --------------------------------------------------------------------- *)
(** ** The beat layer                                                     *)
(* --------------------------------------------------------------------- *)

Section BeatTickFacts.

Import Host.
Local Open Scope Q_scope.

(** What [onTick] comes down to: nothing, a kick or a ghost kick, at the
    tick's time plus the swing offset. *)
Lemma onTick_cases (L : Beat.BeatLayer) (tk : Z) (tm : Q) (w : World) :
  Beat.onTick L tk tm w = w \/
  (exists off, Beat.onTick L tk tm w = Beat.playKick L (tm + off) 0.55 w) \/
  (exists off, Beat.onTick L tk tm w = Beat.playGhostKick L (tm + off) w).
Proof.
  unfold Beat.onTick.
  destruct (Beat.steps L) as [| s0 ss]; [left; reflexivity |].
  set (i := Z.rem tk (Z.of_nat (length (s0 :: ss)))).
  destruct ((0 <=? i)%Z && nth (Z.to_nat i) (s0 :: ss) false).
  - right. left. eexists. reflexivity.
  - match goal with
    | |- context [if ?b then Beat.playGhostKick _ _ _ else _] => destruct b
    end.
    + right. right. eexists. reflexivity.
    + left. reflexivity.
Qed.

(** On the patterns of [getPattern] every step that plays is an even
    step. *)
Lemma playing_steps_are_even (p : Beat.PatternType) (tk : Z) :
  (0 <= tk)%Z ->
  let i := Z.rem tk 16 in
  nth (Z.to_nat i) (Beat.getPattern p) false = true \/
  ((i =? 2) || (i =? 6) || (i =? 10) || (i =? 14))%Z = true ->
  (Z.rem i 2 =? 1)%Z = false.
Proof.
  intros Htk i.
  assert (Hi : (0 <= i < 16)%Z) by (apply Z.rem_bound_pos; lia).
  assert (E : (i = 0 \/ i = 1 \/ i = 2 \/ i = 3 \/ i = 4 \/ i = 5 \/ i = 6 \/
               i = 7 \/ i = 8 \/ i = 9 \/ i = 10 \/ i = 11 \/ i = 12 \/
               i = 13 \/ i = 14 \/ i = 15)%Z) by lia.
  clearbody i.
  repeat (destruct E as [-> | E]); try subst i;
    destruct p; simpl; intros [H | H]; try discriminate; reflexivity.
Qed.

(** With a pattern of [getPattern] and a tick that is not negative the
    swing offset is 0 whenever something plays. *)
Lemma onTick_pattern (L : Beat.BeatLayer) (p : Beat.PatternType) (tk : Z)
      (tm : Q) (w : World) :
  Beat.steps L = Beat.getPattern p -> (0 <= tk)%Z ->
  Beat.onTick L tk tm w = w \/
  Beat.onTick L tk tm w = Beat.playKick L (tm + 0) 0.55 w \/
  Beat.onTick L tk tm w = Beat.playGhostKick L (tm + 0) w.
Proof.
  intros Hs Htk. unfold Beat.onTick. rewrite Hs.
  assert (Hl : length (Beat.getPattern p) = 16%nat)
    by (destruct p; reflexivity).
  destruct (Beat.getPattern p) as [| s0 ss] eqn:Ep; [discriminate |].
  rewrite Hl. change (Z.of_nat 16) with 16%Z.
  pose proof (playing_steps_are_even p tk Htk) as Hev. cbv zeta in Hev.
  rewrite Ep in Hev.
  set (i := Z.rem tk 16) in *.
  assert (Hi : (0 <= i)%Z) by (apply Z.rem_nonneg; lia).
  apply Z.leb_le in Hi. rewrite Hi, andb_true_l.
  destruct (nth (Z.to_nat i) (s0 :: ss) false) eqn:K.
  - rewrite (Hev (or_introl eq_refl)), andb_false_r. right. left. reflexivity.
  - destruct ((i =? 2) || (i =? 6) || (i =? 10) || (i =? 14))%Z eqn:G.
    + rewrite (Hev (or_intror eq_refl)), andb_false_r, andb_true_l.
      destruct (Beat.Qpos _); [right; right; reflexivity | left; reflexivity].
    + left. reflexivity.
Qed.

End BeatTickFacts.

(** X10.  The swing of a kit never takes effect: on each of the patterns
    that [getPattern] returns, the steps that play a kick and the steps
    that can play a ghost kick are even steps, and the offset is added on
    odd steps only.  So for every kit, every tick from 0 on and every
    state of the ghost modulator, whatever [onTick] starts, it starts at
    the tick's own time, and the sidechain is asked for at that time. *)
Theorem swing_never_takes_effect :
  forall (L : Beat.BeatLayer) (p : Beat.PatternType) (tk : Z) (tm : Q)
         (w : Host.World),
  Beat.steps L = Beat.getPattern p ->
  0 <= tk ->
  exists new asked,
    Host.units (Beat.onTick L tk tm w) = Host.units w ++ new /\
    Host.sidechain (Beat.onTick L tk tm w) = Host.sidechain w ++ asked /\
    Forall (fun u => (Host.sourceStart u == tm)%Q) new /\
    Forall (fun t => (t == tm)%Q) asked.
Proof.
  intros L p tk tm w Hs Htk.
  assert (Z0 : (tm + 0 == tm)%Q) by apply Qplus_0_r.
  destruct (onTick_pattern L p tk tm w Hs Htk) as [E | [E | E]]; rewrite E.
  - exists [], []. rewrite !app_nil_r. repeat split; constructor.
  - unfold Beat.playKick.
    destruct (Beat.Qpos (Beat.clickAmount _)), (Beat.Qpos (Beat.noiseAmount _));
      eexists; eexists;
      (split; [simpl; rewrite <- ?app_assoc; simpl; reflexivity |]);
      (split; [simpl; reflexivity |]);
      split; repeat constructor; simpl; exact Z0.
  - unfold Beat.playGhostKick. eexists. exists [].
    split; [simpl; reflexivity |]. split; [simpl; rewrite app_nil_r;
                                           reflexivity |].
    split; repeat constructor; simpl; exact Z0.
Qed.

Lemma swing_never_takes_effect_witness :
  let L := Beat.mk Beat.loFi (Beat.getPattern Beat.half_time) ghostModulator
                   None in
  exists new asked,
    Host.units (Beat.onTick L 24 5 silence) = Host.units silence ++ new /\
    Host.sidechain (Beat.onTick L 24 5 silence)
    = Host.sidechain silence ++ asked /\
    Forall (fun u => (Host.sourceStart u == 5)%Q) new /\
    Forall (fun t => (t == 5)%Q) asked.
Proof.
  intros L.
  apply (swing_never_takes_effect L Beat.half_time 24 5%Q silence).
  - reflexivity.
  - discriminate.
Defined.

Section BeatBudgetFacts.

Import Host.

Lemma registrations_cleaned (new : list Transient) :
  forall nc,
  Diagnostics.cleaned (Diagnostics.run (registrations new) nc)
  = Diagnostics.cleaned nc.
Proof.
  unfold Diagnostics.run.
  induction new as [| u new IH]; intros nc; simpl; [reflexivity |].
  rewrite IH. reflexivity.
Qed.

(** While the sum stays a safe integer, registering units adds their
    nodes. *)
Lemma registrations_created (new : list Transient) :
  forall nc,
  Forall (fun u => 0 <= nodes u) new ->
  Z.abs (Diagnostics.created nc) + node_total new < 2 ^ 53 ->
  Diagnostics.created (Diagnostics.run (registrations new) nc)
  = Diagnostics.created nc + node_total new.
Proof.
  unfold Diagnostics.run.
  induction new as [| u new IH]; intros nc HF H; simpl in *; [lia |].
  inversion HF as [| ? ? Hu HF']; subst.
  assert (P : 0 <= node_total new).
  { clear - HF'. induction HF' as [| v l Hv _ IHl]; simpl; lia. }
  assert (E : Diagnostics.plus (Diagnostics.created nc) (nodes u)
              = Diagnostics.created nc + nodes u)
    by (apply toDouble_safe; lia).
  rewrite IH; [| exact HF' | simpl; rewrite E; lia].
  simpl. rewrite E. lia.
Qed.

Lemma playKick_world (L : Beat.BeatLayer) (t v : Q) (w : World) :
  exists new,
    units (Beat.playKick L t v w) = units w ++ new /\
    counter (Beat.playKick L t v w)
    = Diagnostics.run (registrations new) (counter w) /\
    sidechain (Beat.playKick L t v w) = sidechain w ++ [t] /\
    wall (Beat.playKick L t v w) = wall w /\
    In (map kind new)
       [[Kick]; [Kick; Click]; [Kick; NoiseBurst];
        [Kick; Click; NoiseBurst]] /\
    Forall (fun u => 0 <= nodes u) new /\
    node_total new <= 10.
Proof.
  unfold Beat.playKick.
  destruct (Beat.Qpos (Beat.clickAmount _)), (Beat.Qpos (Beat.noiseAmount _));
    eexists;
    (split; [simpl; rewrite <- ?app_assoc; simpl; reflexivity |]);
    (split; [reflexivity |]); (split; [reflexivity |]);
    (split; [reflexivity |]);
    (split; [simpl; tauto |]);
    (split; [repeat constructor; simpl; lia | simpl; lia]).
Qed.

Lemma playGhostKick_world (L : Beat.BeatLayer) (t : Q) (w : World) :
  exists new,
    units (Beat.playGhostKick L t w) = units w ++ new /\
    counter (Beat.playGhostKick L t w)
    = Diagnostics.run (registrations new) (counter w) /\
    sidechain (Beat.playGhostKick L t w) = sidechain w /\
    wall (Beat.playGhostKick L t w) = wall w /\
    map kind new = [GhostKick] /\
    Forall (fun u => 0 <= nodes u) new /\
    node_total new <= 10.
Proof.
  unfold Beat.playGhostKick. eexists.
  split; [simpl; reflexivity |].
  repeat split; try reflexivity; [repeat constructor; simpl; lia | simpl; lia].
Qed.

End BeatBudgetFacts.

(** X11.  One [onTick] of the beat layer makes nothing, one ghost kick, or
    one kick with at most its click and its noise burst: at most three
    units and ten nodes.  It registers with the tracker exactly the nodes
    of the units it makes, one [create] for each unit in the order made
    (so that, the counter being a safe integer, [created] grows by their
    number of nodes), cleans none, and asks for the sidechain once when it
    plays a kick and not otherwise. *)
Theorem beat_tick_budget :
  forall (L : Beat.BeatLayer) (tk : Z) (tm : Q) (w : Host.World),
  let w' := Beat.onTick L tk tm w in
  exists new,
    Host.units w' = Host.units w ++ new /\
    In (map Host.kind new)
       [[]; [Host.GhostKick]; [Host.Kick]; [Host.Kick; Host.Click];
        [Host.Kick; Host.NoiseBurst];
        [Host.Kick; Host.Click; Host.NoiseBurst]] /\
    Host.counter w'
    = Diagnostics.run (registrations new) (Host.counter w) /\
    (Z.abs (Diagnostics.created (Host.counter w)) + 10 < 2 ^ 53 ->
     Diagnostics.created (Host.counter w')
     = Diagnostics.created (Host.counter w) + node_total new) /\
    node_total new <= 10 /\
    Diagnostics.cleaned (Host.counter w')
    = Diagnostics.cleaned (Host.counter w) /\
    length (Host.sidechain w')
    = (length (Host.sidechain w) + if existsb is_kick new then 1 else 0)%nat /\
    Host.wall w' = Host.wall w.
Proof.
  intros L tk tm w w'. subst w'.
  destruct (onTick_cases L tk tm w) as [E | [[off E] | [off E]]]; rewrite E.
  - exists []. rewrite app_nil_r. simpl.
    repeat split; try lia; try tauto.
  - destruct (playKick_world L (tm + off)%Q 0.55%Q w)
      as [new [U [C [S [W [K [F N]]]]]]].
    exists new. rewrite C, S, W.
    split; [exact U |]. split; [simpl in K |- *; tauto |].
    split; [reflexivity |].
    split; [intros H; apply registrations_created; [exact F | lia] |].
    split; [exact N |].
    split; [apply registrations_cleaned |].
    split; [| reflexivity].
    rewrite length_app. simpl length. f_equal.
    assert (Hk : existsb is_kick new = true).
    { destruct new as [| u new]; simpl in K.
      - repeat (destruct K as [K | K]; try discriminate). contradiction.
      - assert (Ku : Host.kind u = Host.Kick).
        { repeat (destruct K as [K | K];
                  [injection K as K _; symmetry; exact K |]).
          try contradiction. }
        simpl. unfold is_kick. rewrite Ku. reflexivity. }
    rewrite Hk. reflexivity.
  - destruct (playGhostKick_world L (tm + off)%Q w)
      as [new [U [C [S [W [K [F N]]]]]]].
    exists new. rewrite C, S, W.
    split; [exact U |]. split; [rewrite K; simpl; tauto |].
    split; [reflexivity |].
    split; [intros H; apply registrations_created; [exact F | lia] |].
    split; [exact N |].
    split; [apply registrations_cleaned |].
    split; [| reflexivity].
    assert (Hk : existsb is_kick new = false).
    { destruct new as [| u [| u' new]]; try discriminate.
      simpl in K. injection K as K. simpl. unfold is_kick. rewrite K.
      reflexivity. }
    rewrite Hk. lia.
Qed.

Section BeatEnvelopeFacts.

Import Host.
Local Open Scope Q_scope.

Lemma kick_units_well_formed (L : Beat.BeatLayer) (t v : Q) (w : World) :
  0 < Beat.attack (Beat.kick (Beat.kit L)) ->
  Beat.attack (Beat.kick (Beat.kit L))
  < Beat.decay (Beat.kick (Beat.kit L)) - 0.005 ->
  exists new,
    units (Beat.playKick L t v w) = units w ++ new /\
    Forall well_formed new.
Proof.
  intros Ha Hd. unfold Beat.playKick.
  destruct (Beat.Qpos (Beat.clickAmount _)), (Beat.Qpos (Beat.noiseAmount _));
    eexists;
    (split; [simpl; rewrite <- ?app_assoc; simpl; reflexivity |]);
    repeat constructor; unfold audibleEnd; simpl;
    try (eexists; reflexivity); lra.
Qed.

Lemma ghost_units_well_formed (L : Beat.BeatLayer) (t : Q) (w : World) :
  exists new,
    units (Beat.playGhostKick L t w) = units w ++ new /\
    Forall well_formed new.
Proof.
  unfold Beat.playGhostKick. eexists. split; [simpl; reflexivity |].
  repeat constructor; unfold audibleEnd; simpl;
    try (eexists; reflexivity); lra.
Qed.

End BeatEnvelopeFacts.

(** X12.  For every kit of [DRUM_KITS], every tick and every time, each
    unit that [onTick] makes has an envelope that opens with the gain at 0
    at the start of its oscillators, whose steps are scheduled at strictly
    increasing times, and whose last step (the gain back at 0) comes
    before the oscillators stop. *)
Theorem beat_envelopes_are_well_formed :
  forall (L : Beat.BeatLayer) (tk : Z) (tm : Q) (w : Host.World),
  In (Beat.kit L) Beat.DRUM_KITS ->
  exists new,
    Host.units (Beat.onTick L tk tm w) = Host.units w ++ new /\
    Forall well_formed new.
Proof.
  intros L tk tm w Hk.
  assert (Hk' : (0 < Beat.attack (Beat.kick (Beat.kit L)))%Q /\
                (Beat.attack (Beat.kick (Beat.kit L))
                 < Beat.decay (Beat.kick (Beat.kit L)) - 0.005)%Q).
  { simpl in Hk.
    repeat (destruct Hk as [<- | Hk]; [split; reflexivity |]).
    contradiction. }
  destruct Hk' as [Ha Hd].
  destruct (onTick_cases L tk tm w) as [E | [[off E] | [off E]]]; rewrite E.
  - exists []. rewrite app_nil_r. split; [reflexivity | constructor].
  - apply kick_units_well_formed; assumption.
  - apply ghost_units_well_formed.
Qed.

Lemma beat_envelopes_are_well_formed_witness :
  exists new,
    Host.units (Beat.onTick (technoLayer ghostModulator) 16 3 silence)
    = Host.units silence ++ new /\
    Forall well_formed new.
Proof.
  apply (beat_envelopes_are_well_formed (technoLayer ghostModulator) 16 3%Q
                                        silence).
  simpl. tauto.
Defined.

Section BeatPassFacts.

Import Host.
Local Open Scope Q_scope.

Lemma onTick_wall (L : Beat.BeatLayer) (tk : Z) (tm : Q) (w : World) :
  wall (Beat.onTick L tk tm w) = wall w.
Proof.
  destruct (onTick_cases L tk tm w) as [E | [[off E] | [off E]]]; rewrite E;
    [reflexivity | | reflexivity].
  unfold Beat.playKick.
  destruct (Beat.Qpos (Beat.clickAmount _)), (Beat.Qpos (Beat.noiseAmount _));
    reflexivity.
Qed.

Lemma onTick_kicks (L : Beat.BeatLayer) (p : Beat.PatternType) (tk : Z)
      (tm : Q) (w : World) :
  Beat.steps L = Beat.getPattern p -> (0 <= tk)%Z ->
  tm <= wall w + Clock.scheduleAhead ->
  exists new,
    units (Beat.onTick L tk tm w) = units w ++ new /\
    Forall (fun u => kind u = Kick ->
                     sourceStart u == tm /\ audibleEnd u <= teardownDue u) new.
Proof.
  intros Hs Htk Htm.
  destruct (onTick_pattern L p tk tm w Hs Htk) as [E | [E | E]]; rewrite E.
  - exists []. rewrite app_nil_r. split; [reflexivity | constructor].
  - unfold Beat.playKick.
    set (d := Beat.decay (Beat.kick (Beat.kit L))).
    assert (F : (d + 0.1) * 1000 / 1000 == d + 0.1) by field.
    destruct (Beat.Qpos (Beat.clickAmount _)), (Beat.Qpos (Beat.noiseAmount _));
      eexists;
      (split; [simpl; rewrite <- ?app_assoc; simpl; reflexivity |]);
      repeat constructor; try discriminate;
      unfold audibleEnd, deadline, Clock.scheduleAhead in *; simpl;
      try rewrite F; lra.
  - unfold Beat.playGhostKick. eexists. split; [simpl; reflexivity |].
    repeat constructor; discriminate.
Qed.

Lemma told_kicks (L : Beat.BeatLayer) (p : Beat.PatternType)
      (me : Clock.listener) (now : Q) (tr : list Clock.Call) :
  Beat.steps L = Beat.getPattern p ->
  (forall x, In x tr -> Clock.what x = Clock.tick ->
             (0 <= Clock.value x)%Z /\
             Clock.time x <= now + Clock.scheduleAhead) ->
  forall w, wall w = now ->
  exists new,
    units (fold_left
             (fun w x =>
                if Nat.eqb (Clock.who x) me
                then match Clock.what x with
                     | Clock.tick =>
                       Beat.onTick L (Clock.value x) (Clock.time x) w
                     | _ => w
                     end
                else w) tr w) = units w ++ new /\
    Forall (fun u => kind u = Kick ->
                     (exists x, In x tr /\ sourceStart u == Clock.time x) /\
                     audibleEnd u <= teardownDue u) new.
Proof.
  intros Hs. induction tr as [| x r IH]; intros Htr w Hw.
  - exists []. rewrite app_nil_r. split; [reflexivity | constructor].
  - simpl fold_left.
    assert (Hr : forall y, In y r -> Clock.what y = Clock.tick ->
                 (0 <= Clock.value y)%Z /\
                 Clock.time y <= now + Clock.scheduleAhead).
    { intros y Hy. apply Htr. right. exact Hy. }
    assert (Hweak :
      forall new : list Transient,
      Forall (fun u => kind u = Kick ->
                (exists x, In x r /\ sourceStart u == Clock.time x) /\
                audibleEnd u <= teardownDue u) new ->
      Forall (fun u => kind u = Kick ->
                (exists y, In y (x :: r) /\ sourceStart u == Clock.time y) /\
                audibleEnd u <= teardownDue u) new).
    { intros new. apply Forall_impl. intros u Hu K.
      destruct (Hu K) as [[y [Hy Ey]] Hd].
      split; [exists y; split; [right; exact Hy | exact Ey] | exact Hd]. }
    destruct (Nat.eqb (Clock.who x) me).
    + destruct (Clock.what x) eqn:Ex.
      * destruct (Htr x (or_introl eq_refl) Ex) as [Hv Ht].
        rewrite <- Hw in Ht.
        destruct (onTick_kicks L p (Clock.value x) (Clock.time x) w Hs Hv Ht)
          as [new1 [U1 F1]].
        destruct (IH Hr (Beat.onTick L (Clock.value x) (Clock.time x) w))
          as [new2 [U2 F2]].
        { rewrite onTick_wall. exact Hw. }
        exists (new1 ++ new2). rewrite U2, U1, app_assoc.
        split; [reflexivity |]. apply Forall_app. split.
        -- revert F1. apply Forall_impl. intros u Hu K.
           destruct (Hu K) as [Es Hd].
           split; [exists x; split; [left; reflexivity | exact Es] | exact Hd].
        -- apply Hweak. exact F2.
      * destruct (IH Hr w Hw) as [new [U F]]. exists new.
        split; [exact U | apply Hweak; exact F].
      * destruct (IH Hr w Hw) as [new [U F]]. exists new.
        split; [exact U | apply Hweak; exact F].
      * destruct (IH Hr w Hw) as [new [U F]]. exists new.
        split; [exact U | apply Hweak; exact F].
    + destruct (IH Hr w Hw) as [new [U F]]. exists new.
      split; [exact U | apply Hweak; exact F].
Qed.

End BeatPassFacts.

(** X13.  Clock and beat layer together: in a pass of a clock with a
    positive tempo that has announced no tick before tick 0, told to a
    beat layer that plays a pattern of [getPattern], every kick starts at
    the time of a call of the pass, and its nodes are disconnected no
    earlier than its envelope ends.  (The lookahead of the clock and the
    0.1 s that [playKick] adds to the decay are the same length.) *)
Theorem pass_kicks_outlive_their_envelope :
  forall (impl : Clock.listener -> Clock.ClockListener) (c : Clock.t)
         (now : Q) (L : Beat.BeatLayer) (p : Beat.PatternType)
         (me : Clock.listener) (w : Host.World),
  (0 < Clock.bpm c)%Q ->
  -1 <= Clock.lastScheduledTick c ->
  Beat.steps L = Beat.getPattern p ->
  exists new,
    Host.units (Beat.told L me now (snd (Clock.schedule impl now c)) w)
    = Host.units w ++ new /\
    Forall (fun u =>
              Host.kind u = Host.Kick ->
              (exists x, In x (snd (Clock.schedule impl now c)) /\
                         (Host.sourceStart u == Clock.time x)%Q) /\
              (Host.audibleEnd u <= Host.teardownDue u)%Q) new.
Proof.
  intros impl c now L p me w Hb Hl Hs. unfold Beat.told.
  destruct (told_kicks L p me now (snd (Clock.schedule impl now c)) Hs)
    with (w := Host.at_wall now w) as [new [U F]].
  - intros x Hin Ex. split.
    + destruct (schedule_spec impl now c) as [visits [_ [H _]]].
      rewrite H in Hin.
      destruct (pass_trace_calls impl _ _ visits _ x Hin)
        as [k [Hk [_ [Hv _]]]].
      rewrite Hv, Ex. simpl. lia.
    + apply (announced_within_lookahead impl c now x Hb Hin).
  - reflexivity.
  - exists new. split; [exact U | exact F].
Qed.

Lemma pass_kicks_outlive_their_envelope_witness :
  exists new,
    Host.units (Beat.told (technoLayer ghostModulator) 0%nat (1 # 2)
                  (snd (Clock.schedule quiet (1 # 2)
                          (solo 120))) silence)
    = Host.units silence ++ new /\
    Forall (fun u =>
              Host.kind u = Host.Kick ->
              (exists x, In x (snd (Clock.schedule quiet (1 # 2)
                                      (solo 120))) /\
                         (Host.sourceStart u == Clock.time x)%Q) /\
              (Host.audibleEnd u <= Host.teardownDue u)%Q) new.
Proof.
  apply (pass_kicks_outlive_their_envelope quiet (solo 120)
           (1 # 2) (technoLayer ghostModulator) Beat.four_on_floor 0%nat silence).
  - reflexivity.
  - vm_compute. discriminate.
  - reflexivity.
Defined.

(* --------------------------------------------------------------------- *)
(** ** The arp layer                                                      *)
(* --------------------------------------------------------------------- *)

Section ArpPatternFacts.

Import ArpSeq.
Local Open Scope Q_scope.

(** The templates have 16 entries, each a rest or one of the degrees 0, 2
    and 4. *)
Lemma templates_shape (t : list (option Z)) :
  In t templates ->
  length t = 16%nat /\
  Forall (fun e => e = None \/ e = Some 0%Z \/ e = Some 2%Z \/ e = Some 4%Z) t.
Proof.
  intros H.
  assert (A : forallb
                (fun t =>
                   Nat.eqb (length t) 16 &&
                   forallb (fun e => match e with
                                     | None => true
                                     | Some i =>
                                       ((i =? 0) || (i =? 2) || (i =? 4))%Z
                                     end) t) templates = true)
    by reflexivity.
  rewrite forallb_forall in A. specialize (A t H).
  apply andb_prop in A. destruct A as [A1 A2].
  apply Nat.eqb_eq in A1. split; [exact A1 |].
  apply Forall_forall. intros e He.
  rewrite forallb_forall in A2. specialize (A2 e He).
  destruct e as [i |]; [| left; reflexivity]. right.
  apply orb_prop in A2. destruct A2 as [A2 | A2].
  - apply orb_prop in A2. destruct A2 as [A2 | A2]; apply Z.eqb_eq in A2;
      subst i; tauto.
  - apply Z.eqb_eq in A2. subst i. tauto.
Qed.

(** A draw in [0, 1) picks one of the templates. *)
Lemma pick_template (u : Q) :
  0 <= u < 1 ->
  exists t,
    pick templates (Qfloor (u * inject_Z (Z.of_nat (length templates))))
    = Some t /\
    In t templates.
Proof.
  intros [H0 H1]. change (inject_Z (Z.of_nat (length templates))) with 8.
  assert (F0 : (0 <= Qfloor (u * 8))%Z).
  { change 0%Z with (Qfloor 0). apply Qfloor_resp_le. lra. }
  assert (F1 : (Qfloor (u * 8) < 8)%Z).
  { pose proof (Qfloor_le (u * 8)) as F. rewrite Zlt_Qlt.
    apply Qle_lt_trans with (u * 8); [exact F |].
    change (inject_Z 8) with 8. lra. }
  unfold pick.
  destruct (Qfloor (u * 8) <? 0)%Z eqn:N; [apply Z.ltb_lt in N; lia |].
  destruct (nth_error templates (Z.to_nat (Qfloor (u * 8)))) as [t |] eqn:E.
  - exists t. split; [reflexivity | apply (nth_error_In _ _ E)].
  - apply nth_error_None in E. change (length templates) with 8%nat in E.
    lia.
Qed.

(** The density pass keeps the length and the rests, takes one draw for
    each note of the template, and leaves the stream alone. *)
Lemma thin_spec (d : Q) (t : list (option Z)) :
  forall r,
  Forall2 (fun a b => b = None \/ b = a) t (fst (thin d t r)) /\
  Modulation.draws (snd (thin d t r)) = Modulation.draws r /\
  Modulation.taken (snd (thin d t r))
  = (length (filter (fun e => match e with Some _ => true | None => false end)
                    t)
     + Modulation.taken r)%nat.
Proof.
  induction t as [| [n |] t IH]; intros r; simpl.
  - repeat split. constructor.
  - specialize (IH (Modulation.mkRandom (Modulation.draws r)
                                        (S (Modulation.taken r)))).
    destruct (thin d t _) as [out r2]. simpl in *.
    destruct IH as [F [D T]]. repeat split.
    + constructor; [destruct (Qle_bool d _); tauto | exact F].
    + exact D.
    + rewrite T. lia.
  - specialize (IH r). destruct (thin d t r) as [out r1]. simpl in *.
    destruct IH as [F [D T]]. repeat split.
    + constructor; [tauto | exact F].
    + exact D.
    + exact T.
Qed.

(** With a density of 0 or less every note is removed. *)
Lemma thin_all_rests (d : Q) (t : list (option Z)) :
  d <= 0 ->
  forall r, (forall n, 0 <= Modulation.draws r n) ->
  Forall (eq None) (fst (thin d t r)).
Proof.
  intros Hd. induction t as [| [n |] t IH]; intros r Hr; simpl.
  - constructor.
  - specialize (IH (Modulation.mkRandom (Modulation.draws r)
                                        (S (Modulation.taken r))) Hr).
    destruct (thin d t _) as [out r2]. simpl in *.
    constructor; [| exact IH].
    destruct (Qle_bool d (Modulation.draws r (Modulation.taken r))) eqn:E;
      [reflexivity |].
    assert (Hle : d <= Modulation.draws r (Modulation.taken r)).
    { specialize (Hr (Modulation.taken r)). lra. }
    apply Qle_bool_iff in Hle. congruence.
  - specialize (IH r Hr). destruct (thin d t r) as [out r1]. simpl in *.
    constructor; [reflexivity | exact IH].
Qed.

(** With a density of 1 or more no note is removed. *)
Lemma thin_keeps_all (d : Q) (t : list (option Z)) :
  1 <= d ->
  forall r, (forall n, Modulation.draws r n < 1) ->
  fst (thin d t r) = t.
Proof.
  intros Hd. induction t as [| [n |] t IH]; intros r Hr; simpl.
  - reflexivity.
  - specialize (IH (Modulation.mkRandom (Modulation.draws r)
                                        (S (Modulation.taken r))) Hr).
    destruct (thin d t _) as [out r2]. simpl in *.
    destruct (Qle_bool d (Modulation.draws r (Modulation.taken r))) eqn:E.
    + apply Qle_bool_iff in E. specialize (Hr (Modulation.taken r)). lra.
    + rewrite IH. reflexivity.
  - specialize (IH r Hr). destruct (thin d t r) as [out r1]. simpl in *.
    rewrite IH. reflexivity.
Qed.

(** On a scale of five degrees or more the degrees 0, 2 and 4 are notes of
    the scale in the first octave. *)
Lemma to_step_note (scale : list Z) (i : Z) :
  (5 <= length scale)%nat ->
  i = 0%Z \/ i = 2%Z \/ i = 4%Z ->
  exists z,
    nth_error scale (Z.to_nat i) = Some z /\
    to_step scale (Some i) = note (Some z).
Proof.
  intros Hl Hi. unfold to_step, pick.
  assert (Hi' : (0 <= i < Z.of_nat (length scale))%Z) by lia.
  rewrite (Z.rem_small i _ Hi'), (Z.div_small i _ Hi').
  destruct (i <? 0)%Z eqn:N; [apply Z.ltb_lt in N; lia |].
  destruct (nth_error scale (Z.to_nat i)) as [z |] eqn:E.
  - exists z. split; [reflexivity |]. simpl. rewrite Z.add_0_r. reflexivity.
  - apply nth_error_None in E. lia.
Qed.

Lemma to_step_pattern (scale : list Z) (t out : list (option Z)) :
  (5 <= length scale)%nat ->
  Forall (fun e => e = None \/ e = Some 0%Z \/ e = Some 2%Z \/ e = Some 4%Z)
         t ->
  Forall2 (fun a b => b = None \/ b = a) t out ->
  Forall2
    (fun e s =>
       match e with
       | None => s = rest
       | Some i =>
         s = rest \/
         exists z, nth_error scale (Z.to_nat i) = Some z /\ s = note (Some z)
       end) t (map (to_step scale) out).
Proof.
  intros Hl Ht F. induction F as [| a b t out H F IH]; simpl.
  - constructor.
  - inversion Ht as [| ? ? Ha Ht']; subst.
    constructor; [| apply IH; exact Ht'].
    destruct H as [-> | ->].
    + destruct a; [left |]; reflexivity.
    + destruct a as [i |]; [| reflexivity].
      right. apply to_step_note; [exact Hl |].
      destruct Ha as [Ha | [Ha | [Ha | Ha]]]; inversion Ha; tauto.
Qed.

End ArpPatternFacts.

(** X14.  [generatePattern] of a layer with a preset, on a scale of five
    degrees or more and with [Math.random] in [0, 1): it does not throw; the
    new pattern has the 16 steps of one of the templates; a rest of the
    template is a rest of the pattern, and a note of the template is a rest
    or the note of the scale at that degree, in the first octave (never
    NaN).  With a density of 0 or less the pattern is all rests, with a
    density of 1 or more no note is removed.  One value of [Math.random] is
    taken for the template and one for each of its notes. *)
Theorem generatePattern_follows_a_template :
  forall (scale : list Z) (sq : ArpSeq.Sequencer) (r : Modulation.Random)
         (p : Arp.SynthPreset),
  Arp.preset (ArpSeq.layer sq) = Some p ->
  (5 <= length scale)%nat ->
  (forall n, 0 <= Modulation.draws r n < 1)%Q ->
  exists S' r' template,
    ArpSeq.generatePattern scale sq r = Some (S', r') /\
    In template ArpSeq.templates /\
    length (ArpSeq.pattern S') = 16%nat /\
    ArpSeq.patternLength S' = 16 /\
    Forall2
      (fun e s =>
         match e with
         | None => s = ArpSeq.rest
         | Some i =>
           s = ArpSeq.rest \/
           exists z, nth_error scale (Z.to_nat i) = Some z /\
                     s = ArpSeq.note (Some z)
         end) template (ArpSeq.pattern S') /\
    ((ArpSeq.density sq <= 0)%Q ->
     Forall (eq ArpSeq.rest) (ArpSeq.pattern S')) /\
    ((1 <= ArpSeq.density sq)%Q ->
     ArpSeq.pattern S' = map (ArpSeq.to_step scale) template) /\
    Modulation.taken r'
    = (1 + length (filter (fun e => match e with
                                    | Some _ => true
                                    | None => false
                                    end) template)
       + Modulation.taken r)%nat /\
    ArpSeq.layer S' = ArpSeq.layer sq /\
    ArpSeq.phraseCount S' = ArpSeq.phraseCount sq.
Proof.
  intros scale sq r p Hp Hl Hr. unfold ArpSeq.generatePattern. rewrite Hp.
  unfold Modulation.random.
  destruct (pick_template (Modulation.draws r (Modulation.taken r))
                          (Hr (Modulation.taken r))) as [t [Et Ht]].
  rewrite Et.
  set (r1 := Modulation.mkRandom (Modulation.draws r)
                                 (S (Modulation.taken r))).
  destruct (thin_spec (ArpSeq.density sq) t r1) as [F [D T]].
  destruct (ArpSeq.thin (ArpSeq.density sq) t r1) as [thinned r2] eqn:E.
  simpl fst in *. simpl snd in *.
  destruct (templates_shape t Ht) as [L16 Sh].
  assert (Lt : length thinned = 16%nat).
  { rewrite <- (Forall2_length F). exact L16. }
  eexists. exists r2, t. split; [reflexivity |]. simpl.
  rewrite length_map, Lt.
  repeat split.
  - exact Ht.
  - apply to_step_pattern; assumption.
  - intros Hd.
    assert (A : Forall (eq None) (fst (ArpSeq.thin (ArpSeq.density sq) t r1))).
    { apply thin_all_rests; [exact Hd |]. intros n. apply (Hr n). }
    rewrite E in A. simpl in A. clear - A.
    induction A as [| x l Hx A IH]; simpl; constructor;
      [subst x; reflexivity | exact IH].
  - intros Hd.
    assert (A : fst (ArpSeq.thin (ArpSeq.density sq) t r1) = t).
    { apply thin_keeps_all; [exact Hd |]. intros n. apply (Hr n). }
    rewrite E in A. simpl in A. rewrite A. reflexivity.
  - rewrite T. unfold r1. simpl. lia.
Qed.

Lemma generatePattern_follows_a_template_witness :
  exists S' r' template,
    ArpSeq.generatePattern [0; 3; 5; 7; 10] (warmPadSequencer 88)
                           (Modulation.mkRandom (fun _ => 0.5%Q) 0)
    = Some (S', r') /\
    In template ArpSeq.templates /\
    length (ArpSeq.pattern S') = 16%nat /\
    ArpSeq.patternLength S' = 16 /\
    Forall2
      (fun e s =>
         match e with
         | None => s = ArpSeq.rest
         | Some i =>
           s = ArpSeq.rest \/
           exists z, nth_error [0; 3; 5; 7; 10] (Z.to_nat i) = Some z /\
                     s = ArpSeq.note (Some z)
         end) template (ArpSeq.pattern S') /\
    ((ArpSeq.density (warmPadSequencer 88) <= 0)%Q ->
     Forall (eq ArpSeq.rest) (ArpSeq.pattern S')) /\
    ((1 <= ArpSeq.density (warmPadSequencer 88))%Q ->
     ArpSeq.pattern S' = map (ArpSeq.to_step [0; 3; 5; 7; 10]) template) /\
    Modulation.taken r'
    = (1 + length (filter (fun e => match e with
                                    | Some _ => true
                                    | None => false
                                    end) template)
       + Modulation.taken (Modulation.mkRandom (fun _ => 0.5%Q) 0))%nat /\
    ArpSeq.layer S' = ArpSeq.layer (warmPadSequencer 88) /\
    ArpSeq.phraseCount S' = ArpSeq.phraseCount (warmPadSequencer 88).
Proof.
  apply (generatePattern_follows_a_template
           [0; 3; 5; 7; 10] (warmPadSequencer 88)
           (Modulation.mkRandom (fun _ => 0.5%Q) 0) warmPad).
  - reflexivity.
  - simpl. lia.
  - intros n. simpl. split; [discriminate | reflexivity].
Defined.

Section ArpPassFacts.

Import Host.
Local Open Scope Q_scope.





End ArpPassFacts.



(* --------------------------------------------------------------------- *)
(** ** The filters of the texture and pad layers                          *)
(* --------------------------------------------------------------------- *)

Section FilterFacts.

Import Host.
Local Open Scope Q_scope.

Lemma texture_onTick_cases (tk : Z) (tm : Q) (st : TextureFilter.t) :
  (tm < TextureFilter.lastFilterUpdate st + 0.1 /\
   TextureFilter.onTick tk tm st = st) \/
  (TextureFilter.lastFilterUpdate st + 0.1 <= tm /\
   TextureFilter.onTick tk tm st
   = TextureFilter.mk
       (TextureFilter.filterMod st) tm
       (TextureFilter.frequency st ++
        [SetValueAtTime
           (Qmax 150 (Qmin 1200
              (Modulation.getValue (TextureFilter.filterMod st) tm))) tm])).
Proof.
  unfold TextureFilter.onTick, Beat.Qpos.
  destruct (Qle_bool (0.1 - (tm - TextureFilter.lastFilterUpdate st)) 0)
    eqn:E; simpl.
  - right. apply Qle_bool_iff in E. split; [lra | reflexivity].
  - left. split; [| reflexivity].
    destruct (Qlt_le_dec tm (TextureFilter.lastFilterUpdate st + 0.1))
      as [H | H]; [exact H |].
    assert (H' : 0.1 - (tm - TextureFilter.lastFilterUpdate st) <= 0) by lra.
    apply Qle_bool_iff in H'. congruence.
Qed.



Variable impl : Clock.listener -> Clock.ClockListener.





Lemma length_flat_map_const {A B : Type} (f : A -> list B) (l : list A)
      (k : nat) :
  (forall x, length (f x) = k) ->
  length (flat_map f l) = (length l * k)%nat.
Proof.
  intros H. induction l as [| a l IH]; simpl; [reflexivity |].
  rewrite length_app, H, IH. reflexivity.
Qed.


End FilterFacts.

(** X16.  The throttle of the texture layer, for any calls of a clock:
    the filter is written at most once for each tick told to the layer,
    each write is scheduled at the time of such a tick and carries a
    frequency between 150 and 1200 Hz, a write comes at least 0.1 s after
    the write before it and after the last update before these calls, and
    [lastFilterUpdate] ends as the time of the last write. *)
Theorem texture_filter_is_throttled :
  forall (me : Clock.listener) (tr : list Clock.Call) (st : TextureFilter.t),
  exists writes,
    TextureFilter.frequency (TextureFilter.told me tr st)
    = TextureFilter.frequency st ++ writes /\
    (length writes <= length (tick_calls me tr))%nat /\
    Forall (fun a => exists v x,
                       In x (tick_calls me tr) /\
                       a = Host.SetValueAtTime v (Clock.time x) /\
                       (150 <= v <= 1200)%Q) writes /\
    spaced 0.1 (TextureFilter.lastFilterUpdate st)
           (map Host.scheduled_for writes) /\
    TextureFilter.lastFilterUpdate (TextureFilter.told me tr st)
    = last (map Host.scheduled_for writes)
           (TextureFilter.lastFilterUpdate st).
Proof.
  intros me tr. unfold TextureFilter.told.
  induction tr as [| x tr IH]; intros st.
  - exists []. simpl. rewrite app_nil_r. repeat split; constructor.
  - simpl fold_left. unfold tick_calls in *. simpl filter.
    assert (Skip :
      forall keep : list Clock.Call,
      (exists writes,
         TextureFilter.frequency
           (fold_left
              (fun S0 x0 =>
                 if Nat.eqb (Clock.who x0) me
                 then match Clock.what x0 with
                      | Clock.tick =>
                        TextureFilter.onTick (Clock.value x0) (Clock.time x0)
                                             S0
                      | _ => S0
                      end
                 else S0) tr st)
         = TextureFilter.frequency st ++ writes /\
         (length writes
          <= length (keep ++ filter
               (fun x0 => Nat.eqb (Clock.who x0) me &&
                          match Clock.what x0 with
                          | Clock.tick => true
                          | _ => false
                          end) tr))%nat /\
         Forall (fun a => exists v x0,
                   In x0 (keep ++ filter
                      (fun x0 => Nat.eqb (Clock.who x0) me &&
                                 match Clock.what x0 with
                                 | Clock.tick => true
                                 | _ => false
                                 end) tr) /\
                   a = Host.SetValueAtTime v (Clock.time x0) /\
                   (150 <= v <= 1200)%Q) writes /\
         spaced 0.1 (TextureFilter.lastFilterUpdate st)
                (map Host.scheduled_for writes) /\
         TextureFilter.lastFilterUpdate
           (fold_left
              (fun S0 x0 =>
                 if Nat.eqb (Clock.who x0) me
                 then match Clock.what x0 with
                      | Clock.tick =>
                        TextureFilter.onTick (Clock.value x0) (Clock.time x0)
                                             S0
                      | _ => S0
                      end
                 else S0) tr st)
         = last (map Host.scheduled_for writes)
                (TextureFilter.lastFilterUpdate st))).
    { intros keep. destruct (IH st) as [writes [F [L [A [Sp La]]]]].
      exists writes. split; [exact F |].
      split; [rewrite length_app; lia |].
      split; [| split; assumption].
      revert A. apply Forall_impl. intros a [v [x0 [Hin H]]].
      exists v, x0. split; [apply in_or_app; right; exact Hin | exact H]. }
    destruct (Nat.eqb (Clock.who x) me); simpl andb; [| apply (Skip [])].
    destruct (Clock.what x); try apply (Skip []).
    destruct (texture_onTick_cases (Clock.value x) (Clock.time x) st)
      as [[_ E] | [Hdue E]]; rewrite E.
    + apply (Skip [x]).
    + match goal with
      | |- context [fold_left _ tr ?s] =>
        destruct (IH s) as [writes [F [L [A [Sp La]]]]]
      end.
      simpl in F, Sp, La.
      eexists (_ :: writes).
      split; [rewrite F, <- app_assoc; reflexivity |].
      split; [simpl; lia |].
      split; [| split].
      * constructor.
        -- eexists. exists x. split; [left; reflexivity |].
           split; [reflexivity |].
           split; [apply Q.le_max_l |].
           apply Q.max_lub; [discriminate | apply Q.le_min_l].
        -- revert A. apply Forall_impl. intros a [v [x0 [Hin H]]].
           exists v, x0. split; [right; exact Hin | exact H].
      * simpl. split; [exact Hdue | exact Sp].
      * rewrite La. simpl map. rewrite last_cons. reflexivity.
Qed.



(* --------------------------------------------------------------------- *)
(** ** Scales                                                             *)
(* --------------------------------------------------------------------- *)

Section ScaleFacts.

Import Scales.

(** The tables of [SCALES] ascend within one octave. *)
Lemma SCALES_ascend (name : ScaleName) :
  StronglySorted Z.lt (SCALES name) /\
  Forall (fun s => 0 <= s < 12) (SCALES name).
Proof.
  destruct name; simpl; split;
    repeat (constructor; try lia).
Qed.

Lemma sorted_app (l1 l2 : list Z) :
  StronglySorted Z.lt l1 -> StronglySorted Z.lt l2 ->
  (forall x y, In x l1 -> In y l2 -> x < y) ->
  StronglySorted Z.lt (l1 ++ l2).
Proof.
  intros H1 H2 H. induction H1 as [| a l1 H1 IH Ha]; simpl; [exact H2 |].
  constructor.
  - apply IH. intros x y Hx Hy. apply H; [right; exact Hx | exact Hy].
  - apply Forall_app. split; [exact Ha |].
    apply Forall_forall. intros y Hy. apply H; [left; reflexivity | exact Hy].
Qed.

Lemma octave_sorted (root o : Z) (scale : list Z) :
  StronglySorted Z.lt scale ->
  StronglySorted Z.lt (map (fun interval => root + o * 12 + interval) scale).
Proof.
  intros H. induction H as [| a l H IH Ha]; simpl; constructor.
  - exact IH.
  - apply Forall_forall. intros y Hy. apply in_map_iff in Hy.
    destruct Hy as [s [<- Hs]]. rewrite Forall_forall in Ha.
    specialize (Ha s Hs). lia.
Qed.

Lemma octaves_sorted (root : Z) (scale : list Z) (os : list Z) :
  StronglySorted Z.lt scale ->
  Forall (fun s => 0 <= s < 12) scale ->
  StronglySorted Z.lt os ->
  StronglySorted Z.lt
    (flat_map
       (fun octave => map (fun interval => root + octave * 12 + interval) scale)
       os) /\
  Forall (fun z => exists o s, In o os /\ In s scale /\ z = root + o * 12 + s)
    (flat_map
       (fun octave => map (fun interval => root + octave * 12 + interval) scale)
       os).
Proof.
  intros Hs Hb Ho. induction Ho as [| o os Ho IH Hlt]; simpl.
  - split; constructor.
  - destruct IH as [IS IB].
    assert (Here : Forall (fun z => exists o' s,
                             In o' (o :: os) /\ In s scale /\
                             z = root + o' * 12 + s)
                     (map (fun interval => root + o * 12 + interval) scale)).
    { apply Forall_forall. intros z Hz. apply in_map_iff in Hz.
      destruct Hz as [s [<- Hs']]. exists o, s.
      split; [left; reflexivity | split; [exact Hs' | reflexivity]]. }
    assert (There : Forall (fun z => exists o' s,
                              In o' (o :: os) /\ In s scale /\
                              z = root + o' * 12 + s)
                      (flat_map
                         (fun octave =>
                            map (fun interval => root + octave * 12 + interval)
                                scale) os)).
    { revert IB. apply Forall_impl. intros z [o' [s [H1 H2]]].
      exists o', s. split; [right; exact H1 | exact H2]. }
    split.
    + apply sorted_app; [apply octave_sorted; exact Hs | exact IS |].
      intros x y Hx Hy. apply in_map_iff in Hx. destruct Hx as [s [<- Hs']].
      rewrite Forall_forall in IB. destruct (IB y Hy) as [o' [s' [H1 [H2 ->]]]].
      rewrite Forall_forall in Hlt, Hb.
      specialize (Hlt o' H1). pose proof (Hb s Hs'). pose proof (Hb s' H2).
      lia.
    + apply Forall_app. split; assumption.
Qed.

Lemma first_ticks_sorted (n : nat) :
  forall s, StronglySorted Z.lt (map Z.of_nat (seq s n)).
Proof.
  induction n as [| n IH]; intros s; simpl; constructor.
  - apply IH.
  - apply Forall_forall. intros y Hy. apply in_map_iff in Hy.
    destruct Hy as [i [<- Hi]]. apply in_seq in Hi. lia.
Qed.

End ScaleFacts.

(** X18.  [getScaleNotes] on a table of [SCALES]: the notes come in
    strictly ascending order, one for each degree in each octave, an
    octave being counted for every integer below [octaves] from 0 on (so
    a fractional count is rounded up and a count of 0 or less gives no
    note); every note is the root plus whole octaves plus a degree of the
    scale and lies from the root up to the top of the last octave; and
    leaving [octaves] out is the same as passing 2. *)
Theorem getScaleNotes_ascends :
  forall (name : Scales.ScaleName) (root : Z) (octaves : Q),
  let scale := Scales.SCALES name in
  let notes := Scales.getScaleNotes root scale (Some octaves) in
  length notes = (Z.to_nat (Qceiling octaves) * length scale)%nat /\
  StronglySorted Z.lt notes /\
  Forall (fun z => root <= z < root + 12 * Qceiling octaves /\
                   exists o s, 0 <= o /\ In s scale /\ z = root + o * 12 + s)
         notes /\
  Scales.getScaleNotes root scale None
  = Scales.getScaleNotes root scale (Some 2%Q).
Proof.
  intros name root octaves scale notes.
  destruct (SCALES_ascend name) as [Hs Hb]. fold scale in Hs, Hb.
  destruct (octaves_sorted root scale (Scales.octaves_below octaves) Hs Hb
              (first_ticks_sorted _ 0)) as [So Fo].
  split; [| split; [exact So | split; [| reflexivity]]].
  - unfold notes, Scales.getScaleNotes, Scales.octaves_below.
    rewrite (length_flat_map_const _ _ (length scale)).
    + rewrite length_map, length_seq. reflexivity.
    + intros o. apply length_map.
  - revert Fo. apply Forall_impl. intros z [o [s [Ho [Hs' ->]]]].
    unfold Scales.octaves_below in Ho. apply in_map_iff in Ho.
    destruct Ho as [i [<- Hi]]. apply in_seq in Hi.
    rewrite Forall_forall in Hb. specialize (Hb s Hs').
    split; [lia |]. exists (Z.of_nat i), s.
    split; [lia | split; [exact Hs' | reflexivity]].
Qed.

(** X19.  [getChordTones] returns three tones for a scale of up to five
    degrees and four for a longer one.  No tone is NaN exactly when the
    scale has three degrees or more; then every tone is the root plus a
    degree of the scale and the first is the root plus the first degree.
    On a scale of six degrees the fourth tone, meant as the seventh,
    wraps around to the first. *)
Theorem getChordTones_needs_three_degrees :
  forall (root : Z) (scale : list Z),
  length (Scales.getChordTones root scale)
  = (if (length scale <=? 5)%nat then 3 else 4)%nat /\
  ((3 <= length scale)%nat <->
   Forall (fun t => t <> None) (Scales.getChordTones root scale)) /\
  Forall (fun t => forall z, t = Some z -> exists s, In s scale /\ z = root + s)
         (Scales.getChordTones root scale) /\
  (length scale = 6%nat ->
   nth 3 (Scales.getChordTones root scale) None
   = nth 0 (Scales.getChordTones root scale) None).
Proof.
  intros root scale.
  destruct scale as [| a [| b [| c [| d [| e [| f [| g rest]]]]]]].
  1-7: (split; [reflexivity |]).
  1-7: unfold Scales.getChordTones, Scales.tone_rem, Scales.tone; simpl.
  1-7: split.
  1,3,5,7,9,11,13: split.
  1,3,5: (intros H; simpl in H; lia).
  1-3: (intros H;
        repeat match goal with
               | H : Forall _ (_ :: _) |- _ => inversion H; clear H; subst
               end; congruence).
  1,3,5,7: (intros _; repeat constructor; discriminate).
  1-4: (intros _; simpl; lia).
  1-7: split.
  1,3,5,7,9,11,13:
    (repeat constructor; intros z Hz;
     try discriminate; injection Hz as <-;
     eexists; (split; [| reflexivity]); simpl; tauto).
  1-6: (intros H; simpl in H; discriminate).
  1: (intros _; reflexivity).
  split; [reflexivity |].
  assert (E : Scales.tone_rem root (a :: b :: c :: d :: e :: f :: g :: rest) 6
              = Some (root + g)).
  { unfold Scales.tone_rem. rewrite Nat.mod_small by (simpl; lia).
    reflexivity. }
  unfold Scales.getChordTones. simpl Nat.leb. cbv iota. rewrite E.
  split; [split; [intros _; repeat constructor; discriminate
                 | intros _; simpl; lia] |].
  split; [| intros H; simpl in H; lia].
  repeat constructor; intros z Hz; simpl in Hz; injection Hz as <-;
    eexists; (split; [| reflexivity]); simpl; tauto.
Qed.

(* --------------------------------------------------------------------- *)
(** ** The constructor of the beat layer                                  *)
(* --------------------------------------------------------------------- *)

Section FloorFacts.

Local Open Scope Q_scope.

(** [Math.floor(u * n)] for [u] in [0, 1) is an index below [n]. *)
Lemma floor_index (u : Q) (n : Z) :
  0 <= u < 1 -> (0 < n)%Z ->
  (0 <= Qfloor (u * inject_Z n) < n)%Z.
Proof.
  intros [H0 H1] Hn.
  assert (Hq : 0 < inject_Z n).
  { change 0 with (inject_Z 0). rewrite <- Zlt_Qlt. exact Hn. }
  split.
  - change 0%Z with (Qfloor 0). apply Qfloor_resp_le. nra.
  - pose proof (Qfloor_le (u * inject_Z n)) as F. rewrite Zlt_Qlt.
    apply Qle_lt_trans with (u * inject_Z n); [exact F | nra].
Qed.

End FloorFacts.

(** X20.  The constructor of the beat layer, with [Math.random] in
    [0, 1): it does not throw; the kit is one of [DRUM_KITS] and the
    pattern is the 16 steps that [getPattern] gives for the pattern type
    of that kit; the ghost modulator is made from [ModPresets.slow(0.5,
    0.3)]; [Math.random] is read once for the kit, then by the modulator
    for its noise and once for its offset. *)
Theorem newBeatLayer_takes_a_kit :
  forall (noiseDraws : nat) (createNoise2D : (nat -> Q) -> Q -> Q -> Q)
         (sub : Host.ref) (r : Modulation.Random),
  (forall n, 0 <= Modulation.draws r n < 1)%Q ->
  exists L r',
    Kits.newBeatLayer noiseDraws createNoise2D sub r = Some (L, r') /\
    In (Beat.kit L) Beat.DRUM_KITS /\
    Beat.steps L = Beat.getPattern (Beat.pattern (Beat.kit L)) /\
    length (Beat.steps L) = 16%nat /\
    Modulation.config (Beat.ghostMod L) = Modulation.slow 0.5 0.3 /\
    Beat.subOsc L = Some sub /\
    Modulation.taken r' = (noiseDraws + 2 + Modulation.taken r)%nat /\
    Modulation.draws r' = Modulation.draws r.
Proof.
  intros noiseDraws createNoise2D sub r Hr.
  unfold Kits.newBeatLayer, Kits.getRandomKit, Modulation.random.
  assert (Hi : (0 <= Qfloor (Modulation.draws r (Modulation.taken r)
                             * inject_Z (Z.of_nat (length Beat.DRUM_KITS)))
                < 8)%Z).
  { apply (floor_index _ 8 (Hr (Modulation.taken r))). reflexivity. }
  set (i := Qfloor _) in *.
  unfold ArpSeq.pick.
  destruct (i <? 0)%Z eqn:N; [apply Z.ltb_lt in N; lia |].
  destruct (nth_error Beat.DRUM_KITS (Z.to_nat i)) as [kit |] eqn:E.
  - pose proof (nth_error_In _ _ E) as Hin.
    unfold Modulation.constructor, Modulation.slow, Modulation.random.
    simpl. eexists. eexists. split; [reflexivity |]. simpl.
    split; [exact Hin |]. split; [reflexivity |].
    split; [destruct (Beat.pattern kit); reflexivity |].
    repeat split. lia.
  - apply nth_error_None in E.
    change (length Beat.DRUM_KITS) with 8%nat in E. lia.
Qed.

Lemma newBeatLayer_takes_a_kit_witness :
  exists L r',
    Kits.newBeatLayer 3 toyNoise 0%nat (Modulation.mkRandom (fun _ => 0.5%Q) 0)
    = Some (L, r') /\
    In (Beat.kit L) Beat.DRUM_KITS /\
    Beat.steps L = Beat.getPattern (Beat.pattern (Beat.kit L)) /\
    length (Beat.steps L) = 16%nat /\
    Modulation.config (Beat.ghostMod L) = Modulation.slow 0.5 0.3 /\
    Beat.subOsc L = Some 0%nat /\
    Modulation.taken r'
    = (3 + 2 + Modulation.taken (Modulation.mkRandom (fun _ => 0.5%Q) 0))%nat /\
    Modulation.draws r'
    = Modulation.draws (Modulation.mkRandom (fun _ => 0.5%Q) 0).
Proof.
  apply (newBeatLayer_takes_a_kit 3 toyNoise 0%nat
           (Modulation.mkRandom (fun _ => 0.5%Q) 0)).
  intros n. simpl. split; [discriminate | reflexivity].
Defined.

(* --------------------------------------------------------------------- *)
(** ** Stopping the layers                                                *)
(* --------------------------------------------------------------------- *)


Section PulseFacts.

Local Open Scope Q_scope.

Lemma stored_tempo (x : Q) (c : Clock.t) :
  60 <= Clock.bpm (Clock.setBpm x c) <= 140.
Proof.
  unfold Clock.setBpm. simpl. split; [apply Q.le_max_l |].
  apply Q.max_lub; [discriminate | apply Q.le_min_l].
Qed.

End PulseFacts.

(** X22.  Clock and beat layer together: the pulse that [onBeat] puts on
    the gain of the sub-bass rises from the level of the kit to 1.3 times
    that level in 5 ms and is back at the level 0.3 s after the beat,
    and at every tempo that [setBpm] can store this is before the next
    beat, four ticks later: pulses never overlap. *)
Theorem sub_pulse_ends_before_next_beat :
  forall (L : Beat.BeatLayer) (x : Q) (c : Clock.t) (tm : Q),
  let level := (Beat.subLevel (Beat.kick (Beat.kit L)) * 0.2)%Q in
  let nextBeat := (tm + 4 * Clock.tickDuration (Clock.setBpm x c))%Q in
  Fade.onBeat L tm
  = [Host.SetValueAtTime level tm;
     Host.LinearRampToValueAtTime (level * 1.3)%Q (tm + 0.005)%Q;
     Host.LinearRampToValueAtTime level (tm + 0.3)%Q] /\
  increasing (map Host.scheduled_for (Fade.onBeat L tm)) /\
  (fade_end (Fade.onBeat L tm) < nextBeat)%Q /\
  (nextBeat == tm + Clock.beatDuration (Clock.setBpm x c))%Q.
Proof.
  intros L x c tm level nextBeat. subst level nextBeat.
  destruct (stored_tempo x c) as [H0 H1].
  unfold Clock.tickDuration, Clock.beatDuration.
  change (inject_Z Clock.ticksPerBeat) with 4%Q.
  set (b := Clock.bpm (Clock.setBpm x c)) in *.
  assert (Hb : (0 < b)%Q) by lra.
  assert (Hd : (0.3 < 60 / b)%Q).
  { apply Qlt_shift_div_l; [exact Hb | lra]. }
  set (q := (60 / b)%Q) in *.
  assert (E : (4 * (q / 4) == q)%Q) by field.
  split; [reflexivity |].
  split; [simpl; repeat split; lra |].
  split.
  - unfold fade_end, Fade.onBeat. simpl. rewrite E. lra.
  - rewrite E. reflexivity.
Qed.

(* --------------------------------------------------------------------- *)
(** ** The length of a track and the player                               *)
(* --------------------------------------------------------------------- *)

Section DoubleFacts.

Import Double.

Lemma rne_bounds (x : Q) : Qfloor x <= rne x <= Qfloor x + 1.
Proof.
  unfold rne. destruct (Qcompare _ _); [destruct (Z.even _) | |]; lia.
Qed.

Lemma rne_mono (x y : Q) : (x <= y)%Q -> rne x <= rne y.
Proof.
  intros H. pose proof (Qfloor_resp_le x y H) as F.
  pose proof (rne_bounds x) as Bx. pose proof (rne_bounds y) as By.
  destruct (Z.eq_dec (Qfloor x) (Qfloor y)) as [E | E]; [| lia].
  unfold rne. rewrite <- E.
  destruct (Qcompare_spec (x - inject_Z (Qfloor x)) (1 # 2)) as [Hx | Hx | Hx];
    destruct (Qcompare_spec (y - inject_Z (Qfloor x)) (1 # 2)) as [Hy | Hy | Hy];
    try destruct (Z.even (Qfloor x)); try lia; exfalso; lra.
Qed.

Lemma rne_Z (n : Z) : rne (inject_Z n) = n.
Proof.
  unfold rne. rewrite Qfloor_Z.
  destruct (Qcompare_spec (inject_Z n - inject_Z n) (1 # 2)) as [H | H | H];
    [exfalso; lra | reflexivity | exfalso; lra].
Qed.

Lemma rne_le_Z (x : Q) (n : Z) : (x <= inject_Z n)%Q -> rne x <= n.
Proof. intros H. rewrite <- (rne_Z n). apply rne_mono. exact H. Qed.

Lemma rne_ge_Z (x : Q) (n : Z) : (inject_Z n <= x)%Q -> n <= rne x.
Proof. intros H. rewrite <- (rne_Z n). apply rne_mono. exact H. Qed.

Lemma round_units (x : Q) :
  round x = (inject_Z (units (x * inject_Z scale)) / inject_Z scale)%Q.
Proof. reflexivity. Qed.

Lemma units_small (X : Q) :
  Qfloor X < 2 ^ 53 -> units X = rne X /\ units X <= 2 ^ 53.
Proof.
  intros H. unfold units. apply Z.ltb_lt in H. rewrite H.
  apply Z.ltb_lt in H.
  assert (E : (X / inject_Z 1 == X)%Q) by (field).
  assert (R : rne (X / inject_Z 1) = rne X).
  { apply Z.le_antisymm; apply rne_mono; rewrite E; apply Qle_refl. }
  rewrite R, Z.mul_1_r. split; [reflexivity |].
  apply rne_le_Z. pose proof (Qlt_floor X) as L.
  apply Qlt_le_weak. eapply Qlt_le_trans; [exact L |].
  rewrite <- Zle_Qle. lia.
Qed.

Lemma units_large (X : Q) :
  2 ^ 53 <= Qfloor X ->
  let k := Z.log2 (Qfloor X) in
  53 <= k /\
  units X = rne (X / inject_Z (2 ^ (k - 52))) * 2 ^ (k - 52) /\
  2 ^ k <= units X <= 2 ^ (k + 1).
Proof.
  intros H k.
  assert (Hn : 0 < Qfloor X) by lia.
  assert (Hk : 53 <= k).
  { unfold k. change 53 with (Z.log2 (2 ^ 53)). apply Z.log2_le_mono. exact H. }
  destruct (Z.log2_spec (Qfloor X) Hn) as [L1 L2]. fold k in L1, L2.
  unfold units. fold k.
  assert (N : (Qfloor X <? 2 ^ 53) = false) by (apply Z.ltb_ge; exact H).
  rewrite N. split; [exact Hk |]. split; [reflexivity |].
  set (e := k - 52). assert (He : 0 <= e) by (unfold e; lia).
  assert (Pe : 0 < 2 ^ e) by (apply Z.pow_pos_nonneg; lia).
  assert (Pq : (0 < inject_Z (2 ^ e))%Q)
    by (change 0%Q with (inject_Z 0); rewrite <- Zlt_Qlt; exact Pe).
  assert (K : 2 ^ k = 2 ^ 52 * 2 ^ e).
  { unfold e. rewrite <- Z.pow_add_r by lia. f_equal. lia. }
  assert (K1 : 2 ^ (k + 1) = 2 ^ 53 * 2 ^ e).
  { unfold e. rewrite <- Z.pow_add_r by lia. f_equal. lia. }
  assert (XL : (inject_Z (2 ^ k) <= X)%Q).
  { apply Qle_trans with (inject_Z (Qfloor X)); [| apply Qfloor_le].
    rewrite <- Zle_Qle. exact L1. }
  assert (XU : (X <= inject_Z (2 ^ (k + 1)))%Q).
  { apply Qlt_le_weak. eapply Qlt_le_trans; [apply Qlt_floor |].
    rewrite <- Zle_Qle. replace (Z.succ k) with (k + 1) in L2 by lia. lia. }
  assert (A : 2 ^ 52 <= rne (X / inject_Z (2 ^ e))).
  { apply rne_ge_Z. apply Qle_shift_div_l; [exact Pq |].
    rewrite <- inject_Z_mult, <- K. exact XL. }
  assert (B : rne (X / inject_Z (2 ^ e)) <= 2 ^ 53).
  { apply rne_le_Z. apply Qle_shift_div_r; [exact Pq |].
    rewrite <- inject_Z_mult, <- K1. exact XU. }
  rewrite K, K1. split; apply Z.mul_le_mono_nonneg_r; lia.
Qed.

Lemma units_mono (X Y : Q) : (X <= Y)%Q -> units X <= units Y.
Proof.
  intros H. pose proof (Qfloor_resp_le X Y H) as F.
  destruct (Z_lt_le_dec (Qfloor X) (2 ^ 53)) as [SX | LX];
    destruct (Z_lt_le_dec (Qfloor Y) (2 ^ 53)) as [SY | LY].
  - destruct (units_small X SX) as [-> _].
    destruct (units_small Y SY) as [-> _]. apply rne_mono. exact H.
  - destruct (units_small X SX) as [_ U].
    destruct (units_large Y LY) as [K [_ [L _]]].
    assert (2 ^ 53 <= 2 ^ Z.log2 (Qfloor Y))
      by (apply Z.pow_le_mono_r; lia).
    lia.
  - lia.
  - destruct (units_large X LX) as [KX [EX [LX1 UX]]].
    destruct (units_large Y LY) as [KY [EY [LY1 UY]]].
    assert (M : Z.log2 (Qfloor X) <= Z.log2 (Qfloor Y))
      by (apply Z.log2_le_mono; exact F).
    destruct (Z.eq_dec (Z.log2 (Qfloor X)) (Z.log2 (Qfloor Y))) as [E | E].
    + rewrite EX, EY, E.
      set (e := Z.log2 (Qfloor Y) - 52).
      assert (Pe : 0 < 2 ^ e) by (apply Z.pow_pos_nonneg; unfold e; lia).
      apply Z.mul_le_mono_nonneg_r; [lia |].
      apply rne_mono. apply Qmult_le_compat_r; [exact H |].
      apply Qlt_le_weak, Qinv_lt_0_compat.
      change 0%Q with (inject_Z 0). rewrite <- Zlt_Qlt. exact Pe.
    + assert (2 ^ (Z.log2 (Qfloor X) + 1) <= 2 ^ Z.log2 (Qfloor Y))
        by (apply Z.pow_le_mono_r; lia).
      lia.
Qed.

Lemma scale_pos : (0 < inject_Z scale)%Q.
Proof. reflexivity. Qed.

(** Rounding keeps the order. *)
Lemma round_mono (x y : Q) : (x <= y)%Q -> (round x <= round y)%Q.
Proof.
  intros H. rewrite !round_units.
  apply Qmult_le_compat_r.
  - rewrite <- Zle_Qle. apply units_mono.
    apply Qmult_le_compat_r; [exact H |]. apply Qlt_le_weak, scale_pos.
  - apply Qlt_le_weak, Qinv_lt_0_compat, scale_pos.
Qed.

End DoubleFacts.

(** X23.  [getRandomTrackLength], with [Math.random] in [0, 1) and the
    product and the sum rounded as doubles are: a whole number of seconds
    from 480 to 900.  It is at most 899 when [Math.random] returns at most
    [1 - 2 ^ -52], and it is the full fifteen minutes when [Math.random]
    returns [1 - 2 ^ -53], the largest double below 1, where the sum
    rounds to 900.  One value of [Math.random] is taken. *)
Theorem getRandomTrackLength_range :
  forall r : Modulation.Random,
  (0 <= Modulation.draws r (Modulation.taken r) < 1)%Q ->
  480 <= fst (Ui.getRandomTrackLength r) <= 900 /\
  ((Modulation.draws r (Modulation.taken r)
    <= 4503599627370495 # 4503599627370496)%Q ->
   fst (Ui.getRandomTrackLength r) <= 899) /\
  (Modulation.draws r (Modulation.taken r)
   = (9007199254740991 # 9007199254740992)%Q ->
   fst (Ui.getRandomTrackLength r) = 900) /\
  Modulation.taken (snd (Ui.getRandomTrackLength r))
  = S (Modulation.taken r).
Proof.
  intros r [H0 H1]. unfold Ui.getRandomTrackLength, Modulation.random.
  cbv beta iota zeta delta [fst snd].
  unfold Ui.MIN_TRACK_LENGTH, Ui.MAX_TRACK_LENGTH.
  set (u := Modulation.draws r (Modulation.taken r)) in *.
  assert (R0 : (Double.round 0 == 0)%Q) by (vm_compute; reflexivity).
  assert (R420 : (Double.round 420 == 420)%Q) by (vm_compute; reflexivity).
  assert (R480 : (Double.round 480 == 480)%Q) by (vm_compute; reflexivity).
  assert (R900 : (Double.round 900 == 900)%Q) by (vm_compute; reflexivity).
  set (p := Double.round (u * (15 * 60 - 8 * 60))%Q).
  assert (P0 : (0 <= p)%Q).
  { rewrite <- R0. apply round_mono. nra. }
  assert (P1 : (p <= 420)%Q).
  { rewrite <- R420. apply round_mono. nra. }
  split; [| split; [| split; [| reflexivity]]].
  - split.
    + change 480 with (Qfloor 480%Q). apply Qfloor_resp_le.
      rewrite <- R480 at 1. apply round_mono. lra.
    + change 900 with (Qfloor 900%Q). apply Qfloor_resp_le.
      rewrite <- R900. apply round_mono. lra.
  - intros E.
    set (q1 := Double.round
                 ((4503599627370495 # 4503599627370496)
                  * (15 * 60 - 8 * 60))%Q).
    assert (Q1 : (p <= q1)%Q) by (apply round_mono; nra).
    assert (Q2 : (Double.round (8 * 60 + q1) < 900)%Q)
      by (vm_compute; reflexivity).
    assert (F : Qfloor (Double.round (8 * 60 + p)%Q) < 900).
    { rewrite Zlt_Qlt.
      eapply Qle_lt_trans; [apply Qfloor_le |].
      eapply Qle_lt_trans; [| exact Q2].
      apply round_mono. lra. }
    lia.
  - intros E. subst p. rewrite E. vm_compute. reflexivity.
Qed.

Lemma getRandomTrackLength_range_witness :
  480 <= fst (Ui.getRandomTrackLength
                (Modulation.mkRandom
                   (fun _ => (9007199254740991 # 9007199254740992)%Q) 0))
      <= 900 /\
  fst (Ui.getRandomTrackLength
         (Modulation.mkRandom
            (fun _ => (9007199254740991 # 9007199254740992)%Q) 0))
  = 900.
Proof.
  destruct (getRandomTrackLength_range
              (Modulation.mkRandom
                 (fun _ => (9007199254740991 # 9007199254740992)%Q) 0))
    as [H [_ [G _]]].
  - simpl. split; [discriminate | reflexivity].
  - split; [exact H | exact (G eq_refl)].
Defined.

Section PlayerFacts.

Local Open Scope Q_scope.

Lemma advance_below (T : Q) (e : Z) :
  inject_Z (e + 1) < T -> Ui.advance T e = ((e + 1)%Z, false).
Proof.
  intros H. unfold Ui.advance.
  destruct (Qle_bool T (inject_Z (e + 1))) eqn:E; [| reflexivity].
  apply Qle_bool_iff in E. lra.
Qed.

Lemma advance_wraps (T : Q) (e : Z) :
  T <= inject_Z (e + 1) -> Ui.advance T e = (0%Z, true).
Proof.
  intros H. unfold Ui.advance. apply Qle_bool_iff in H. rewrite H.
  reflexivity.
Qed.

Lemma seconds_below (T : Q) (k : nat) :
  forall e,
  inject_Z (e + Z.of_nat k) < T ->
  Ui.seconds k T e = ((e + Z.of_nat k)%Z, O).
Proof.
  induction k as [| k IH]; intros e H; simpl Ui.seconds.
  - rewrite Z.add_0_r. reflexivity.
  - assert (H1 : inject_Z (e + 1) < T).
    { apply Qle_lt_trans with (inject_Z (e + Z.of_nat (S k))); [| exact H].
      rewrite <- Zle_Qle. lia. }
    rewrite (advance_below T e H1), IH.
    + f_equal. lia.
    + replace (e + 1 + Z.of_nat k)%Z with (e + Z.of_nat (S k))%Z by lia.
      exact H.
Qed.

Lemma seconds_cons (T : Q) (k : nat) (e : Z) :
  Ui.seconds (S k) T e
  = (let '(e1, next) := Ui.advance T e in
     let '(e2, j) := Ui.seconds k T e1 in
     (e2, ((if next then 1 else 0) + j)%nat)).
Proof. reflexivity. Qed.

Lemma seconds_succ (T : Q) (k : nat) :
  forall e,
  Ui.seconds (S k) T e
  = (fst (Ui.advance T (fst (Ui.seconds k T e))),
     (snd (Ui.seconds k T e)
      + if snd (Ui.advance T (fst (Ui.seconds k T e))) then 1 else 0)%nat).
Proof.
  induction k as [| k IH]; intros e.
  - rewrite seconds_cons. cbn [Ui.seconds fst snd].
    destruct (Ui.advance T e) as [e1 b]. cbn [fst snd].
    destruct b; reflexivity.
  - rewrite (seconds_cons T (S k) e), (seconds_cons T k e).
    destruct (Ui.advance T e) as [e1 next].
    rewrite (IH e1).
    destruct (Ui.seconds k T e1) as [e2 j]. simpl.
    f_equal. lia.
Qed.

End PlayerFacts.

(** X24.  The elapsed counter of [Player], started at 0 with a track
    length above 0: after [k] seconds it reads [k] and [onNext] has not
    been called, as long as [k] is below the track length; at the first
    second that is not, [onNext] is called, once, and the counter is back
    at 0.  One step of the counter from a value that is not negative
    leaves a value from 0 up to, and not including, the track length. *)
Theorem elapsed_counts_to_track_length :
  forall (trackLength : Q),
  (0 < trackLength)%Q ->
  let n := Z.to_nat (Qceiling trackLength) in
  (forall k, (k < n)%nat -> Ui.seconds k trackLength 0 = (Z.of_nat k, O)) /\
  Ui.seconds n trackLength 0 = (0, 1%nat) /\
  (forall e, 0 <= e ->
     0 <= fst (Ui.advance trackLength e) /\
     (inject_Z (fst (Ui.advance trackLength e)) < trackLength)%Q /\
     (snd (Ui.advance trackLength e) = true <->
      (trackLength <= inject_Z (e + 1))%Q)).
Proof.
  intros T HT n.
  pose proof (Qle_ceiling T) as C1.
  pose proof (Qceiling_lt T) as C2.
  assert (Hc : 0 < Qceiling T).
  { rewrite Zlt_Qlt. change (inject_Z 0) with 0%Q. lra. }
  assert (Below : forall k, (k < n)%nat ->
                  (inject_Z (0 + Z.of_nat k) < T)%Q).
  { intros k Hk.
    apply Qle_lt_trans with (inject_Z (Qceiling T - 1)); [| exact C2].
    rewrite <- Zle_Qle. unfold n in Hk. lia. }
  split; [| split].
  - intros k Hk. rewrite (seconds_below T k 0 (Below k Hk)). reflexivity.
  - destruct n as [| m] eqn:En; [unfold n in En; lia |].
    rewrite seconds_succ.
    rewrite (seconds_below T m 0 (Below m (Nat.lt_succ_diag_r m))).
    simpl fst. simpl snd.
    rewrite advance_wraps; [reflexivity |].
    assert (Em : 0 + Z.of_nat m + 1 = Qceiling T) by (unfold n in En; lia).
    simpl Z.add in Em |- *. rewrite Em. exact C1.
  - intros e He. unfold Ui.advance.
    destruct (Qle_bool T (inject_Z (e + 1))) eqn:E; simpl.
    + apply Qle_bool_iff in E. repeat split; try lia; try assumption.
      intros _. exact E.
    + assert (Hlt : (inject_Z (e + 1) < T)%Q).
      { destruct (Qlt_le_dec (inject_Z (e + 1)) T) as [H | H]; [exact H |].
        apply Qle_bool_iff in H. congruence. }
      split; [lia |]. split; [exact Hlt |].
      split; [discriminate | intros H; lra].
Qed.

Lemma elapsed_counts_to_track_length_witness :
  (forall k, (k < Z.to_nat (Qceiling 3))%nat ->
             Ui.seconds k 3 0 = (Z.of_nat k, O)) /\
  Ui.seconds (Z.to_nat (Qceiling 3)) 3 0 = (0, 1%nat) /\
  (forall e, 0 <= e ->
     0 <= fst (Ui.advance 3 e) /\
     (inject_Z (fst (Ui.advance 3 e)) < 3)%Q /\
     (snd (Ui.advance 3 e) = true <-> (3 <= inject_Z (e + 1))%Q)).
Proof.
  apply (elapsed_counts_to_track_length 3%Q). reflexivity.
Defined.

(** X25.  The progress bar of [Player], for a track length above 0: with
    an elapsed count that is not negative, [repeat] does not throw and
    the bar has 38 cells, the filled ones first; their number is the
    elapsed share of 38, rounded down, and all 38 are filled exactly when
    the elapsed count has reached the track length.  With a negative
    count the first [repeat] throws a RangeError. *)
Theorem progressBar_has_38_cells :
  forall (trackLength : Q) (elapsed : Z),
  (0 < trackLength)%Q ->
  (0 <= elapsed ->
   let f := Ui.filledWidth trackLength elapsed in
   0 <= f <= 38 /\
   Ui.progressBar trackLength elapsed
   = Some (repeat Ui.Filled (Z.to_nat f) ++
           repeat Ui.Blank (Z.to_nat (38 - f))) /\
   (f = 38 <-> (trackLength <= inject_Z elapsed)%Q) /\
   (forall cells, Ui.progressBar trackLength elapsed = Some cells ->
                  length cells = 38%nat)) /\
  (elapsed < 0 -> Ui.progressBar trackLength elapsed = None).
Proof.
  intros T e HT. split.
  - intros He f.
    assert (Hq : (0 <= inject_Z e)%Q).
    { change 0%Q with (inject_Z 0). rewrite <- Zle_Qle. exact He. }
    assert (Hp0 : (0 <= inject_Z e / T)%Q).
    { apply Qle_shift_div_l; [exact HT | lra]. }
    set (p := Qmin 1 (inject_Z e / T)).
    assert (P0 : (0 <= p)%Q) by (apply Q.min_glb; [discriminate | exact Hp0]).
    assert (P1 : (p <= 1)%Q) by apply Q.le_min_l.
    assert (F0 : 0 <= f).
    { unfold f, Ui.filledWidth. fold p. change 0 with (Qfloor 0).
      apply Qfloor_resp_le. change (inject_Z Ui.barWidth) with 38%Q. nra. }
    assert (F1 : f <= 38).
    { unfold f, Ui.filledWidth. fold p.
      apply Z.le_trans with (Qfloor 38%Q); [| apply Z.le_refl].
      apply Qfloor_resp_le. change (inject_Z Ui.barWidth) with 38%Q. nra. }
    assert (Bar : Ui.progressBar T e
                  = Some (repeat Ui.Filled (Z.to_nat f) ++
                          repeat Ui.Blank (Z.to_nat (38 - f)))).
    { unfold Ui.progressBar, Ui.repeat_cell. fold f.
      change Ui.barWidth with 38.
      destruct (f <? 0) eqn:N1; [apply Z.ltb_lt in N1; lia |].
      destruct (38 - f <? 0) eqn:N2; [apply Z.ltb_lt in N2; lia |].
      reflexivity. }
    split; [lia |]. split; [exact Bar |]. split.
    + split.
      * intros E.
        assert (G : (38 <= p * 38)%Q).
        { pose proof (Qfloor_le (p * 38)) as G.
          unfold f, Ui.filledWidth in E. fold p in E.
          change (inject_Z Ui.barWidth) with 38%Q in E. rewrite E in G.
          exact G. }
        assert (P : (1 <= inject_Z e / T)%Q).
        { apply Qle_trans with p; [nra | apply Q.le_min_r]. }
        apply (Qmult_le_compat_r _ _ T) in P; [| lra].
        assert (D : (inject_Z e / T * T == inject_Z e)%Q) by (field; lra).
        rewrite D in P. lra.
      * intros H.
        assert (P : (1 <= inject_Z e / T)%Q).
        { apply Qle_shift_div_l; [exact HT | lra]. }
        assert (Ep : (p == 1)%Q).
        { apply Qle_antisym; [exact P1 |].
          apply Q.min_glb; [discriminate | exact P]. }
        assert (G : 38 <= f).
        { unfold f, Ui.filledWidth. fold p.
          apply Z.le_trans with (Qfloor 38%Q); [apply Z.le_refl |].
          apply Qfloor_resp_le. change (inject_Z Ui.barWidth) with 38%Q.
          rewrite Ep. discriminate. }
        lia.
    + intros cells Hc.
      assert (Ec : cells = repeat Ui.Filled (Z.to_nat f) ++
                           repeat Ui.Blank (Z.to_nat (38 - f)))
        by congruence.
      rewrite Ec, length_app, !repeat_length. lia.
  - intros He.
    assert (Hq : (inject_Z e < 0)%Q).
    { change 0%Q with (inject_Z 0). rewrite <- Zlt_Qlt. exact He. }
    assert (Hp : (inject_Z e / T < 0)%Q).
    { apply Qlt_shift_div_r; [exact HT | lra]. }
    assert (F : Ui.filledWidth T e < 0).
    { unfold Ui.filledWidth. rewrite Zlt_Qlt.
      apply Qle_lt_trans
        with (Qmin 1 (inject_Z e / T) * inject_Z Ui.barWidth)%Q;
        [apply Qfloor_le |].
      change (inject_Z Ui.barWidth) with 38%Q. change (inject_Z 0) with 0%Q.
      assert (M : (Qmin 1 (inject_Z e / T) <= inject_Z e / T)%Q)
        by apply Q.le_min_r.
      nra. }
    unfold Ui.progressBar, Ui.repeat_cell.
    apply Z.ltb_lt in F. rewrite F. reflexivity.
Qed.

Lemma progressBar_has_38_cells_witness :
  let f := Ui.filledWidth 600 300 in
  0 <= f <= 38 /\
  Ui.progressBar 600 300
  = Some (repeat Ui.Filled (Z.to_nat f) ++
          repeat Ui.Blank (Z.to_nat (38 - f))) /\
  (f = 38 <-> (600 <= inject_Z 300)%Q) /\
  (forall cells, Ui.progressBar 600 300 = Some cells ->
                 length cells = 38%nat).
Proof.
  apply (proj1 (progressBar_has_38_cells 600%Q 300 eq_refl)).
  discriminate.
Defined.

(* --------------------------------------------------------------------- *)
(** ** Chord and pattern changes                                          *)
(* --------------------------------------------------------------------- *)

Section PhraseFacts.

Lemma apart_weaken (gap : nat) (outs : list bool) :
  forall need need', (need' <= need)%nat ->
  apart gap need outs -> apart gap need' outs.
Proof.
  induction outs as [| [|] outs IH]; intros need need' H A; simpl in *.
  - exact I.
  - destruct A as [-> A]. split; [lia | exact A].
  - apply (IH (pred need)); [lia | exact A].
Qed.

(** A draw in [0, 1) picks one of the four intervals. *)
Lemma interval_picked (v : Q) :
  (0 <= v < 1)%Q ->
  In (nth (Z.to_nat (Qfloor (v * inject_Z (Z.of_nat (length Pad.intervals)))))
          Pad.intervals 0)
     Pad.intervals.
Proof.
  intros H.
  pose proof (floor_index v 4 H eq_refl) as Hi.
  change (Z.of_nat (length Pad.intervals)) with 4.
  apply nth_In. change (length Pad.intervals) with 4%nat. lia.
Qed.

Lemma pad_onPhrase_spec (tm gv : Q) (L : Pad.PadLayer)
      (r : Modulation.Random) :
  (forall n, (0 <= Modulation.draws r n < 1)%Q) ->
  let out := Pad.onPhrase tm gv L r in
  Modulation.draws (snd (fst out)) = Modulation.draws r /\
  match snd out with
  | Some i =>
    5 <= Pad.phraseCount L /\ Pad.phraseCount (fst (fst out)) = 0 /\
    (i = 5 \/ i = 7 \/ i = -5)
  | None =>
    (5 <= Pad.phraseCount L /\ Pad.phraseCount (fst (fst out)) = 0) \/
    Pad.phraseCount (fst (fst out)) = Pad.phraseCount L + 1
  end.
Proof.
  intros Hr out. subst out. unfold Pad.onPhrase.
  destruct (Pad.phraseCount L + 1 <? 6) eqn:N.
  - cbn [fst snd Pad.phraseCount]. split; [reflexivity | right; reflexivity].
  - apply Z.ltb_ge in N. unfold Modulation.random.
    cbn [fst snd Modulation.draws Modulation.taken].
    destruct (Qle_bool 0.3 _).
    + cbn [fst snd Pad.phraseCount Modulation.draws].
      split; [reflexivity | right; reflexivity].
    + pose proof (interval_picked _ (Hr (S (Modulation.taken r)))) as Hin.
      set (i := nth _ Pad.intervals 0) in *.
      destruct (i =? 0) eqn:Z0;
        cbn [fst snd Pad.phraseCount Modulation.draws].
      * split; [reflexivity | left; split; [lia | reflexivity]].
      * apply Z.eqb_neq in Z0. split; [reflexivity |].
        split; [lia |]. split; [reflexivity |].
        unfold Pad.intervals in Hin. simpl in Hin. lia.
Qed.

Lemma padPhrases_apart (calls : list (Q * Q)) :
  forall L r,
  (forall n, (0 <= Modulation.draws r n < 1)%Q) ->
  apart 5 (Z.to_nat (5 - Pad.phraseCount L))
        (map scheduled (snd (padPhrases calls L r))) /\
  Forall (fun o => o = None \/ o = Some 5 \/ o = Some 7 \/ o = Some (-5))
         (snd (padPhrases calls L r)).
Proof.
  induction calls as [| [tm gv] calls IH]; intros L r Hr.
  - cbn [padPhrases snd map]. split; [exact I | constructor].
  - cbn [padPhrases].
    destruct (pad_onPhrase_spec tm gv L r Hr) as [D S].
    destruct (Pad.onPhrase tm gv L r) as [[L1 r1] out].
    cbn [fst snd] in D, S.
    assert (Hr1 : forall n, (0 <= Modulation.draws r1 n < 1)%Q)
      by (rewrite D; exact Hr).
    destruct (IH L1 r1 Hr1) as [A F].
    destruct (padPhrases calls L1 r1) as [[L2 r2] outs].
    cbn [fst snd] in A, F. cbn [fst snd map].
    destruct out as [i |]; cbn [scheduled apart].
    + destruct S as [S5 [S0 Si]]. rewrite S0 in A.
      change (Z.to_nat (5 - 0)) with 5%nat in A.
      split; [split; [lia | exact A] |].
      constructor; [| exact F].
      destruct Si as [-> | [-> | ->]]; tauto.
    + split; [| constructor; [tauto | exact F]].
      apply (apart_weaken 5 _ (Z.to_nat (5 - Pad.phraseCount L1)));
        [| exact A].
      destruct S as [[S5 S] | S]; rewrite S; lia.
Qed.

Lemma arp_onPhrase_spec (tm gv : Q) (sq : ArpSeq.Sequencer)
      (r : Modulation.Random) :
  let out := ArpSeq.onPhrase tm gv sq r in
  ArpSeq.layer (fst (fst out)) = ArpSeq.layer sq /\
  if snd out
  then 7 <= ArpSeq.phraseCount sq /\ ArpSeq.phraseCount (fst (fst out)) = 0 /\
       Arp.preset (ArpSeq.layer sq) <> None /\
       Arp.isActive (ArpSeq.layer sq) = true
  else ArpSeq.phraseCount (fst (fst out)) = ArpSeq.phraseCount sq \/
       ArpSeq.phraseCount (fst (fst out)) = ArpSeq.phraseCount sq + 1.
Proof.
  intros out. subst out. unfold ArpSeq.onPhrase.
  destruct (Arp.preset (ArpSeq.layer sq)) as [p |]; simpl;
    [| split; [reflexivity | left; reflexivity]].
  destruct (Arp.isActive (ArpSeq.layer sq)); simpl;
    [| split; [reflexivity | left; reflexivity]].
  destruct (ArpSeq.phraseCount sq + 1 <? 8) eqn:N; simpl.
  - split; [reflexivity | right; reflexivity].
  - apply Z.ltb_ge in N. unfold Modulation.random.
    destruct (Qle_bool 0.25 _); simpl.
    + split; [reflexivity | right; reflexivity].
    + split; [reflexivity |]. repeat split; try lia. discriminate.
Qed.

Lemma arpPhrases_apart (calls : list (Q * Q)) :
  forall sq r,
  apart 7 (Z.to_nat (7 - ArpSeq.phraseCount sq))
        (snd (arpPhrases calls sq r)) /\
  (Arp.preset (ArpSeq.layer sq) = None \/
   Arp.isActive (ArpSeq.layer sq) = false ->
   Forall (eq false) (snd (arpPhrases calls sq r))).
Proof.
  induction calls as [| [tm gv] calls IH]; intros sq r.
  - cbn [arpPhrases snd]. split; [exact I | intros _; constructor].
  - cbn [arpPhrases].
    destruct (arp_onPhrase_spec tm gv sq r) as [EL S].
    destruct (ArpSeq.onPhrase tm gv sq r) as [[sq1 r1] out].
    cbn [fst snd] in EL, S.
    destruct (IH sq1 r1) as [A Off].
    destruct (arpPhrases calls sq1 r1) as [[sq2 r2] outs].
    cbn [fst snd] in A, Off. cbn [fst snd].
    destruct out; cbn [apart].
    + destruct S as [S7 [S0 [Sp Sa]]]. rewrite S0 in A.
      change (Z.to_nat (7 - 0)) with 7%nat in A.
      split; [split; [lia | exact A] |].
      intros [H | H]; [contradiction | congruence].
    + split.
      * apply (apart_weaken 7 _ (Z.to_nat (7 - ArpSeq.phraseCount sq1)));
          [| exact A].
        destruct S as [S | S]; rewrite S; lia.
      * intros H. constructor; [reflexivity |]. apply Off.
        rewrite EL. exact H.
Qed.

End PhraseFacts.

(** X26.  Changes come phrases apart.  Over any sequence of [onPhrase]
    calls, with [Math.random] in [0, 1), the pad layer schedules a chord
    change only at the sixth call or later after the one before (and
    after the count it started with), and the interval of a change is 5,
    7 or -5 semitones, never 0; the arp layer schedules a new pattern
    only at the eighth call or later after the one before, and never
    when it has no preset or is not active. *)
Theorem changes_are_phrases_apart :
  forall (calls : list (Q * Q)) (L : Pad.PadLayer) (sq : ArpSeq.Sequencer)
         (r : Modulation.Random),
  (forall n, (0 <= Modulation.draws r n < 1)%Q) ->
  apart 5 (Z.to_nat (5 - Pad.phraseCount L))
        (map scheduled (snd (padPhrases calls L r))) /\
  Forall (fun o => o = None \/ o = Some 5 \/ o = Some 7 \/ o = Some (-5))
         (snd (padPhrases calls L r)) /\
  apart 7 (Z.to_nat (7 - ArpSeq.phraseCount sq))
        (snd (arpPhrases calls sq r)) /\
  (Arp.preset (ArpSeq.layer sq) = None \/
   Arp.isActive (ArpSeq.layer sq) = false ->
   Forall (eq false) (snd (arpPhrases calls sq r))).
Proof.
  intros calls L sq r Hr.
  destruct (padPhrases_apart calls L r Hr) as [A F].
  destruct (arpPhrases_apart calls sq r) as [B Off].
  repeat split; assumption.
Qed.

Lemma changes_are_phrases_apart_witness :
  let calls := map (fun k => (inject_Z (Z.of_nat k) * 8, 0.35)%Q) (seq 0 20) in
  let L := Pad.layer (padWorld 48) in
  let sq := warmPadSequencer 120 in
  let r := Modulation.mkRandom (fun _ => 0.25%Q) 0 in
  apart 5 (Z.to_nat (5 - Pad.phraseCount L))
        (map scheduled (snd (padPhrases calls L r))) /\
  Forall (fun o => o = None \/ o = Some 5 \/ o = Some 7 \/ o = Some (-5))
         (snd (padPhrases calls L r)) /\
  apart 7 (Z.to_nat (7 - ArpSeq.phraseCount sq))
        (snd (arpPhrases calls sq r)) /\
  (Arp.preset (ArpSeq.layer sq) = None \/
   Arp.isActive (ArpSeq.layer sq) = false ->
   Forall (eq false) (snd (arpPhrases calls sq r))).
Proof.
  intros calls L sq r.
  apply (changes_are_phrases_apart calls L sq r).
  intros n. simpl. split; [discriminate | reflexivity].
Defined.

(* --------------------------------------------------------------------- *)
(** ** The noise of the texture layer                                     *)
(* --------------------------------------------------------------------- *)

Section BrownNoiseFacts.

Local Open Scope Q_scope.

Lemma fill_spec (n : nat) :
  forall lastOut r,
  (forall i, 0 <= Modulation.draws r i < 1) ->
  -1 <= lastOut <= 1 ->
  length (fst (TextureNoise.fill n lastOut r)) = n /\
  Forall (fun s => -3.5 <= s <= 3.5) (fst (TextureNoise.fill n lastOut r)) /\
  steps_within 0.14 (lastOut * 3.5) (fst (TextureNoise.fill n lastOut r)) /\
  Modulation.draws (snd (TextureNoise.fill n lastOut r)) = Modulation.draws r /\
  Modulation.taken (snd (TextureNoise.fill n lastOut r))
  = (n + Modulation.taken r)%nat.
Proof.
  induction n as [| n IH]; intros lastOut r Hr Hl.
  - cbn [TextureNoise.fill fst snd]. repeat split. constructor.
  - cbn [TextureNoise.fill]. unfold Modulation.random.
    set (u := Modulation.draws r (Modulation.taken r)).
    assert (Hu : 0 <= u < 1) by apply Hr.
    set (x := (lastOut + 0.02 * (u * 2 - 1)) / 1.02).
    assert (E : x * 1.02 == lastOut + 0.02 * (u * 2 - 1))
      by (unfold x; field).
    assert (Hx : -1 <= x <= 1) by (split; lra).
    set (r1 := Modulation.mkRandom (Modulation.draws r)
                                   (S (Modulation.taken r))).
    destruct (IH x r1 Hr Hx) as [L [B [W [D T]]]].
    destruct (TextureNoise.fill n x r1) as [rest r2].
    cbn [fst snd] in *.
    split; [simpl; rewrite L; reflexivity |].
    split; [constructor; [split; lra | exact B] |].
    split; [split; [split; lra | exact W] |].
    split; [exact D |]. rewrite T. unfold r1. simpl. lia.
Qed.

Lemma steps_within_from (d p p' : Q) (l : list Q) :
  p == p' -> steps_within d p l -> steps_within d p' l.
Proof.
  intros E H. destruct l as [| a l]; [exact I |].
  destruct H as [H1 H2]. split; [split; lra | exact H2].
Qed.

End BrownNoiseFacts.

(** X27.  [createBrownNoiseBuffer], with [Math.random] in [0, 1): each of
    the two channels has ten seconds of samples; every sample lies
    between -3.5 and 3.5 (the filtered value itself between -1 and 1,
    before the gain of 3.5), so samples can leave the range [-1, 1] but
    not by more than that; a sample differs from the one before it by at
    most 0.14, and the first from 0 by as much; [Math.random] is read once
    for each sample. *)
Theorem brown_noise_is_bounded_and_smooth :
  forall (sampleRate : nat) (r : Modulation.Random),
  (forall i, (0 <= Modulation.draws r i < 1)%Q) ->
  let '(channel0, channel1, r') :=
    TextureNoise.createBrownNoiseBuffer sampleRate r in
  length channel0 = (sampleRate * 10)%nat /\
  length channel1 = (sampleRate * 10)%nat /\
  Forall (fun s => (-3.5 <= s <= 3.5)%Q) (channel0 ++ channel1) /\
  steps_within 0.14 0 channel0 /\
  steps_within 0.14 0 channel1 /\
  Modulation.taken r' = (2 * (sampleRate * 10) + Modulation.taken r)%nat.
Proof.
  intros sampleRate r Hr. unfold TextureNoise.createBrownNoiseBuffer.
  assert (H0 : (-1 <= 0 <= 1)%Q) by (split; discriminate).
  destruct (fill_spec (sampleRate * 10) 0 r Hr H0) as [L0 [B0 [W0 [D0 T0]]]].
  destruct (TextureNoise.fill (sampleRate * 10) 0 r) as [channel0 r1].
  cbn [fst snd] in *.
  assert (Hr1 : forall i, (0 <= Modulation.draws r1 i < 1)%Q)
    by (rewrite D0; exact Hr).
  destruct (fill_spec (sampleRate * 10) 0 r1 Hr1 H0)
    as [L1 [B1 [W1 [D1 T1]]]].
  destruct (TextureNoise.fill (sampleRate * 10) 0 r1) as [channel1 r2].
  cbn [fst snd] in *.
  split; [exact L0 |]. split; [exact L1 |].
  split; [apply Forall_app; split; assumption |].
  assert (Z0 : (0 * 3.5 == 0)%Q) by reflexivity.
  split; [exact (steps_within_from _ _ _ _ Z0 W0) |].
  split; [exact (steps_within_from _ _ _ _ Z0 W1) |].
  rewrite T1, T0. lia.
Qed.

Lemma brown_noise_is_bounded_and_smooth_witness :
  let '(channel0, channel1, r') :=
    TextureNoise.createBrownNoiseBuffer
      2 (Modulation.mkRandom (fun i => (1 # Pos.of_nat (i + 2))%Q) 0) in
  length channel0 = (2 * 10)%nat /\
  length channel1 = (2 * 10)%nat /\
  Forall (fun s => (-3.5 <= s <= 3.5)%Q) (channel0 ++ channel1) /\
  steps_within 0.14 0 channel0 /\
  steps_within 0.14 0 channel1 /\
  Modulation.taken r'
  = (2 * (2 * 10)
     + Modulation.taken
         (Modulation.mkRandom (fun i => (1 # Pos.of_nat (i + 2))%Q) 0))%nat.
Proof.
  apply (brown_noise_is_bounded_and_smooth
           2 (Modulation.mkRandom (fun i => (1 # Pos.of_nat (i + 2))%Q) 0)).
  intros i. simpl. unfold Qle, Qlt. simpl. lia.
Defined.
